(** * Mimeo: association store, resolver and command builder

    A shallow embedding of the parts of [Mimeo.py] that keep the
    [mimeapps.list] association tables, resolve a MIME-type to desktop
    files and build command lines from [Exec] templates, together with
    the properties of these functions.

    Python values are modelled as follows.
    - [str] is [string]; a character is an [ascii] code point below 256.
    - [None] or a [str] is [option string].
    - a [dict] (and [collections.OrderedDict]) is an association list in
      insertion order: assignment to a present key replaces the value in
      place, assignment to a new key appends, [del] removes the binding.
    - a generator is the list of the values it yields when it is run to
      its end; a function that can raise returns [result], whose [Raise]
      carries the exception.
    - a file system is a map from paths to the text of the files. *)

From Stdlib Require Import Strings.String Strings.Ascii Lists.List Bool.Bool.
From Stdlib Require Import Arith.PeanoNat micromega.Lia.
From Stdlib Require Import Sorting.Permutation.
Import ListNotations.

Local Open Scope string_scope.
Local Open Scope list_scope.

(** ** Characters and strings *)

Module Str.

Definition nl : ascii := "010"%char.
Definition cr : ascii := "013"%char.
Definition tab : ascii := "009"%char.
Definition dquote : ascii := "034"%char.
Definition squote : ascii := "039"%char.
Definition backslash : ascii := "092"%char.

(** [c.isspace()] for code points below 256. *)
Definition isspace (c : ascii) : bool :=
  let n := nat_of_ascii c in
  (((9 <=? n) && (n <=? 13)) || ((28 <=? n) && (n <=? 32))
   || (n =? 133) || (n =? 160))%nat.

(** [c in s] for a character [c]. *)
Fixpoint mem (c : ascii) (s : string) : bool :=
  match s with
  | EmptyString => false
  | String d r => Ascii.eqb c d || mem c r
  end.

Definition is_empty (s : string) : bool :=
  match s with EmptyString => true | _ => false end.

(** Truth value of a [str]. *)
Definition truthy (s : string) : bool := negb (is_empty s).

Definition first (s : string) : option ascii :=
  match s with EmptyString => None | String c _ => Some c end.

Fixpoint last (s : string) : option ascii :=
  match s with
  | EmptyString => None
  | String c EmptyString => Some c
  | String _ r => last r
  end.

(** [s[1:]] and [s[:-1]]. *)
Definition tail (s : string) : string :=
  match s with EmptyString => EmptyString | String _ r => r end.

Fixpoint init (s : string) : string :=
  match s with
  | EmptyString => EmptyString
  | String _ EmptyString => EmptyString
  | String c r => String c (init r)
  end.

Fixpoint lstrip (s : string) : string :=
  match s with
  | EmptyString => EmptyString
  | String c r => if isspace c then lstrip r else s
  end.

Fixpoint rstrip (s : string) : string :=
  match s with
  | EmptyString => EmptyString
  | String c r =>
      let r' := rstrip r in
      if is_empty r' && isspace c then EmptyString else String c r'
  end.

Definition strip (s : string) : string := lstrip (rstrip s).

(** [s.split(c, 1)] when it has two parts: the text before the first [c]
    and the text after it. *)
Fixpoint split1 (c : ascii) (s : string) : option (string * string) :=
  match s with
  | EmptyString => None
  | String d r =>
      if Ascii.eqb d c then Some (EmptyString, r)
      else match split1 c r with
           | Some (a, b) => Some (String d a, b)
           | None => None
           end
  end.

(** [s.rsplit(c, 1)] when it has two parts: split at the last [c]. *)
Fixpoint rsplit1 (c : ascii) (s : string) : option (string * string) :=
  match s with
  | EmptyString => None
  | String d r =>
      match rsplit1 c r with
      | Some (a, b) => Some (String d a, b)
      | None => if Ascii.eqb d c then Some (EmptyString, r) else None
      end
  end.

(** [s.split(c)]: always at least one piece. *)
Fixpoint split (c : ascii) (s : string) : list string :=
  match s with
  | EmptyString => [EmptyString]
  | String d r =>
      if Ascii.eqb d c then EmptyString :: split c r
      else match split c r with
           | p :: ps => String d p :: ps
           | [] => [String d EmptyString]
           end
  end.

(** [sep.join(l)]. *)
Definition join (sep : string) (l : list string) : string :=
  String.concat sep l.

(** [s.startswith(p)]. *)
Definition startswith (p s : string) : bool := String.prefix p s.

(** [p in s] for a string [p]. *)
Fixpoint contains (p s : string) : bool :=
  String.prefix p s ||
  match s with
  | EmptyString => false
  | String _ r => contains p r
  end.

(** [s[n:]]. *)
Fixpoint drop (n : nat) (s : string) : string :=
  match n, s with
  | O, _ => s
  | S m, String _ r => drop m r
  | S _, EmptyString => EmptyString
  end.

(** [s.replace(old, new)] for a non-empty [old]: occurrences are replaced
    from left to right without overlap.  The fuel bounds the number of
    characters still to be read. *)
Fixpoint replace_fuel (fuel : nat) (old new s : string) : string :=
  match fuel with
  | O => s
  | S f =>
      match s with
      | EmptyString => EmptyString
      | String c r =>
          if String.prefix old s
          then new ++ replace_fuel f old new (drop (String.length old) s)
          else String c (replace_fuel f old new r)
      end
  end.

Definition replace (old new s : string) : string :=
  if is_empty old then s else replace_fuel (String.length s) old new s.

(** [os.path.basename]: the text after the last slash. *)
Fixpoint basename (p : string) : string :=
  match p with
  | EmptyString => EmptyString
  | String c r =>
      if mem "/"%char r then basename r
      else if Ascii.eqb c "/"%char then r else p
  end.

Fixpoint all_slashes (s : string) : bool :=
  match s with
  | EmptyString => true
  | String c r => Ascii.eqb c "/"%char && all_slashes r
  end.

Fixpoint rstrip_slashes (s : string) : string :=
  match s with
  | EmptyString => EmptyString
  | String c r =>
      let r' := rstrip_slashes r in
      if is_empty r' && Ascii.eqb c "/"%char then EmptyString else String c r'
  end.

(** The text up to and including the last slash. *)
Fixpoint head_with_slash (p : string) : string :=
  match p with
  | EmptyString => EmptyString
  | String c r =>
      if mem "/"%char r then String c (head_with_slash r)
      else if Ascii.eqb c "/"%char then String c EmptyString else EmptyString
  end.

(** [os.path.dirname]. *)
Definition dirname (p : string) : string :=
  let head := head_with_slash p in
  if truthy head && negb (all_slashes head) then rstrip_slashes head else head.

(** [os.path.join(a, b)]. *)
Definition path_join (a b : string) : string :=
  if startswith "/" b then b
  else if is_empty a || match last a with
                        | Some c => Ascii.eqb c "/"%char
                        | None => false
                        end
       then a ++ b
       else a ++ "/" ++ b.

(** [s.endswith(suffix)]. *)
Definition endswith (suffix s : string) : bool :=
  (String.length suffix <=? String.length s)%nat
  && String.eqb (drop (String.length s - String.length suffix) s) suffix.

End Str.

(** ** Python results and dictionaries *)

(** The exceptions that the modelled functions raise.  [TypeError] carries
    the index of the sequence item that [str.join] rejects;
    [FileNotFoundError] carries the path that
    the operating system rejects; [AttributeError] carries the name of
    the module and of the attribute that it does not have;
    [UnboundLocalError] carries the name of the local variable that is
    read before it is assigned. *)
Inductive exn : Type :=
| ValueError (msg : string)
| TypeError (item : nat)
| FileNotFoundError (path : string)
| AttributeError (module attribute : string)
| UnboundLocalError (name : string).

Inductive result (A : Type) : Type :=
| Return (a : A)
| Raise (e : exn).

Arguments Return {A} a.
Arguments Raise {A} e.

Definition bind {A B : Type} (r : result A) (k : A -> result B) : result B :=
  match r with
  | Return a => k a
  | Raise e => Raise e
  end.

Notation "x <- r ;; k" := (bind r (fun x => k))
  (at level 61, r at next level, right associativity).

(** A loop that calls [f] on each item in turn and collects what it
    returns; the first exception ends it. *)
Fixpoint map_result {A B : Type} (f : A -> result B) (l : list A)
  : result (list B) :=
  match l with
  | [] => Return []
  | x :: r => y <- f x ;; ys <- map_result f r ;; Return (y :: ys)
  end.

Definition nonempty {A : Type} (l : list A) : bool :=
  match l with [] => false | _ => true end.

(** Truth value of a value that is [None] or a [str]. *)
Definition truthy_opt (o : option string) : bool :=
  match o with
  | None => false
  | Some s => Str.truthy s
  end.

Definition opt_eqb (a b : option string) : bool :=
  match a, b with
  | None, None => true
  | Some x, Some y => String.eqb x y
  | _, _ => false
  end.

Module Dict.
Section Ops.
Variables K V : Type.
Variable eqb : K -> K -> bool.

(** [d[k]]; [None] stands for [KeyError]. *)
Fixpoint get (d : list (K * V)) (k : K) : option V :=
  match d with
  | [] => None
  | (k', v) :: r => if eqb k k' then Some v else get r k
  end.

(** [d[k] = v]. *)
Fixpoint set (d : list (K * V)) (k : K) (v : V) : list (K * V) :=
  match d with
  | [] => [(k, v)]
  | (k', v') :: r => if eqb k k' then (k', v) :: r else (k', v') :: set r k v
  end.

(** [del d[k]] for a present key. *)
Fixpoint del (d : list (K * V)) (k : K) : list (K * V) :=
  match d with
  | [] => []
  | (k', v') :: r => if eqb k k' then r else (k', v') :: del r k
  end.

Definition keys (d : list (K * V)) : list K := map fst d.
End Ops.

Arguments get {K V} eqb d k.
Arguments set {K V} eqb d k v.
Arguments del {K V} eqb d k.
Arguments keys {K V} d.
End Dict.

(** ** Association tables *)

Definition entries : Type := list (string * list string).
Definition table : Type := list (option string * entries).

Definition ADDED_ASSOCIATIONS_SECTION : string := "Added Associations".
Definition REMOVED_ASSOCIATIONS_SECTION : string := "Removed Associations".
Definition DEFAULT_APPLICATIONS_SECTION : string := "Default Applications".
Definition MIME_CACHE_SECTION : string := "MIME Cache".
Definition MIMEINFO_CACHE_FILE : string := "mimeinfo.cache".

Definition get_section (assocs : table) (section : option string)
  : option entries := Dict.get opt_eqb assocs section.

Definition get_key (e : entries) (key : string) : option (list string) :=
  Dict.get String.eqb e key.

(** [assocs[section][key]], [None] standing for [KeyError]. *)
Definition lookup (assocs : table) (section : option string) (key : string)
  : option (list string) :=
  match get_section assocs section with
  | Some e => get_key e key
  | None => None
  end.

(** The state of the loop of [parse_associations]: the current section and
    the table built so far. *)
Definition parse_state : Type := (option string * table)%type.

(** The list comprehension that turns the text after the equals sign into
    desktop file names. *)
Definition parse_desktops (desktops : string) : list string :=
  map (fun d => Str.basename (Str.strip d))
      (filter Str.truthy (Str.split ";" desktops)).

(** One iteration of the loop of [parse_associations]. *)
Definition parse_line (st : parse_state) (line : string) : parse_state :=
  let '(section, associations) := st in
  let line := Str.strip line in
  if Str.is_empty line
     || match Str.first line with
        | Some c => Ascii.eqb c "#"%char
        | None => false
        end
  then st
  else if match Str.first line, Str.last line with
          | Some a, Some b => Ascii.eqb a "["%char && Ascii.eqb b "]"%char
          | _, _ => false
          end
  then (Some (Str.init (Str.tail line)), associations)
  else
    match Str.split1 "=" line with
    | None => st
    | Some (mimetype, desktops) =>
        let mimetype := Str.rstrip mimetype in
        let desktops := parse_desktops desktops in
        if nonempty desktops
        then
          match get_section associations section with
          | Some e =>
              (section,
               Dict.set opt_eqb associations section
                        (Dict.set String.eqb e mimetype desktops))
          | None =>
              (section,
               Dict.set opt_eqb associations section [(mimetype, desktops)])
          end
        else st
    end.

Definition parse_associations (lines : list string) : table :=
  snd (fold_left parse_line lines (None, [])).

Definition remove_empty_associations (assocs : table) : table :=
  filter (fun se : option string * entries => nonempty (snd se))
         (map (fun se : option string * entries =>
                 (fst se,
                  filter (fun kv : string * list string => nonempty (snd kv))
                         (snd se)))
              assocs).

(** *** Files *)

(** A file system maps a path to the text of the file, if there is one. *)
Definition filesystem : Type := string -> option string.

Definition fs_write (fs : filesystem) (path text : string) : filesystem :=
  fun p => if String.eqb p path then Some text else fs p.

Definition fs_remove (fs : filesystem) (path : string) : filesystem :=
  fun p => if String.eqb p path then None else fs p.

Definition NL : string := String Str.nl EmptyString.

(** Reading in text mode turns every carriage return, with the line feed
    that may follow it, into one line feed. *)
Fixpoint universal_newlines (s : string) : string :=
  match s with
  | EmptyString => EmptyString
  | String c r =>
      if Ascii.eqb c Str.cr
      then String Str.nl
             match r with
             | String d r' =>
                 if Ascii.eqb d Str.nl then universal_newlines r'
                 else universal_newlines r
             | EmptyString => EmptyString
             end
      else String c (universal_newlines r)
  end.

(** Iterating over a text: each line keeps its line feed; the text after
    the last line feed is a line if it is not empty. *)
Fixpoint text_lines (s : string) : list string :=
  match s with
  | EmptyString => []
  | String c r =>
      if Ascii.eqb c Str.nl then NL :: text_lines r
      else match text_lines r with
           | l :: ls => String c l :: ls
           | [] => [String c EmptyString]
           end
  end.

(** Iterating over a file opened for reading. *)
Definition file_lines (text : string) : list string :=
  text_lines (universal_newlines text).

Definition load_associations (fs : filesystem) (path : string) : table :=
  match fs path with
  | Some text => parse_associations (file_lines text)
  | None => []
  end.

(** *** Sorting the items of a dictionary *)

Fixpoint list_leb (a b : list string) : bool :=
  match a, b with
  | [], _ => true
  | _ :: _, [] => false
  | x :: a', y :: b' =>
      match String.compare x y with
      | Lt => true
      | Gt => false
      | Eq => list_leb a' b'
      end
  end.

(** The order of the pairs [(key, values)]. *)
Definition item_leb (x y : string * list string) : bool :=
  match String.compare (fst x) (fst y) with
  | Lt => true
  | Gt => false
  | Eq => list_leb (snd x) (snd y)
  end.

Fixpoint insert_item (x : string * list string) (l : entries) : entries :=
  match l with
  | [] => [x]
  | y :: r => if item_leb x y then x :: l else y :: insert_item x r
  end.

(** [sorted(entries.items())]: a stable sort. *)
Fixpoint sorted (l : entries) : entries :=
  match l with
  | [] => []
  | x :: r => insert_item x (sorted r)
  end.

(** *** Saving *)

(** ['[{}]\n'.format(section)]. *)
Definition format_section (section : option string) : string :=
  "[" ++ match section with Some s => s | None => "None" end ++ "]" ++ NL.

(** ['{}={};\n'.format(key, ';'.join(values))]. *)
Definition format_entry (kv : string * list string) : string :=
  fst kv ++ "=" ++ Str.join ";" (snd kv) ++ ";" ++ NL.

(** What the body of the loop over the sections writes. *)
Definition write_section (se : option string * entries) : string :=
  if nonempty (snd se)
  then format_section (fst se)
       ++ String.concat ""
            (map format_entry
                 (filter (fun kv : string * list string => nonempty (snd kv))
                         (sorted (snd se))))
  else "".

(** The text written for a table without empty entries. *)
Definition associations_text (assocs : table) : string :=
  String.concat "" (map write_section assocs)
  ++ (if (1 <? List.length assocs)%nat then NL else "").

(** The file system has no directories of its own: [os.makedirs] creates
    whatever directory it is asked for, and fails only for the empty
    path, which is what [os.path.dirname] gives for a bare file name. *)
Definition save_associations (fs : filesystem) (path : string)
  (assocs : table) : result filesystem :=
  let assocs := remove_empty_associations assocs in
  if nonempty assocs
  then
    if Str.is_empty (Str.dirname path)
    then Raise (FileNotFoundError "")
    else Return (fs_write fs path (associations_text assocs))
  else Return (fs_remove fs path).

(** *** Reading and changing a table *)

(** [None] and a missing section or key all give no value. *)
Definition iterate_associations (assocs : table) (section key : string)
  : list string :=
  match lookup assocs (Some section) key with
  | Some l => l
  | None => []
  end.

Definition add_association (assocs : table) (section : option string)
  (key value : string) : table :=
  if truthy_opt section && Str.truthy key && Str.truthy value
  then
    match get_section assocs section with
    | Some e =>
        match get_key e key with
        | Some old =>
            Dict.set opt_eqb assocs section
              (Dict.set String.eqb e key
                 (value :: filter (fun x => negb (String.eqb x value)) old))
        | None =>
            Dict.set opt_eqb assocs section
              (Dict.set String.eqb e key [value])
        end
    | None => Dict.set opt_eqb assocs section [(key, [value])]
    end
  else assocs.

(** [l.remove(x)]: the list without the first [x]; [None] stands for
    [ValueError]. *)
Fixpoint list_remove (x : string) (l : list string) : option (list string) :=
  match l with
  | [] => None
  | y :: r =>
      if String.eqb y x then Some r
      else match list_remove x r with
           | Some r' => Some (y :: r')
           | None => None
           end
  end.

Definition remove_association (assocs : table) (section : option string)
  (key : string) (value : option string) : table :=
  if nonempty assocs && truthy_opt section && Str.truthy key
  then
    match get_section assocs section with
    | None => assocs
    | Some e =>
        match get_key e key with
        | None => assocs
        | Some old =>
            match value with
            | Some v =>
                if Str.truthy v
                then
                  match list_remove v old with
                  | None => assocs
                  | Some [] =>
                      Dict.set opt_eqb assocs section (Dict.del String.eqb e key)
                  | Some (y :: l) =>
                      Dict.set opt_eqb assocs section
                        (Dict.set String.eqb e key (y :: l))
                  end
                else Dict.set opt_eqb assocs section (Dict.del String.eqb e key)
            | None => Dict.set opt_eqb assocs section (Dict.del String.eqb e key)
            end
        end
    end
  else assocs.

(** ** MIME-types *)

Definition mimetype_parts : Type :=
  (string * option string * string * option string * option string)%type.

(** The components are the top-level type name, the tree, the subtype
    name, the suffix and the parameters.  Unpacking the result of
    [split('/', 1)] raises [ValueError] when there is no slash; the other
    three unpackings are guarded. *)
Definition parse_mimetype (mimetype : string) : result mimetype_parts :=
  match Str.split1 "/" mimetype with
  | None => Raise (ValueError "not enough values to unpack (expected 2, got 1)")
  | Some (type_name, rest) =>
      let '(tree, rest) :=
        match Str.split1 "." rest with
        | Some (t, r) => (Some t, r)
        | None => (None, rest)
        end in
      let '(rest, parameters) :=
        match Str.rsplit1 ";" rest with
        | Some (r, p) => (r, Some p)
        | None => (rest, None)
        end in
      let '(subtype_name, suffix) :=
        match Str.split1 "+" rest with
        | Some (s, x) => (s, Some x)
        | None => (rest, None)
        end in
      Return (type_name, tree, subtype_name, suffix, parameters)
  end.

Definition strip_mimetype (mimetype : string) : result string :=
  parts <- parse_mimetype mimetype ;;
  let '(type_name, _, subtype_name, _, _) := parts in
  Return (type_name ++ "/" ++ subtype_name)%string.

(** ** The resolver *)

Definition mem_str (x : string) (l : list string) : bool :=
  existsb (String.eqb x) l.

(** The decorator [unique_items], for the items of type [A]. *)
Fixpoint unique_from {A : Type} (eqb : A -> A -> bool) (seen l : list A)
  : list A :=
  match l with
  | [] => []
  | x :: r =>
      if existsb (eqb x) seen then unique_from eqb seen r
      else x :: unique_from eqb (x :: seen) r
  end.

Definition unique_items {A : Type} (eqb : A -> A -> bool) (l : list A)
  : list A := unique_from eqb [] l.

(** What the resolver reads from its surroundings: the paths of the
    [mimeapps.list] files in their order of precedence, the application
    directories, the table of each file (an empty table for a file that
    does not exist) and which paths exist. *)
Record environment : Type := {
  mimeapps_list_paths : list string;
  mimeapps_directories : list string;
  get_associations : string -> table;
  path_exists : string -> bool
}.

(** [added.extend(a for a in items if a not in blacklist and a not in
    added)]: the list grows while the generator runs, so each item is
    compared with the items appended before it. *)
Fixpoint extend_added (blacklist added items : list string) : list string :=
  match items with
  | [] => added
  | a :: r =>
      if negb (mem_str a blacklist) && negb (mem_str a added)
      then extend_added blacklist (added ++ [a]) r
      else extend_added blacklist added r
  end.

(** The variables [added] and [blacklist] of [associated_desktop_paths]. *)
Record resolver_state : Type := {
  added : list string;
  blacklist : list string
}.

(** The first half of the loop body: the state after the removed and the
    added associations of the file at [path] are merged. *)
Definition merge_source (env : environment) (mimetype : string)
  (st : resolver_state) (path : string) : resolver_state :=
  let assocs := get_associations env path in
  let blacklist :=
    blacklist st
    ++ iterate_associations assocs REMOVED_ASSOCIATIONS_SECTION mimetype in
  let added :=
    filter (fun a => negb (mem_str a blacklist)) (added st) in
  let added :=
    extend_added blacklist added
      (iterate_associations assocs ADDED_ASSOCIATIONS_SECTION mimetype) in
  {| added := added; blacklist := blacklist |}.

(** The list [local_associations] built for the file at [path] from the
    merged state. *)
Definition local_associations (env : environment) (mimetype : string)
  (st : resolver_state) (path : string) : list string :=
  let dpath := Str.dirname path in
  let mimeinfo_cache_path := Str.path_join dpath MIMEINFO_CACHE_FILE in
  let mimeinfo_cache_assocs := get_associations env mimeinfo_cache_path in
  added st
  ++ filter (fun x => negb (mem_str x (blacklist st))
                      && negb (mem_str x (added st)))
       (iterate_associations mimeinfo_cache_assocs MIME_CACHE_SECTION mimetype).

(** The paths that one iteration yields. *)
Definition source_paths (env : environment) (path : string)
  (candidates : list string) : list string :=
  filter (path_exists env)
         (map (Str.path_join (Str.dirname path)) candidates).

(** The loop of [associated_desktop_paths] over the remaining files: the
    paths yielded and the state at the end. *)
Fixpoint resolve_from (env : environment) (mimetype : string)
  (st : resolver_state) (paths : list string)
  : list string * resolver_state :=
  match paths with
  | [] => ([], st)
  | path :: rest =>
      let st' := merge_source env mimetype st path in
      let out := source_paths env path
                   (local_associations env mimetype st' path) in
      let '(outs, final) := resolve_from env mimetype st' rest in
      (out ++ outs, final)
  end.

Definition initial_state : resolver_state :=
  {| added := []; blacklist := [] |}.

Definition associated_desktop_paths (env : environment) (mimetype : string)
  : list string :=
  fst (resolve_from env mimetype initial_state (mimeapps_list_paths env)).

Definition default_desktop_filenames (env : environment) (mimetype : string)
  : list string :=
  flat_map
    (fun path =>
       iterate_associations (get_associations env path)
         DEFAULT_APPLICATIONS_SECTION mimetype)
    (mimeapps_list_paths env).

(** The candidates of one form of the MIME-type, before the test on
    [only_existing]: the defaults in every application directory, then the
    associated paths. *)
Definition form_candidates (env : environment) (mimetype : string)
  : list string :=
  flat_map
    (fun d => map (fun dpath => Str.path_join dpath d)
                  (mimeapps_directories env))
    (default_desktop_filenames env mimetype)
  ++ associated_desktop_paths env mimetype.

(** The generator yields paths and, when nothing was found and
    [at_least_one] is set, [None].  The call to [strip_mimetype] comes
    first, so its exception is the outcome of the whole iteration. *)
Definition mimetype_to_desktop_filepaths (env : environment)
  (mimetype : string) (at_least_one first_only only_existing : bool)
  : result (list (option string)) :=
  stripped_mimetype <- strip_mimetype mimetype ;;
  let mimetypes :=
    if negb (String.eqb stripped_mimetype mimetype)
    then [mimetype; stripped_mimetype]
    else [mimetype] in
  let found :=
    filter (fun fpath => negb only_existing || path_exists env fpath)
           (flat_map (form_candidates env) mimetypes) in
  let yielded :=
    match found with
    | [] => if at_least_one then [None] else []
    | fpath :: rest =>
        if first_only then [Some fpath] else map Some found
    end in
  Return (unique_items opt_eqb yielded).

(** ** The standard library module [shlex] *)

Module Shlex.

(** The states of [shlex.read_token] that [shlex.split] can reach: between
    words, in a word, in a quotation opened by [q], and after a backslash
    met in a word or in a double quotation. *)
Inductive state : Type :=
| Between
| InWord
| InQuote (q : ascii)
| Escape (in_dquote : bool).

Definition is_whitespace (c : ascii) : bool :=
  Ascii.eqb c " "%char || Ascii.eqb c Str.tab
  || Ascii.eqb c Str.cr || Ascii.eqb c Str.nl.

Definition is_quote (c : ascii) : bool :=
  Ascii.eqb c Str.squote || Ascii.eqb c Str.dquote.

Definition push (token : string) (c : ascii) : string :=
  (token ++ String c EmptyString)%string.

(** The lexer in POSIX mode with [whitespace_split] set and no comment
    characters, as [shlex.split] configures it. *)
Fixpoint run (st : state) (token : string) (s : string)
  : result (list string) :=
  match s with
  | EmptyString =>
      match st with
      | Between => Return []
      | InWord => Return [token]
      | InQuote _ => Raise (ValueError "No closing quotation")
      | Escape _ => Raise (ValueError "No escaped character")
      end
  | String c r =>
      match st with
      | Between =>
          if is_whitespace c then run Between EmptyString r
          else if Ascii.eqb c Str.backslash then run (Escape false) token r
          else if is_quote c then run (InQuote c) token r
          else run InWord (String c EmptyString) r
      | InWord =>
          if is_whitespace c
          then ws <- run Between EmptyString r ;; Return (token :: ws)
          else if is_quote c then run (InQuote c) token r
          else if Ascii.eqb c Str.backslash then run (Escape false) token r
          else run InWord (push token c) r
      | InQuote q =>
          if Ascii.eqb c q then run InWord token r
          else if Ascii.eqb c Str.backslash && Ascii.eqb q Str.dquote
          then run (Escape true) token r
          else run (InQuote q) (push token c) r
      | Escape in_dquote =>
          if in_dquote
          then
            if negb (Ascii.eqb c Str.backslash) && negb (Ascii.eqb c Str.dquote)
            then run (InQuote Str.dquote) (push (push token Str.backslash) c) r
            else run (InQuote Str.dquote) (push token c) r
          else run InWord (push token c) r
      end
  end.

(** [shlex.split(s)]. *)
Definition split (s : string) : result (list string) :=
  run Between EmptyString s.

Definition is_safe (c : ascii) : bool :=
  let n := nat_of_ascii c in
  (((48 <=? n) && (n <=? 57)) || ((65 <=? n) && (n <=? 90))
   || ((97 <=? n) && (n <=? 122)))%nat
  || Str.mem c "_@%+=:,./-".

Fixpoint all_safe (s : string) : bool :=
  match s with
  | EmptyString => true
  | String c r => is_safe c && all_safe r
  end.

Definition SQ : string := String Str.squote EmptyString.
Definition DQ : string := String Str.dquote EmptyString.

(** [shlex.quote(s)]. *)
Definition quote (s : string) : string :=
  if Str.is_empty s then SQ ++ SQ
  else if all_safe s then s
  else SQ ++ Str.replace SQ (SQ ++ DQ ++ SQ ++ DQ ++ SQ) s ++ SQ.

End Shlex.

(** ** Building commands *)

Definition TERM_COMMAND_PLACEHOLDER : string := "%s".

(** The characters that make [exec_quote_exec] quote a word, and the
    characters that [exec_quote_word] escapes. *)
Definition EXEC_RESERVED : string :=
  String " " (String Str.tab (String Str.nl (String Str.dquote
    (String Str.squote (String Str.backslash "><~|&;$*?#()`"))))).

Definition EXEC_ESCAPED : string :=
  String Str.dquote (String "`" (String "$" (String Str.backslash ""))).

Definition quote_cmd (cmd : list string) : string :=
  Str.join " " (map Shlex.quote cmd).

(** The loop over the characters of a word of the terminal command: the
    word built so far and whether the last character was a percent sign. *)
Fixpoint interpolate_word (app_cmd_word : string) (iword : string)
  (escaped : bool) (word : string) : string :=
  match word with
  | EmptyString => iword
  | String c r =>
      if escaped
      then
        if Ascii.eqb c "s"%char
        then interpolate_word app_cmd_word (iword ++ app_cmd_word) false r
        else interpolate_word app_cmd_word (Shlex.push iword c) false r
      else if Ascii.eqb c "%"%char
      then interpolate_word app_cmd_word iword true r
      else interpolate_word app_cmd_word (Shlex.push iword c) false r
  end.

(** The words yielded for one word of the terminal command.  The source
    also sets a flag [seen] in the first two cases and never reads it. *)
Definition interpolate_term_word (app_cmd : list string) (word : string)
  : list string :=
  let app_cmd_word := quote_cmd app_cmd in
  if String.eqb word TERM_COMMAND_PLACEHOLDER then app_cmd
  else if String.eqb word (Shlex.SQ ++ TERM_COMMAND_PLACEHOLDER ++ Shlex.SQ)
  then [app_cmd_word]
  else [interpolate_word app_cmd_word EmptyString false word].

Definition interpolate_term_cmd (term_cmd : string) (app_cmd : list string)
  : result (list string) :=
  words <- Shlex.split term_cmd ;;
  Return (flat_map (interpolate_term_word app_cmd) words).

(** *** Writing a desktop entry *)

(** What [exec_quote_exec] yields: a word as it is, or the generator that
    the call of [exec_quote_word] returns, given by the strings that the
    generator would yield. *)
Inductive quoted_item : Type :=
| Word (w : string)
| Generator (yields : list string).

(** The strings that the generator [exec_quote_word(word)] yields.  The
    literal ['\\c'] of the source is a backslash followed by the letter c. *)
Definition exec_quote_word (word : string) : list string :=
  Shlex.DQ
  :: map (fun c : ascii =>
            if Str.mem c EXEC_ESCAPED
            then String Str.backslash "c"
            else String c EmptyString)
         (list_ascii_of_string word)
  ++ [Shlex.DQ].

(** The inner loop with its [else] clause: whether a reserved character
    occurs in the word. *)
Definition has_reserved (word : string) : bool :=
  existsb (fun c => Str.mem c word) (list_ascii_of_string EXEC_RESERVED).

Definition exec_quote_exec (cmd : list string) : list quoted_item :=
  map (fun word =>
         if has_reserved word
         then Generator
                (exec_quote_word
                   (Str.join ""
                      (map (fun c => String c EmptyString)
                           (list_ascii_of_string word))))
         else Word word)
      cmd.

(** [sep.join(items)]: every item has to be a [str]. *)
Fixpoint join_items (i : nat) (items : list quoted_item)
  : result (list string) :=
  match items with
  | [] => Return []
  | Word w :: r => ws <- join_items (S i) r ;; Return (w :: ws)
  | Generator _ :: _ => Raise (TypeError i)
  end.

Definition py_join (sep : string) (items : list quoted_item) : result string :=
  ws <- join_items 0 items ;; Return (Str.join sep ws).

(** The value that [create_desktop_entry] formats after [Exec=]. *)
Definition exec_value (cmd : list string) : result string :=
  py_join " " (exec_quote_exec cmd).

Definition NAME : string := "Mimeo".

(** The file is opened for writing before its text is formatted, so it is
    left empty when formatting raises. *)
Definition create_desktop_entry (fs : filesystem) (path name : string)
  (cmd mimetypes : list string) (is_term : bool)
  : filesystem * result unit :=
  if Str.truthy name && nonempty cmd && nonempty mimetypes
  then
    let term := if is_term then "true" else "false" in
    match exec_value cmd with
    | Return exec =>
        (fs_write fs path
           ("[Desktop Entry]" ++ NL
            ++ "Type=Application" ++ NL
            ++ "Name=" ++ name ++ NL
            ++ "Exec=" ++ exec ++ NL
            ++ "MimeType=" ++ Str.join ";" mimetypes ++ ";" ++ NL
            ++ "Terminal=" ++ term ++ NL
            ++ "NoDisplay=true" ++ NL
            ++ "Comment=Created by " ++ NAME ++ NL)%string,
         Return tt)
    | Raise e => (fs_write fs path "", Raise e)
    end
  else (fs, Raise (ValueError "create_desktop_entry: empty values")).

(** *** Field codes *)

(** The functions [ensure_path] and [ensure_url] rest on [urllib] and on
    the host name; they are taken from outside.  Both start with
    [urllib.parse.urlparse], which raises [ValueError] for an argument
    such as [http://[x]; [ensure_path] gives [None] for a URL that is not
    a local file. *)
Record externals : Type := {
  ensure_path : string -> result (option string);
  ensure_url : string -> result string
}.

(** The dictionary [field_codes] of [parse_field_codes]. *)
Definition field_codes (name : string) (path : option string)
  (f u : string) (c : ascii) : option string :=
  if Ascii.eqb c "%"%char then Some "%"
  else if Ascii.eqb c "c"%char then Some name
  else if Ascii.eqb c "k"%char
  then Some (if truthy_opt path then match path with Some p => p | None => "" end
             else "")
  else if Ascii.eqb c "f"%char then Some f
  else if Ascii.eqb c "u"%char then Some u
  else None.

(** The strings that [parse_unexpandable_field_codes] yields. *)
Fixpoint parse_unexpandable_field_codes (codes : ascii -> option string)
  (field_code : bool) (word : string) : list string :=
  match word with
  | EmptyString => []
  | String c r =>
      if field_code
      then match codes c with
           | Some v => v :: parse_unexpandable_field_codes codes false r
           | None => parse_unexpandable_field_codes codes false r
           end
      else if Ascii.eqb c "%"%char
      then parse_unexpandable_field_codes codes true r
      else String c EmptyString :: parse_unexpandable_field_codes codes false r
  end.

(** The body of the loop for [%F]: the path is yielded if it is neither
    [None] nor empty. *)
Definition path_if_any (p : option string) : list string :=
  match p with
  | Some s => if Str.truthy s then [s] else []
  | None => []
  end.

(** The values of the codes [%f] and [%u]: those of the first argument
    when there is one, the path first and then the URL. *)
Definition first_argument (ext : externals) (args : list string)
  : result (string * string) :=
  match args with
  | arg :: _ =>
      p <- ensure_path ext arg ;;
      u <- ensure_url ext arg ;;
      Return (match p with Some p => p | None => "" end, u)
  | [] => Return ("", "")
  end.

(** The strings that the generator [parse_field_codes] yields, or the
    exception that ends it. *)
Definition parse_field_codes (ext : externals) (word name : string)
  (args : list string) (icon path : option string) (omit_empty : bool)
  : result (list string) :=
  if String.eqb word "%i"
  then Return match icon with
              | Some i => if Str.truthy i then ["--icon"; i] else []
              | None => []
              end
  else if String.eqb word "%F"
  then
    ps <- map_result (fun a => p <- ensure_path ext a ;;
                               Return (path_if_any p)) args ;;
    Return (concat ps)
  else if String.eqb word "%U"
  then map_result (ensure_url ext) args
  else if (String.eqb word "%f" || String.eqb word "%u") && negb (nonempty args)
  then Return []
  else
    fu <- first_argument ext args ;;
    let interpolated_word :=
      Str.join ""
        (parse_unexpandable_field_codes
           (field_codes name path (fst fu) (snd fu)) false word)
    in
    if Str.truthy interpolated_word
       || negb omit_empty
       || negb (mem_str word ["%k"; "%f"; "%u"])
    then Return [interpolated_word]
    else Return [].

(** The loop over ['fuFU'] of [exec_field_to_cmds_without_term]: the codes
    that occur in the template once every doubled percent sign is taken
    out. *)
Definition exec_codes (exe : string) : list ascii :=
  let test_exe := Str.replace "%%" "" exe in
  filter (fun c => Str.contains (String "%" (String c EmptyString)) test_exe)
         (list_ascii_of_string "fuFU").

Definition is_single (codes : list ascii) : bool :=
  existsb (fun c => Str.mem c "fu") codes.

(** One command: the words of the template interpolated with [aa], one
    after the other. *)
Definition build_cmd (ext : externals) (name : string)
  (icon path : option string) (words aa : list string)
  : result (list string) :=
  ws <- map_result (fun w => parse_field_codes ext w name aa icon path false)
          words ;;
  Return (concat ws).

(** The commands that the generator yields, or the exception that ends
    it.  For more than one code the source evaluates
    [xdg.DesktopEntry.ValidationError]; the module [xdg.DesktopEntry] of
    pyxdg has no such attribute (the class is in [xdg.Exceptions]), so
    the lookup raises [AttributeError] before any exception is built. *)
Definition exec_field_to_cmds_without_term (ext : externals) (exe : string)
  (args : list string) (name : string) (icon path : option string)
  : result (list (list string)) :=
  let codes := exec_codes exe in
  if (1 <? List.length codes)%nat
  then Raise (AttributeError "xdg.DesktopEntry" "ValidationError")
  else
    words <- Shlex.split exe ;;
    let argss :=
      if negb (nonempty args) then [[]]
      else if is_single codes then map (fun a => [a]) args
      else [args] in
    map_result (build_cmd ext name icon path words) argss.

(** [exec_field_to_cmds], for the commands of a template that
    interpolates without an exception. *)
Fixpoint wrap_cmds (is_term : bool) (term_cmd : option string)
  (cmds : list (list string)) : result (list (list string)) :=
  match cmds with
  | [] => Return []
  | app_cmd :: rest =>
      cmd <- (match term_cmd with
              | Some t =>
                  if is_term && Str.truthy t
                  then interpolate_term_cmd t app_cmd
                  else Return app_cmd
              | None => Return app_cmd
              end) ;;
      cmds' <- wrap_cmds is_term term_cmd rest ;;
      Return (cmd :: cmds')
  end.

Definition exec_field_to_cmds (ext : externals) (exe : string)
  (args : list string) (name : string) (icon path : option string)
  (is_term : bool) (term_cmd : option string) : result (list (list string)) :=
  cmds <- exec_field_to_cmds_without_term ext exe args name icon path ;;
  wrap_cmds is_term term_cmd cmds.

(** Arguments that are absolute local paths without characters that a
    URL has to quote: the path is the argument and the URL puts the file
    scheme before it. *)
Definition local_paths : externals :=
  {| ensure_path := fun a => Return (Some a);
     ensure_url := fun a => Return ("file://" ++ a)%string |}.

(** ** Sample data *)

Definition sample_added : table :=
  [(Some "Added Associations",
    [("text/plain", ["a.desktop"; "b.desktop"])])].

Definition sample_added_vim : table :=
  [(Some "Added Associations",
    [("text/plain", ["a.desktop"; "vim.desktop"; "b.desktop"])])].

(** ** The lines of an association file *)

(** What a line of an association file is to [parse_associations]: a line
    that changes nothing (blank, comment, without an equals sign, or
    without a value), a section header, or an entry with its key and its
    list of values, which is not empty. *)
Inductive line_kind : Type :=
| Ignored
| Header (section : string)
| Entry (key : string) (desktops : list string).

Definition classify (line : string) : line_kind :=
  let line := Str.strip line in
  match Str.first line, Str.last line with
  | Some a, Some b =>
      if Ascii.eqb a "#"%char then Ignored
      else if Ascii.eqb a "["%char && Ascii.eqb b "]"%char
      then Header (Str.init (Str.tail line))
      else
        match Str.split1 "=" line with
        | Some (mimetype, desktops) =>
            match parse_desktops desktops with
            | [] => Ignored
            | d :: ds => Entry (Str.rstrip mimetype) (d :: ds)
            end
        | None => Ignored
        end
  | _, _ => Ignored
  end.

(** An entry of a file: the section in force, the key and the values. *)
Definition file_entry : Type := (option string * string * list string)%type.

(** The entries of a file in the order of their lines, starting in the
    section [section]. *)
Fixpoint entries_from (section : option string) (lines : list string)
  : list file_entry :=
  match lines with
  | [] => []
  | line :: rest =>
      match classify line with
      | Ignored => entries_from section rest
      | Header s => entries_from (Some s) rest
      | Entry key desktops =>
          (section, key, desktops) :: entries_from section rest
      end
  end.

Definition file_entries (lines : list string) : list file_entry :=
  entries_from None lines.

(** The values of the last entry for the section and the key. *)
Definition last_value (l : list file_entry) (section : option string)
  (key : string) : option (list string) :=
  fold_left
    (fun acc (e : file_entry) =>
       let '(s, k, desktops) := e in
       if opt_eqb s section && String.eqb k key then Some desktops else acc)
    l None.

(** The assignment [associations[section][mimetype] = desktops] with its
    handler for a missing section. *)
Definition store (associations : table) (e : file_entry) : table :=
  let '(section, mimetype, desktops) := e in
  match get_section associations section with
  | Some en =>
      Dict.set opt_eqb associations section
               (Dict.set String.eqb en mimetype desktops)
  | None => Dict.set opt_eqb associations section [(mimetype, desktops)]
  end.

Definition sample_lines : list string :=
  ["[Added Associations]";
   "text/plain=a.desktop;b.desktop;";
   "image/png=gimp.desktop;";
   "[Removed Associations]";
   "text/plain=x.desktop;";
   "[Added Associations]";
   "text/plain = /usr/share/applications/vim.desktop;";
   "text/html=firefox.desktop;";
   "text/plain=;"].

(** ** Tables that a file can hold *)

(** The conditions under which a section name, a key and a value written
    by [save_associations] are read back by [parse_associations] as they
    were: no line break inside; a key has no equals sign, no white space
    at its ends and no number sign at its start; a value is not empty and
    has no semicolon, no slash and no white space at its ends. *)
Definition no_newline (s : string) : bool :=
  negb (Str.mem Str.nl s) && negb (Str.mem Str.cr s).

Definition trimmed (s : string) : bool := String.eqb (Str.strip s) s.

Definition key_ok (k : string) : bool :=
  no_newline k && negb (Str.mem "=" k) && trimmed k
  && negb (Str.startswith "#" k).

Definition value_ok (v : string) : bool :=
  Str.truthy v && no_newline v && negb (Str.mem ";" v)
  && negb (Str.mem "/" v) && trimmed v.

Definition section_ok (s : option string) : bool :=
  match s with
  | Some s => no_newline s
  | None => false
  end.

Definition entry_ok (kv : string * list string) : bool :=
  key_ok (fst kv) && forallb value_ok (snd kv).

Definition table_ok (t : table) : bool :=
  forallb (fun se : option string * entries =>
             section_ok (fst se) && forallb entry_ok (snd se))
          t.

(** A dictionary holds a key once. *)
Definition dict_wf (t : table) : Prop :=
  NoDup (Dict.keys t)
  /\ Forall (fun se : option string * entries => NoDup (Dict.keys (snd se))) t.

(** The table without its empty entries and sections, the keys of each
    section in sorted order. *)
Definition normalized (t : table) : table :=
  map (fun se : option string * entries => (fst se, sorted (snd se)))
      (remove_empty_associations t).

(** The lines that [save_associations] writes for a section. *)
Definition section_lines (se : option string * entries) : list string :=
  format_section (fst se)
  :: map format_entry
       (filter (fun kv : string * list string => nonempty (snd kv))
               (sorted (snd se))).

(** The entries of a table in the order of the table. *)
Definition flatten (t : table) : list file_entry :=
  flat_map (fun se : option string * entries =>
              map (fun kv : string * list string => (fst se, fst kv, snd kv))
                  (snd se))
           t.

Definition sample_table : table :=
  [(Some "Default Applications", [("text/plain", [])]);
   (Some "Added Associations",
    [("text/plain", ["vim.desktop"; "emacs.desktop"]);
     ("image/png", ["gimp.desktop"]);
     ("audio/ogg", [])]);
   (Some "Removed Associations", [("text/html", ["lynx.desktop"])])].

Definition sample_parameter_table : table :=
  [(Some "Added Associations",
    [("text/plain;charset=utf-8", ["vim.desktop"])])].

Definition no_files : filesystem := fun _ => None.

(** A line as [save_associations] writes it: text without a line break,
    then a line feed. *)
Definition is_line (l : string) : Prop :=
  exists a, l = (a ++ NL)%string /\ no_newline a = true.

(** What pruning leaves of a section: some entry, every entry with a
    value, every key once. *)
Definition pruned_section (se : option string * entries) : Prop :=
  nonempty (snd se) = true
  /\ forallb (fun kv : string * list string => nonempty (snd kv)) (snd se)
     = true
  /\ NoDup (Dict.keys (snd se)).

(** ** The candidates of each association file *)

(** The list [local_associations] of every iteration of the loop of
    [associated_desktop_paths], with the path of its file. *)
Fixpoint candidates_from (env : environment) (mimetype : string)
  (st : resolver_state) (paths : list string)
  : list (string * list string) :=
  match paths with
  | [] => []
  | path :: rest =>
      let st' := merge_source env mimetype st path in
      (path, local_associations env mimetype st' path)
      :: candidates_from env mimetype st' rest
  end.

Definition candidates (env : environment) (mimetype : string)
  : list (string * list string) :=
  candidates_from env mimetype initial_state (mimeapps_list_paths env).

(** The variables [added] and [blacklist] when the loop ends. *)
Definition final_state (env : environment) (mimetype : string)
  : resolver_state :=
  snd (resolve_from env mimetype initial_state (mimeapps_list_paths env)).

(** Two association files: the first adds [vim.desktop] for [text/plain],
    the second removes it; the desktop file is in the directory of the
    first. *)
Definition sample_env : environment :=
  {| mimeapps_list_paths :=
       ["/usr/local/share/applications/mimeapps.list";
        "/usr/share/applications/mimeapps.list"];
     mimeapps_directories :=
       ["/usr/local/share/applications"; "/usr/share/applications"];
     get_associations := fun path =>
       if String.eqb path "/usr/local/share/applications/mimeapps.list"
       then [(Some "Added Associations", [("text/plain", ["vim.desktop"])])]
       else if String.eqb path "/usr/share/applications/mimeapps.list"
       then [(Some "Removed Associations", [("text/plain", ["vim.desktop"])])]
       else [];
     path_exists :=
       String.eqb "/usr/local/share/applications/vim.desktop" |}.

(** The same two files in the other order: removed first, added later. *)
Definition sample_env_reversed : environment :=
  {| mimeapps_list_paths :=
       ["/usr/share/applications/mimeapps.list";
        "/usr/local/share/applications/mimeapps.list"];
     mimeapps_directories := mimeapps_directories sample_env;
     get_associations := get_associations sample_env;
     path_exists := path_exists sample_env |}.

(** A template with an opening double quotation mark that is never
    closed. *)
Definition unbalanced_exec : string :=
  ("app " ++ Shlex.DQ ++ "%f")%string.

(** ** Invariants of a table *)

(** The invariant of the data model: no key is bound to an empty list and
    no list holds a desktop identifier twice. *)
Definition lists_ok (t : table) : Prop :=
  forall section key l,
    lookup t section key = Some l -> l <> [] /\ NoDup l.

Definition sample_defaults : table :=
  [(Some "Default Applications",
    [("text/plain", ["vim.desktop"; "emacs.desktop"]);
     ("image/png", ["gimp.desktop"])]);
   (Some "Added Associations", [("text/plain", ["nano.desktop"])])].

(** A test that is enough for [lists_ok]. *)
Fixpoint nodupb (l : list string) : bool :=
  match l with
  | [] => true
  | x :: r => negb (mem_str x r) && nodupb r
  end.

Definition lists_okb (t : table) : bool :=
  forallb (fun se : option string * entries =>
             forallb (fun kv : string * list string =>
                        nonempty (snd kv) && nodupb (snd kv))
                     (snd se))
          t.

(** Whether the items are in the order of [item_leb]. *)
Fixpoint is_sorted (l : entries) : bool :=
  match l with
  | [] => true
  | x :: r =>
      match r with
      | [] => true
      | y :: _ => item_leb x y && is_sorted r
      end
  end.

(** ** Collecting pairs *)

Definition swap_a_and_b {A B : Type} (itr : list (A * B)) : list (B * A) :=
  map (fun ab : A * B => (snd ab, fst ab)) itr.

(** One iteration of the loop of [collect_b_by_a]: [b] is appended to the
    list of [a] unless [unique_b] is set and the list has it; a missing
    key gets the list with [b] alone. *)
Definition collect_step {A B : Type} (eqa : A -> A -> bool)
  (eqb : B -> B -> bool) (unique_b : bool) (b_by_a : list (A * list B))
  (ab : A * B) : list (A * list B) :=
  let '(a, b) := ab in
  match Dict.get eqa b_by_a a with
  | Some bs =>
      if negb unique_b || negb (existsb (eqb b) bs)
      then Dict.set eqa b_by_a a (bs ++ [b])
      else b_by_a
  | None => Dict.set eqa b_by_a a [b]
  end.

(** Both kinds of dictionary that [preserve_order] chooses between keep
    their keys in insertion order. *)
Definition collect_b_by_a {A B : Type} (eqa : A -> A -> bool)
  (eqb : B -> B -> bool) (itr : list (A * B)) (unique_b : bool)
  : list (A * list B) :=
  fold_left (collect_step eqa eqb unique_b) itr [].

(** The second items that come with the first item [a], in their order. *)
Definition bs_of {A B : Type} (eqa : A -> A -> bool) (a : A)
  (itr : list (A * B)) : list B :=
  map snd (filter (fun ab : A * B => eqa a (fst ab)) itr).

(** ** Names of desktop files *)

Definition DESKTOP_EXTENSION : string := ".desktop".


Definition ensure_desktop_name (a : string) : string :=
  let a := Str.basename a in
  if Str.endswith DESKTOP_EXTENSION a then a
  else (a ++ DESKTOP_EXTENSION)%string.

Definition ensure_desktop_names (args : list string) : list string :=
  map ensure_desktop_name args.

(** The items that one key of [collect_b_by_a] gathers after the list
    [seen]. *)
Definition gathered {B : Type} (eqb : B -> B -> bool) (unique_b : bool)
  (seen l : list B) : list B :=
  if unique_b then unique_from eqb seen l else l.

(** ** Putting a MIME-type together *)

(** The string that has the given components. *)
Definition unparse_mimetype (p : mimetype_parts) : string :=
  let '(type_name, tree, subtype_name, suffix, parameters) := p in
  (type_name ++ "/"
   ++ match tree with Some t => t ++ "." | None => "" end
   ++ subtype_name
   ++ match suffix with Some x => "+" ++ x | None => "" end
   ++ match parameters with Some q => ";" ++ q | None => "" end)%string.

Definition opt_mem (c : ascii) (o : option string) : bool :=
  match o with
  | Some s => Str.mem c s
  | None => false
  end.

(** ** Escaping *)

(** The word with every percent sign doubled. *)
Fixpoint escape_percent (w : string) : string :=
  match w with
  | EmptyString => EmptyString
  | String c r =>
      if Ascii.eqb c "%"%char then String "%" (String "%" (escape_percent r))
      else String c (escape_percent r)
  end.

(** The text that [shlex.quote] puts for each character between the
    single quotation marks. *)
Fixpoint quote_body (s : string) : string :=
  match s with
  | EmptyString => EmptyString
  | String c r =>
      if Ascii.eqb c Str.squote
      then (Shlex.SQ ++ Shlex.DQ ++ Shlex.SQ ++ Shlex.DQ ++ Shlex.SQ
            ++ quote_body r)%string
      else String c (quote_body r)
  end.

(** ** Modifying the associations of the user *)

(** The sections that each operation of [modify_associations] works on. *)
Definition ASSOCIATION_ADDERS : list (string * list string) :=
  [("add", [ADDED_ASSOCIATIONS_SECTION]);
   ("remove", [REMOVED_ASSOCIATIONS_SECTION]);
   ("prefer", [DEFAULT_APPLICATIONS_SECTION])].

Definition ASSOCIATION_REMOVERS : list (string * list string) :=
  [("unadd", [ADDED_ASSOCIATIONS_SECTION]);
   ("unremove", [REMOVED_ASSOCIATIONS_SECTION]);
   ("unprefer", [DEFAULT_APPLICATIONS_SECTION]);
   ("clear", [ADDED_ASSOCIATIONS_SECTION; REMOVED_ASSOCIATIONS_SECTION;
              DEFAULT_APPLICATIONS_SECTION])].

(** [itertools.product] of two and of three sequences: the last one
    advances first. *)
Definition product2 {A B : Type} (xs : list A) (ys : list B) : list (A * B) :=
  flat_map (fun x => map (fun y => (x, y)) ys) xs.

Definition product3 {A B C : Type} (xs : list A) (ys : list B) (zs : list C)
  : list (A * B * C) :=
  flat_map (fun x => flat_map (fun y => map (fun z => (x, y, z)) zs) ys) xs.

(** The desktop names in the order in which the loops of
    [modify_associations] go through them: as they are given when there
    is a matcher; without a matcher the names are put into a [set], whose
    order of iteration [set_iter] is taken from outside. *)
Definition iterated_desktops (set_iter : list string -> list string)
  (matcher : bool) (desktops : list string) : list string :=
  if matcher then desktops
  else if nonempty desktops then set_iter desktops
  else desktops.

(** The table that [modify_associations] saves, from the table that it has
    loaded.  [matcher] says whether a matcher is given; [mimetypes] are
    the MIME-types that the method has found from its matcher or, without
    a matcher, from the desktop entries of the names, in the order in
    which it goes through them; [desktops] are the desktop names, the
    empty list when none is given.  Without a matcher and without names
    the variable [mimetypes] is not assigned, and reading it raises.  An
    operation that is in neither dictionary changes nothing. *)
Definition modify_associations (set_iter : list string -> list string)
  (op : string) (matcher : bool) (mimetypes desktops : list string)
  (assocs : table) : result table :=
  let bound := matcher || nonempty desktops in
  let desktops := iterated_desktops set_iter matcher desktops in
  match Dict.get String.eqb ASSOCIATION_ADDERS op with
  | Some sections =>
      if nonempty desktops
      then Return
             (fold_left
                (fun t (smd : string * string * string) =>
                   let '(s, m, d) := smd in add_association t (Some s) m d)
                (product3 sections mimetypes desktops) assocs)
      else Return assocs
  | None =>
      match Dict.get String.eqb ASSOCIATION_REMOVERS op with
      | Some sections =>
          if nonempty desktops
          then Return
                 (fold_left
                    (fun t (smd : string * string * string) =>
                       let '(s, m, d) := smd in
                       remove_association t (Some s) m (Some d))
                    (product3 sections mimetypes desktops) assocs)
          else if bound
          then Return
                 (fold_left
                    (fun t (sm : string * string) =>
                       let '(s, m) := sm in
                       remove_association t (Some s) m None)
                    (product2 sections mimetypes) assocs)
          else Raise (UnboundLocalError "mimetypes")
      | None => Return assocs
      end
  end.

(** The list that a key has after the values [ds] have been added to it
    one after the other. *)
Definition promoted (ds old : list string) : list string :=
  unique_items String.eqb (rev ds)
  ++ filter (fun x => negb (mem_str x ds)) old.


(** ** The paths of the association files *)

Module Xdg.

(** [c.lower()] for a character below 256: the letters A to Z and the
    capital letters of Latin-1 move up by 32. *)
Definition lower_char (c : ascii) : ascii :=
  let n := nat_of_ascii c in
  if (((65 <=? n) && (n <=? 90)) || ((192 <=? n) && (n <=? 214))
      || ((216 <=? n) && (n <=? 222)))%nat
  then ascii_of_nat (n + 32) else c.

(** [s.lower()]. *)
Fixpoint lower (s : string) : string :=
  match s with
  | EmptyString => EmptyString
  | String c r => String (lower_char c) (lower r)
  end.

Definition MIMEAPPS_LIST_FILE : string := "mimeapps.list".
Definition APP_DIR : string := "applications".

(** What the functions read from [xdg.BaseDirectory] and from the
    environment variable [XDG_CURRENT_DESKTOP] ([None] when it is not
    set). *)
Record base_directory : Type := {
  xdg_config_home : string;
  xdg_config_dirs : list string;
  xdg_data_home : string;
  xdg_data_dirs : list string;
  current_desktop_variable : option string
}.

Definition desktop_mimeapps_filenames (bd : base_directory) : list string :=
  match current_desktop_variable bd with
  | Some desktop =>
      if Str.truthy desktop
      then map (fun d => (lower d ++ "-" ++ MIMEAPPS_LIST_FILE)%string)
               (Str.split ":" desktop)
      else []
  | None => []
  end.

(** The groups of directories, in their order of precedence. *)
Definition mimeapps_directories (bd : base_directory)
  (user system include_user_app_dir : bool) : list (list string) :=
  let config_home := xdg_config_home bd in
  let data_home := xdg_data_home bd in
  (if user then [[config_home]] else [])
  ++ (if system
      then [filter (fun d => negb (String.eqb d config_home))
                   (xdg_config_dirs bd)]
      else [])
  ++ (if user && include_user_app_dir
      then [[Str.path_join data_home APP_DIR]] else [])
  ++ (if system
      then [map (fun d => Str.path_join d APP_DIR)
                (filter (fun d => negb (String.eqb d data_home))
                        (xdg_data_dirs bd))]
      else []).

Definition mimeapps_list_paths (bd : base_directory)
  (current_desktop user system include_user_app_dir : bool) : list string :=
  let dmals := desktop_mimeapps_filenames bd in
  flat_map
    (fun ds =>
       (if current_desktop && nonempty dmals
        then flat_map (fun dmal => map (fun d => Str.path_join d dmal) ds)
                      dmals
        else [])
       ++ map (fun d => Str.path_join d MIMEAPPS_LIST_FILE) ds)
    (mimeapps_directories bd user system include_user_app_dir).

Definition user_mimeapps_path (bd : base_directory) (current_desktop : bool)
  : string :=
  let name :=
    if current_desktop
    then match desktop_mimeapps_filenames bd with
         | n :: _ => n
         | [] => MIMEAPPS_LIST_FILE
         end
    else MIMEAPPS_LIST_FILE in
  Str.path_join (xdg_config_home bd) name.

End Xdg.


(** ** Custom associations *)

(** The inner loop of [args_to_custom_cmds] for the argument [a]: the
    pairs yielded and the flag [found_one] at the end.  With [first_only]
    the loop is left at the first match, before the flag is set. *)
Fixpoint custom_cmds_of {R : Type} (search : R -> string -> bool)
  (first_only : bool) (a : string) (mimeo_assocs : list (R * string))
  (found_one : bool) : list (option (string * string)) * bool :=
  match mimeo_assocs with
  | [] => ([], found_one)
  | (regex, cmd) :: rest =>
      if search regex a
      then
        if first_only then ([Some (a, cmd)], found_one)
        else
          let '(items, found) :=
            custom_cmds_of search first_only a rest true in
          (Some (a, cmd) :: items, found)
      else custom_cmds_of search first_only a rest found_one
  end.

(** What [args_to_custom_cmds] yields: pairs of an argument and a command,
    and [None].  [search regex a] says whether [regex.search(a)] finds a
    match. *)
Definition args_to_custom_cmds {R : Type} (search : R -> string -> bool)
  (mimeo_assocs : list (R * string)) (args : list string)
  (at_least_one first_only : bool) : list (option (string * string)) :=
  flat_map
    (fun a =>
       let '(items, found_one) :=
         custom_cmds_of search first_only a mimeo_assocs false in
       items ++ (if negb found_one && at_least_one then [None] else []))
    args.

(** The commands of the associations whose pattern is found in [a]. *)
Definition matching_cmds {R : Type} (search : R -> string -> bool)
  (mimeo_assocs : list (R * string)) (a : string) : list string :=
  map snd (filter (fun rc => search (fst rc) a) mimeo_assocs).


(** A word that [shlex.split] reads as it is written: it has no white
    space, no quotation mark and no backslash. *)
Definition plain_char (c : ascii) : bool :=
  negb (Shlex.is_whitespace c || Shlex.is_quote c
        || Ascii.eqb c Str.backslash).

Fixpoint plain_word (w : string) : bool :=
  match w with
  | EmptyString => true
  | String c r => plain_char c && plain_word r
  end.




(** ** Field codes, as a template is read *)

(** Following the words of the specification: a template is read from
    left to right; a percent sign and the character after it are a field
    code, and a doubled percent sign is a literal percent sign, not a
    code.  The characters of the field codes of a template, in their
    order. *)
Fixpoint template_codes (after_percent : bool) (exe : string) : list ascii :=
  match exe with
  | EmptyString => []
  | String c r =>
      if after_percent
      then
        if Ascii.eqb c "%"%char then template_codes false r
        else c :: template_codes false r
      else if Ascii.eqb c "%"%char then template_codes true r
      else template_codes false r
  end.

(** The codes among [%f], [%u], [%F] and [%U] that the template has. *)
Definition argument_codes (exe : string) : list ascii :=
  filter (fun c => existsb (Ascii.eqb c) (template_codes false exe))
         (list_ascii_of_string "fuFU").

(** The text that stands for [%f]: the path, or nothing when the
    argument has no local path. *)
Definition path_text (p : option string) : string :=
  match p with
  | Some p => p
  | None => EmptyString
  end.

(** An [ensure_path] and [ensure_url] that reject one argument, as
    [urllib.parse.urlparse] rejects a host with an open bracket. *)
Definition strict_urls : externals :=
  {| ensure_path := fun a =>
       if String.eqb a "http://[x" then Raise (ValueError "Invalid IPv6 URL")
       else Return (Some a);
     ensure_url := fun a =>
       if String.eqb a "http://[x" then Raise (ValueError "Invalid IPv6 URL")
       else Return ("file://" ++ a)%string |}.


(** The identifiers that the files at [paths] add for the MIME-type, and
    those that they remove, in the order of the files and of their
    lines. *)
Definition added_by (env : environment) (mimetype : string)
  (paths : list string) : list string :=
  flat_map
    (fun p => iterate_associations (get_associations env p)
                ADDED_ASSOCIATIONS_SECTION mimetype) paths.

Definition removed_by (env : environment) (mimetype : string)
  (paths : list string) : list string :=
  flat_map
    (fun p => iterate_associations (get_associations env p)
                REMOVED_ASSOCIATIONS_SECTION mimetype) paths.

(** One association file that adds two editors for [text/plain], and the
    cache of its directory, which lists a third one and one of the two. *)
Definition cache_env : environment :=
  {| mimeapps_list_paths := ["/usr/share/applications/mimeapps.list"];
     mimeapps_directories := ["/usr/share/applications"];
     get_associations := fun path =>
       if String.eqb path "/usr/share/applications/mimeapps.list"
       then [(Some "Added Associations",
              [("text/plain", ["vim.desktop"; "nano.desktop"])])]
       else if String.eqb path "/usr/share/applications/mimeinfo.cache"
       then [(Some "MIME Cache",
              [("text/plain", ["emacs.desktop"; "vim.desktop"])])]
       else [];
     path_exists := fun _ => true |}.


(** Two association files in one directory: the file of the desktop adds
    [vim.desktop] for [text/plain], the general file removes it. *)
Definition shared_dir_env : environment :=
  {| mimeapps_list_paths :=
       ["/etc/xdg/gnome-mimeapps.list"; "/etc/xdg/mimeapps.list"];
     mimeapps_directories := ["/usr/share/applications"];
     get_associations := fun path =>
       if String.eqb path "/etc/xdg/gnome-mimeapps.list"
       then [(Some "Added Associations", [("text/plain", ["vim.desktop"])])]
       else if String.eqb path "/etc/xdg/mimeapps.list"
       then [(Some "Removed Associations", [("text/plain", ["vim.desktop"])])]
       else [];
     path_exists := String.eqb "/etc/xdg/vim.desktop" |}.


(** ** An association file, as the format reads it *)

(** Following the words of the claim: the values of an entry line are the
    pieces of the text after the equals sign that stand between
    semicolons and are not empty.  [cur] is the piece that is being
    read. *)
Fixpoint value_pieces (cur text : string) : list string :=
  match text with
  | EmptyString => if Str.is_empty cur then [] else [cur]
  | String c r =>
      if Ascii.eqb c ";"%char
      then if Str.is_empty cur then value_pieces EmptyString r
           else cur :: value_pieces EmptyString r
      else value_pieces (cur ++ String c EmptyString) r
  end.

(** The value list of an entry line: each piece without the white space
    around it and without its directories. *)
Definition value_list (text : string) : list string :=
  map (fun v => Str.basename (Str.strip v)) (value_pieces EmptyString text).

(** What a line of an association file is, once the white space around
    it is taken away: blank, a comment, the header of a section, an entry
    with its key and its value list (which may be empty), or something
    else. *)
Inductive line_reading : Type :=
| BlankLine
| CommentLine
| SectionHeader (name : string)
| EntryLine (key : string) (values : list string)
| OtherLine.

Definition read_line (line : string) : line_reading :=
  match Str.strip line with
  | EmptyString => BlankLine
  | String c r =>
      if Ascii.eqb c "#"%char then CommentLine
      else if Ascii.eqb c "["%char
              && match Str.last (String c r) with
                 | Some b => Ascii.eqb b "]"%char
                 | None => false
                 end
      then SectionHeader (Str.init r)
      else
        match Str.split1 "=" (String c r) with
        | Some (key, text) => EntryLine (Str.rstrip key) (value_list text)
        | None => OtherLine
        end
  end.

(** The section in force after the lines, [current] being in force before
    them: the name of the last header. *)
Fixpoint section_after (current : option string) (lines : list string)
  : option string :=
  match lines with
  | [] => current
  | line :: rest =>
      match read_line line with
      | SectionHeader name => section_after (Some name) rest
      | _ => section_after current rest
      end
  end.

(** A file in which the last line for a key has a value of white space
    only. *)
Definition blank_value_lines : list string :=
  ["[Added Associations]"; "text/plain=a.desktop;"; "text/plain= ;"].


(** * Properties *)

Example strip_ex : Str.strip "  a b	 " = "a b".
Proof. reflexivity. Qed.

Example split_ex : Str.split ";" "a;b;;" = ["a"; "b"; ""; ""].
Proof. reflexivity. Qed.

Example split1_ex : Str.split1 "=" "k=a=b" = Some ("k", "a=b").
Proof. reflexivity. Qed.

Example rsplit1_ex : Str.rsplit1 ";" "a;b;c" = Some ("a;b", "c").
Proof. reflexivity. Qed.

Example replace_ex : Str.replace "%%" "" "a %%%f %%" = "a %f ".
Proof. reflexivity. Qed.

Example basename_ex : Str.basename "/usr/share/x.desktop" = "x.desktop".
Proof. reflexivity. Qed.

Example dirname_ex :
  Str.dirname "/etc/xdg/mimeapps.list" = "/etc/xdg"
  /\ Str.dirname "/x" = "/" /\ Str.dirname "x" = "".
Proof. repeat split. Qed.

Example path_join_ex :
  Str.path_join "/etc/xdg" "a.desktop" = "/etc/xdg/a.desktop"
  /\ Str.path_join "/etc" "/a" = "/a" /\ Str.path_join "" "a" = "a".
Proof. repeat split. Qed.

(** ** Dictionaries *)

Section DictFacts.
Variables K V : Type.
Variable eqb : K -> K -> bool.
Hypothesis eqb_spec : forall a b, reflect (a = b) (eqb a b).

Lemma eqb_refl_of_spec (k : K) : eqb k k = true.
Proof. destruct (eqb_spec k k); congruence. Qed.

Lemma dict_get_set_same (d : list (K * V)) k v :
  Dict.get eqb (Dict.set eqb d k v) k = Some v.
Proof.
  induction d as [|[k' v'] d IH]; simpl.
  - now rewrite eqb_refl_of_spec.
  - destruct (eqb_spec k k') as [->|Hne]; simpl.
    + now rewrite eqb_refl_of_spec.
    + destruct (eqb_spec k k'); [contradiction|exact IH].
Qed.

Lemma dict_get_set_other (d : list (K * V)) k k' v :
  k' <> k -> Dict.get eqb (Dict.set eqb d k v) k' = Dict.get eqb d k'.
Proof.
  intros Hne. induction d as [|[k0 v0] d IH]; simpl.
  - destruct (eqb_spec k' k); [contradiction|reflexivity].
  - destruct (eqb_spec k k0) as [->|Hk]; simpl.
    + destruct (eqb_spec k' k0); [contradiction|reflexivity].
    + destruct (eqb_spec k' k0); [reflexivity|exact IH].
Qed.

Lemma dict_set_set (d : list (K * V)) k v v' :
  Dict.set eqb (Dict.set eqb d k v) k v' = Dict.set eqb d k v'.
Proof.
  induction d as [|[k0 v0] d IH]; simpl.
  - now rewrite eqb_refl_of_spec.
  - destruct (eqb_spec k k0) as [->|Hk]; simpl.
    + now rewrite eqb_refl_of_spec.
    + destruct (eqb_spec k k0); [contradiction|now rewrite IH].
Qed.

Lemma dict_get_none_notin (d : list (K * V)) k :
  Dict.get eqb d k = None <-> ~ In k (Dict.keys d).
Proof.
  induction d as [|[k0 v0] d IH]; simpl.
  - tauto.
  - destruct (eqb_spec k k0) as [->|Hk].
    + split; [discriminate|]. intros H. exfalso. apply H. now left.
    + rewrite IH. split.
      * intros H [E|E]; [congruence|contradiction].
      * intros H E. apply H. now right.
Qed.

Lemma dict_get_del_same (d : list (K * V)) k :
  NoDup (Dict.keys d) -> Dict.get eqb (Dict.del eqb d k) k = None.
Proof.
  induction d as [|[k0 v0] d IH]; simpl; intros Hnd; [reflexivity|].
  inversion Hnd as [|? ? Hin Hnd']; subst.
  destruct (eqb_spec k k0) as [->|Hk]; simpl.
  - now apply dict_get_none_notin.
  - destruct (eqb_spec k k0); [contradiction|]. now apply IH.
Qed.

Lemma dict_set_absent (d : list (K * V)) k v :
  Dict.get eqb d k = None -> Dict.set eqb d k v = d ++ [(k, v)].
Proof.
  induction d as [|[k0 v0] d IH]; simpl; [reflexivity|].
  destruct (eqb_spec k k0); [discriminate|].
  intros H. now rewrite IH.
Qed.

Lemma dict_keys_set_present (d : list (K * V)) k v v0 :
  Dict.get eqb d k = Some v0 -> Dict.keys (Dict.set eqb d k v) = Dict.keys d.
Proof.
  induction d as [|[k0 v1] d IH]; simpl; [discriminate|].
  destruct (eqb_spec k k0); simpl; [reflexivity|].
  intros H. unfold Dict.keys in *. simpl. f_equal. now apply IH.
Qed.
End DictFacts.

Arguments dict_get_set_same {K V eqb} eqb_spec d k v.
Arguments dict_get_set_other {K V eqb} eqb_spec d k k' v.
Arguments dict_set_set {K V eqb} eqb_spec d k v v'.
Arguments dict_get_del_same {K V eqb} eqb_spec d k.
Arguments dict_get_none_notin {K V eqb} eqb_spec d k.
Arguments dict_set_absent {K V eqb} eqb_spec d k v.
Arguments dict_keys_set_present {K V eqb} eqb_spec d k v v0.

Lemma opt_eqb_spec (a b : option string) : reflect (a = b) (opt_eqb a b).
Proof.
  destruct a as [x|], b as [y|]; simpl; try (constructor; congruence).
  destruct (String.eqb_spec x y); constructor; congruence.
Qed.

Lemma lookup_set_same (assocs : table) section (e : entries) key :
  lookup (Dict.set opt_eqb assocs section e) section key = get_key e key.
Proof.
  unfold lookup, get_section.
  now rewrite (dict_get_set_same opt_eqb_spec).
Qed.

Lemma lookup_set_other (assocs : table) section section' (e : entries) key :
  section' <> section ->
  lookup (Dict.set opt_eqb assocs section e) section' key
  = lookup assocs section' key.
Proof.
  intros Hne. unfold lookup, get_section.
  now rewrite (dict_get_set_other opt_eqb_spec).
Qed.

(** ** Adding and removing associations *)

Lemma truthy_nonempty (s : string) : Str.truthy s = true <-> s <> "".
Proof.
  destruct s; simpl; split; intros H; try discriminate; try reflexivity.
  now elim H.
Qed.

Lemma filter_neq_notin (v : string) (l : list string) :
  ~ In v (filter (fun x => negb (String.eqb x v)) l).
Proof.
  intros H. apply filter_In in H. destruct H as [_ H].
  now rewrite String.eqb_refl in H.
Qed.

Lemma filter_neq_idem (v : string) (l : list string) :
  filter (fun x => negb (String.eqb x v))
         (v :: filter (fun x => negb (String.eqb x v)) l)
  = filter (fun x => negb (String.eqb x v)) l.
Proof.
  simpl. rewrite String.eqb_refl. simpl.
  induction l as [|x l IH]; simpl; [reflexivity|].
  destruct (String.eqb x v) eqn:E; simpl; [exact IH|].
  rewrite E. simpl. now rewrite IH.
Qed.

Lemma filter_neq_id (v : string) (l : list string) :
  ~ In v l -> filter (fun x => negb (String.eqb x v)) l = l.
Proof.
  induction l as [|x l IH]; simpl; intros H; [reflexivity|].
  destruct (String.eqb_spec x v) as [->|Hne]; simpl.
  - exfalso. apply H. now left.
  - f_equal. apply IH. intros Hin. apply H. now right.
Qed.

(** What [add_association] leaves under the section and the key. *)
Lemma lookup_add_association (assocs : table) section key value :
  truthy_opt section = true -> Str.truthy key = true ->
  Str.truthy value = true ->
  lookup (add_association assocs section key value) section key
  = Some (value
          :: filter (fun x => negb (String.eqb x value))
               match lookup assocs section key with
               | Some old => old
               | None => []
               end).
Proof.
  intros Hs Hk Hv. unfold add_association. rewrite Hs, Hk, Hv. simpl.
  unfold lookup at 2.
  destruct (get_section assocs section) as [e|] eqn:Es.
  - destruct (get_key e key) as [old|] eqn:Ek;
      rewrite lookup_set_same; unfold get_key;
      now rewrite (dict_get_set_same String.eqb_spec).
  - rewrite lookup_set_same. simpl. now rewrite String.eqb_refl.
Qed.

(** After [add_association] the table has the form [assocs[section] = e]
    for entries [e] that bind the key to a list that starts with the
    value and holds it nowhere else. *)
Lemma add_association_shape (assocs : table) section key value :
  truthy_opt section = true -> Str.truthy key = true ->
  Str.truthy value = true ->
  exists (base : table) (e : entries) (rest : list string),
    add_association assocs section key value
    = Dict.set opt_eqb base section (Dict.set String.eqb e key (value :: rest))
    /\ ~ In value rest.
Proof.
  intros Hs Hk Hv. unfold add_association. rewrite Hs, Hk, Hv. simpl.
  destruct (get_section assocs section) as [e|] eqn:Es.
  - destruct (get_key e key) as [old|] eqn:Ek.
    + exists assocs, e, (filter (fun x => negb (String.eqb x value)) old).
      split; [reflexivity|apply filter_neq_notin].
    + exists assocs, e, []. split; [reflexivity|intros []].
  - exists assocs, [], []. split; [reflexivity|intros []].
Qed.

Lemma add_association_on_shape (base : table) section (e : entries) key value
  rest :
  truthy_opt section = true -> Str.truthy key = true ->
  Str.truthy value = true -> ~ In value rest ->
  let t := Dict.set opt_eqb base section
             (Dict.set String.eqb e key (value :: rest)) in
  add_association t section key value = t.
Proof.
  intros Hs Hk Hv Hrest t. unfold add_association. rewrite Hs, Hk, Hv. simpl.
  unfold get_section, t. rewrite (dict_get_set_same opt_eqb_spec).
  unfold get_key. rewrite (dict_get_set_same String.eqb_spec).
  simpl. rewrite String.eqb_refl. simpl.
  rewrite (filter_neq_id value rest Hrest).
  rewrite (dict_set_set String.eqb_spec).
  now rewrite (dict_set_set opt_eqb_spec).
Qed.

(** C5: for a non-empty section, key and value, adding the same
    association a second time leaves the table as the first addition left
    it; after the addition the list under the section and the key is the
    value followed by the other elements of the former list in their
    former order, so the value occurs exactly once, at the front. *)
Theorem add_association_idempotent (assocs : table) (section : option string)
  (key value : string) :
  truthy_opt section = true -> Str.truthy key = true ->
  Str.truthy value = true ->
  let once := add_association assocs section key value in
  let others :=
    filter (fun x => negb (String.eqb x value))
           match lookup assocs section key with
           | Some old => old
           | None => []
           end in
  add_association once section key value = once
  /\ lookup once section key = Some (value :: others)
  /\ count_occ string_dec (value :: others) value = 1.
Proof.
  intros Hs Hk Hv once others. repeat split.
  - destruct (add_association_shape assocs section key value Hs Hk Hv)
      as (base & e & rest & Heq & Hrest).
    unfold once. rewrite Heq. now apply add_association_on_shape.
  - now apply lookup_add_association.
  - simpl. destruct (string_dec value value) as [_|Hne]; [|now elim Hne].
    f_equal. apply count_occ_not_In. apply filter_neq_notin.
Qed.

Lemma add_association_idempotent_witness :
  add_association
    (add_association sample_added_vim (Some "Added Associations")
                     "text/plain" "vim.desktop")
    (Some "Added Associations") "text/plain" "vim.desktop"
  = add_association sample_added_vim (Some "Added Associations")
                    "text/plain" "vim.desktop"
  /\ lookup (add_association sample_added_vim (Some "Added Associations")
                             "text/plain" "vim.desktop")
            (Some "Added Associations") "text/plain"
     = Some ["vim.desktop"; "a.desktop"; "b.desktop"].
Proof.
  destruct (add_association_idempotent sample_added_vim
              (Some "Added Associations") "text/plain" "vim.desktop"
              eq_refl eq_refl eq_refl)
    as (H1 & H2 & _).
  split; [exact H1|exact H2].
Defined.

Lemma list_remove_head (v : string) (l : list string) :
  list_remove v (v :: l) = Some l.
Proof. simpl. now rewrite String.eqb_refl. Qed.

Lemma get_key_del_other (e : entries) key key' :
  key' <> key ->
  get_key (Dict.del String.eqb e key) key' = get_key e key'.
Proof.
  intros Hne. unfold get_key.
  induction e as [|[k0 v0] e IH]; simpl; [reflexivity|].
  destruct (String.eqb_spec key k0) as [->|Hk]; simpl.
  - destruct (String.eqb_spec key' k0); [contradiction|reflexivity].
  - destruct (String.eqb_spec key' k0); [reflexivity|exact IH].
Qed.

(** Deleting the binding that [Dict.set] appended or replaced. *)
Lemma get_key_del_set (e : entries) key (l : list string) :
  get_key e key = None ->
  get_key (Dict.del String.eqb (Dict.set String.eqb e key l) key) key = None.
Proof.
  unfold get_key.
  induction e as [|[k0 v0] e IH]; simpl.
  - now rewrite String.eqb_refl.
  - destruct (String.eqb_spec key k0) as [->|Hk]; [discriminate|].
    intros H. simpl.
    destruct (String.eqb_spec key k0); [contradiction|]. simpl.
    destruct (String.eqb_spec key k0); [contradiction|now apply IH].
Qed.

(** C6, as the code has it: for a non-empty section, key and value, when
    the value is not yet in the list under the section and the key (the
    key is absent, or its list is not empty and does not hold the value),
    adding the association and then removing it leaves under the section
    and the key exactly what was there before, absence included. *)
Theorem remove_after_add_restores (assocs : table) (section : option string)
  (key value : string) :
  truthy_opt section = true -> Str.truthy key = true ->
  Str.truthy value = true ->
  match lookup assocs section key with
  | Some old => old <> [] /\ ~ In value old
  | None => True
  end ->
  lookup (remove_association (add_association assocs section key value)
                             section key (Some value))
         section key
  = lookup assocs section key.
Proof.
  intros Hs Hk Hv Hold.
  pose proof (lookup_add_association assocs section key value Hs Hk Hv) as Hl.
  unfold remove_association. rewrite Hs, Hk, Hv.
  assert (Hne : nonempty (add_association assocs section key value) = true).
  { destruct (add_association assocs section key value); [|reflexivity].
    discriminate Hl. }
  rewrite Hne. simpl.
  unfold lookup in Hl.
  destruct (get_section (add_association assocs section key value) section)
    as [e'|] eqn:Es'; [|discriminate].
  rewrite Hl. rewrite list_remove_head.
  revert Hold Hl Es'. unfold add_association. rewrite Hs, Hk, Hv. simpl.
  unfold lookup.
  destruct (get_section assocs section) as [e|] eqn:Es.
  - destruct (get_key e key) as [old|] eqn:Ek.
    + intros [Hnil Hnotin] _ _. rewrite (filter_neq_id value old Hnotin).
      destruct old as [|y l]; [now elim Hnil|].
      unfold get_section. rewrite (dict_get_set_same opt_eqb_spec).
      unfold get_key. now rewrite (dict_get_set_same String.eqb_spec).
    + intros _ _ Es'. simpl.
      unfold get_section in Es'.
      rewrite (dict_get_set_same opt_eqb_spec) in Es'.
      injection Es' as <-.
      unfold get_section. rewrite (dict_get_set_same opt_eqb_spec).
      now apply get_key_del_set.
  - intros _ _ Es'. simpl.
    unfold get_section in Es'.
    rewrite (dict_get_set_same opt_eqb_spec) in Es'.
    injection Es' as <-.
    unfold get_section. rewrite (dict_get_set_same opt_eqb_spec).
    simpl. now rewrite String.eqb_refl.
Qed.

Lemma remove_after_add_restores_witness :
  lookup (remove_association
            (add_association sample_added (Some "Added Associations")
                             "text/plain" "vim.desktop")
            (Some "Added Associations") "text/plain" (Some "vim.desktop"))
         (Some "Added Associations") "text/plain"
  = lookup sample_added (Some "Added Associations") "text/plain".
Proof.
  apply (remove_after_add_restores sample_added (Some "Added Associations")
           "text/plain" "vim.desktop" eq_refl eq_refl eq_refl).
  simpl. split; [discriminate|].
  intros [H|[H|[]]]; discriminate H.
Defined.

(** C6 as it is stated fails when the value is already in the list: the
    addition moves it to the front and the removal then takes it away, so
    [a.desktop; vim.desktop; b.desktop] becomes [a.desktop; b.desktop]. *)
Lemma remove_after_add_not_restored :
  lookup (remove_association
            (add_association sample_added_vim (Some "Added Associations")
                             "text/plain" "vim.desktop")
            (Some "Added Associations") "text/plain" (Some "vim.desktop"))
         (Some "Added Associations") "text/plain"
  <> lookup sample_added_vim (Some "Added Associations") "text/plain".
Proof. vm_compute. discriminate. Qed.

(** ** Strings *)

Lemma mem_cons (c d : ascii) (s : string) :
  Str.mem c (String d s) = Ascii.eqb c d || Str.mem c s.
Proof. reflexivity. Qed.

Lemma mem_app (c : ascii) (a b : string) :
  Str.mem c (a ++ b) = Str.mem c a || Str.mem c b.
Proof.
  induction a as [|d a IH]; simpl; [reflexivity|].
  now rewrite IH, orb_assoc.
Qed.

Lemma split1_none (c : ascii) (s : string) :
  Str.split1 c s = None <-> Str.mem c s = false.
Proof.
  induction s as [|d s IH]; simpl; [tauto|].
  rewrite (Ascii.eqb_sym c d).
  destruct (Ascii.eqb d c); simpl; [split; discriminate|].
  destruct (Str.split1 c s) as [[a b]|].
  - split; [discriminate|]. intros H. apply IH in H. discriminate.
  - split; intros _; [now apply IH|reflexivity].
Qed.

Lemma split1_some (c : ascii) (s a b : string) :
  Str.split1 c s = Some (a, b) ->
  s = (a ++ String c b)%string /\ Str.mem c a = false.
Proof.
  revert a b. induction s as [|d s IH]; simpl; intros a b; [discriminate|].
  destruct (Ascii.eqb_spec d c) as [->|Hne].
  - intros H. injection H as <- <-. now split.
  - destruct (Str.split1 c s) as [[a' b']|]; [|discriminate].
    intros H. injection H as <- <-.
    destruct (IH a' b' eq_refl) as [-> Hm]. split; [reflexivity|].
    simpl. rewrite Hm.
    destruct (Ascii.eqb_spec c d); [congruence|reflexivity].
Qed.

Lemma split1_app (c : ascii) (a b : string) :
  Str.mem c a = false -> Str.split1 c (a ++ String c b) = Some (a, b).
Proof.
  induction a as [|d a IH]; simpl.
  - now rewrite Ascii.eqb_refl.
  - rewrite (Ascii.eqb_sym c d).
    destruct (Ascii.eqb d c); simpl; [discriminate|].
    intros H. now rewrite (IH H).
Qed.

(** ** MIME-types *)

(** C9: parsing a MIME-type succeeds exactly when the string has a slash.
    With a slash the result has five components and the first is the text
    before the first slash; stripping and resolving then return as well.
    Without a slash [parse_mimetype] raises [ValueError], and so do
    [strip_mimetype] and the resolution of the string, which therefore
    yields no result at all, not an empty one. *)
Theorem parse_mimetype_needs_slash (mimetype : string) :
  (Str.mem "/" mimetype = true ->
   exists type_name rest tree subtype_name suffix parameters,
     mimetype = (type_name ++ "/" ++ rest)%string
     /\ Str.mem "/" type_name = false
     /\ parse_mimetype mimetype
        = Return (type_name, tree, subtype_name, suffix, parameters)
     /\ strip_mimetype mimetype
        = Return (type_name ++ "/" ++ subtype_name)%string
     /\ forall env at_least_one first_only only_existing,
          exists paths,
            mimetype_to_desktop_filepaths env mimetype at_least_one
              first_only only_existing = Return paths)
  /\ (Str.mem "/" mimetype = false ->
      exists msg,
        parse_mimetype mimetype = Raise (ValueError msg)
        /\ strip_mimetype mimetype = Raise (ValueError msg)
        /\ forall env at_least_one first_only only_existing,
             mimetype_to_desktop_filepaths env mimetype at_least_one
               first_only only_existing = Raise (ValueError msg)).
Proof.
  split; intros Hm.
  - destruct (Str.split1 "/" mimetype) as [[type_name rest]|] eqn:E.
    + destruct (split1_some _ _ _ _ E) as [Heq Hno].
      assert (Hp : exists tree subtype_name suffix parameters,
                 parse_mimetype mimetype
                 = Return (type_name, tree, subtype_name, suffix, parameters)).
      { unfold parse_mimetype. rewrite E.
        destruct (Str.split1 "." rest) as [[t r]|];
          [destruct (Str.rsplit1 ";" r) as [[r1 p]|]
          |destruct (Str.rsplit1 ";" rest) as [[r1 p]|]];
          match goal with
          | |- context [Str.split1 "+" ?x] =>
              destruct (Str.split1 "+" x) as [[s x']|]
          end; eauto. }
      destruct Hp as (tree & subtype_name & suffix & parameters & Hp).
      exists type_name, rest, tree, subtype_name, suffix, parameters.
      repeat split; try assumption.
      * unfold strip_mimetype. now rewrite Hp.
      * intros env a f o. unfold mimetype_to_desktop_filepaths, strip_mimetype.
        rewrite Hp. simpl. eauto.
    + apply split1_none in E. congruence.
  - apply split1_none in Hm.
    exists "not enough values to unpack (expected 2, got 1)".
    unfold mimetype_to_desktop_filepaths, strip_mimetype, parse_mimetype.
    rewrite Hm. repeat split.
Qed.

Lemma parse_mimetype_needs_slash_witness :
  parse_mimetype "application/vnd.ms-excel+xml;charset=utf-8"
  = Return ("application", Some "vnd", "ms-excel", Some "xml",
            Some "charset=utf-8")
  /\ exists msg, parse_mimetype "text" = Raise (ValueError msg).
Proof.
  split.
  - destruct (proj1 (parse_mimetype_needs_slash
                       "application/vnd.ms-excel+xml;charset=utf-8") eq_refl)
      as (t & r & tr & s & su & p & _ & _ & H & _).
    rewrite H. vm_compute in H. exact (eq_sym H).
  - destruct (proj2 (parse_mimetype_needs_slash "text") eq_refl)
      as (msg & H & _).
    now exists msg.
Defined.

(** ** Parsing association files *)

Lemma first_none_empty (s : string) : Str.first s = None -> s = "".
Proof. destruct s; simpl; [reflexivity|discriminate]. Qed.

Lemma last_none_empty (s : string) : Str.last s = None -> s = "".
Proof.
  induction s as [|c s IH]; simpl; [reflexivity|].
  destruct s; [discriminate|]. intros H. apply IH in H. discriminate.
Qed.

(** The loop body of [parse_associations] acts by the kind of the line. *)
Lemma parse_line_classify (section : option string) (associations : table)
  (line : string) :
  parse_line (section, associations) line
  = match classify line with
    | Ignored => (section, associations)
    | Header s => (Some s, associations)
    | Entry key desktops => (section, store associations (section, key, desktops))
    end.
Proof.
  unfold parse_line, classify, store.
  destruct (Str.first (Str.strip line)) as [a|] eqn:Ef.
  - destruct (Str.last (Str.strip line)) as [b|] eqn:El.
    + destruct (Str.strip line) as [|c r] eqn:Es; [discriminate|]. simpl.
      simpl in Ef. injection Ef as ->.
      destruct (Ascii.eqb a "#"); [reflexivity|].
      destruct (Ascii.eqb a "[" && Ascii.eqb b "]"); [reflexivity|].
      destruct (Ascii.eqb a "=");
        [|destruct (Str.split1 "=" r) as [[m d]|]; [|reflexivity]];
        match goal with
        | |- context [parse_desktops ?d] =>
            destruct (parse_desktops d) as [|x xs]
        end; try reflexivity; simpl;
        destruct (get_section associations section); reflexivity.
    + apply last_none_empty in El. rewrite El in Ef. discriminate.
  - apply first_none_empty in Ef. rewrite Ef. reflexivity.
Qed.

Lemma fold_parse_line (lines : list string) (section : option string)
  (associations : table) :
  snd (fold_left parse_line lines (section, associations))
  = fold_left store (entries_from section lines) associations.
Proof.
  revert section associations.
  induction lines as [|line lines IH]; intros section associations;
    cbn [fold_left entries_from]; [reflexivity|].
  rewrite parse_line_classify.
  destruct (classify line); cbn [fold_left]; apply IH.
Qed.

Lemma parse_associations_store (lines : list string) :
  parse_associations lines = fold_left store (file_entries lines) [].
Proof. apply fold_parse_line. Qed.

Lemma lookup_store (t : table) (s : option string) (k : string)
  (ds : list string) (s' : option string) (k' : string) :
  lookup (store t (s, k, ds)) s' k'
  = if opt_eqb s s' && String.eqb k k' then Some ds else lookup t s' k'.
Proof.
  unfold store.
  destruct (opt_eqb_spec s s') as [<-|Hs]; simpl.
  - destruct (get_section t s) as [en|] eqn:Es; rewrite lookup_set_same.
    + unfold lookup. rewrite Es.
      destruct (String.eqb_spec k k') as [<-|Hk].
      * unfold get_key. apply (dict_get_set_same String.eqb_spec).
      * unfold get_key. apply (dict_get_set_other String.eqb_spec).
        congruence.
    + unfold lookup. rewrite Es. simpl. now rewrite (String.eqb_sym k' k).
  - destruct (get_section t s); apply lookup_set_other; congruence.
Qed.

Lemma lookup_fold_store (l : list file_entry) (t : table)
  (section : option string) (key : string) :
  lookup (fold_left store l t) section key
  = fold_left
      (fun acc (e : file_entry) =>
         let '(s, k, desktops) := e in
         if opt_eqb s section && String.eqb k key then Some desktops else acc)
      l (lookup t section key).
Proof.
  revert t. induction l as [|[[s k] ds] l IH]; intros t; cbn [fold_left];
    [reflexivity|].
  rewrite IH. now rewrite lookup_store.
Qed.

Lemma store_sections (t : table) (e : file_entry) :
  NoDup (Dict.keys t) -> NoDup (Dict.keys (store t e)).
Proof.
  destruct e as [[s k] ds]. unfold store, get_section. intros Hnd.
  destruct (Dict.get opt_eqb t s) as [en|] eqn:Es.
  - now rewrite (dict_keys_set_present opt_eqb_spec t s _ en Es).
  - rewrite (dict_set_absent opt_eqb_spec t s _ Es).
    unfold Dict.keys. rewrite map_app. simpl.
    apply NoDup_app; [exact Hnd|repeat constructor; intros []|].
    intros x Hx [<-|[]].
    now apply (dict_get_none_notin opt_eqb_spec) in Es.
Qed.

Lemma fold_store_sections (l : list file_entry) (t : table) :
  NoDup (Dict.keys t) -> NoDup (Dict.keys (fold_left store l t)).
Proof.
  revert t. induction l as [|e l IH]; intros t Hnd; simpl; [exact Hnd|].
  apply IH. now apply store_sections.
Qed.

(** What is found in the parsed table is the value list of the last
    entry of the file for the section and the key. *)
Lemma lookup_parse_associations (lines : list string)
  (section : option string) (key : string) :
  lookup (parse_associations lines) section key
  = last_value (file_entries lines) section key.
Proof.
  rewrite parse_associations_store. unfold last_value.
  now rewrite lookup_fold_store.
Qed.

(** *** The file as the format reads it *)

Lemma append_assoc (a b c : string) :
  ((a ++ b) ++ c)%string = (a ++ (b ++ c))%string.
Proof. induction a as [|d a IH]; simpl; [reflexivity|now rewrite IH]. Qed.

Lemma append_nil_r (a : string) : (a ++ "")%string = a.
Proof. induction a as [|d a IH]; simpl; [reflexivity|now rewrite IH]. Qed.

Lemma split_not_nil (c : ascii) (s : string) : Str.split c s <> [].
Proof.
  destruct s as [|d s]; cbn [Str.split]; [discriminate|].
  destruct (Ascii.eqb d c); [discriminate|].
  destruct (Str.split c s); discriminate.
Qed.

Lemma value_pieces_split (text cur : string) :
  value_pieces cur text
  = filter Str.truthy
      match Str.split ";" text with
      | h :: t => (cur ++ h)%string :: t
      | [] => [cur]
      end.
Proof.
  revert cur. induction text as [|c r IH]; intros cur.
  - cbn [value_pieces Str.split filter]. rewrite append_nil_r.
    unfold Str.truthy. now destruct (Str.is_empty cur).
  - cbn [value_pieces Str.split].
    destruct (Ascii.eqb c ";").
    + cbn [filter]. rewrite append_nil_r. unfold Str.truthy at 1.
      rewrite (IH "").
      assert (E : match Str.split ";" r with
                  | h :: t => ("" ++ h)%string :: t
                  | [] => [""]
                  end = Str.split ";" r).
      { destruct (Str.split ";" r) eqn:Es; [|reflexivity].
        now elim (split_not_nil ";" r). }
      rewrite E. now destruct (Str.is_empty cur).
    + rewrite IH. destruct (Str.split ";" r) as [|h t].
      * reflexivity.
      * now rewrite append_assoc.
Qed.

(** The value list that the source builds is the value list of the
    format. *)
Lemma parse_desktops_value_list (text : string) :
  parse_desktops text = value_list text.
Proof.
  unfold parse_desktops, value_list. rewrite value_pieces_split.
  destruct (Str.split ";" text) eqn:Es; [|reflexivity].
  now elim (split_not_nil ";" text).
Qed.

(** The source takes a line the way the format reads it; an entry
    without a value changes nothing. *)
Lemma classify_read_line (line : string) :
  classify line
  = match read_line line with
    | SectionHeader name => Header name
    | EntryLine key (v :: vs) => Entry key (v :: vs)
    | _ => Ignored
    end.
Proof.
  unfold classify, read_line.
  destruct (Str.strip line) as [|c r] eqn:Es; [reflexivity|].
  cbn [Str.first].
  destruct (Str.last (String c r)) as [b|] eqn:El.
  - destruct (Ascii.eqb c "#"); [reflexivity|].
    destruct (Ascii.eqb c "[" && Ascii.eqb b "]"); [reflexivity|].
    destruct (Str.split1 "=" (String c r)) as [[k text]|]; [|reflexivity].
    rewrite parse_desktops_value_list.
    now destruct (value_list text).
  - apply last_none_empty in El. discriminate El.
Qed.

Lemma entries_from_app (section : option string) (l1 l2 : list string) :
  entries_from section (l1 ++ l2)
  = entries_from section l1 ++ entries_from (section_after section l1) l2.
Proof.
  revert section. induction l1 as [|l l1 IH]; intros section; [reflexivity|].
  cbn [app entries_from section_after]. rewrite classify_read_line.
  destruct (read_line l) as [| |name|k [|v vs]|]; cbn [app];
    now rewrite IH.
Qed.

(** Every entry comes from an entry line with a value, under the section
    that is in force at that line. *)
Lemma entries_from_inv (lines : list string) (section s : option string)
  (k : string) (vs : list string) :
  In (s, k, vs) (entries_from section lines) ->
  exists i l,
    nth_error lines i = Some l /\ read_line l = EntryLine k vs
    /\ vs <> [] /\ s = section_after section (firstn i lines).
Proof.
  revert section. induction lines as [|l lines IH]; intros section Hin;
    [destruct Hin|].
  cbn [entries_from] in Hin. rewrite classify_read_line in Hin.
  assert (Hrest : forall sec,
             In (s, k, vs) (entries_from sec lines) ->
             section_after section [l] = sec ->
             exists i l0,
               nth_error (l :: lines) i = Some l0
               /\ read_line l0 = EntryLine k vs /\ vs <> []
               /\ s = section_after section (firstn i (l :: lines))).
  { intros sec H Hsec. destruct (IH sec H) as (i & l0 & Hn & Hr & Hv & Hs).
    exists (S i), l0. cbn [nth_error firstn section_after].
    cbn [section_after] in Hsec.
    repeat split; try assumption.
    destruct (read_line l); now subst. }
  destruct (read_line l) as [| |name|k' [|v vs']|] eqn:Er.
  - apply (Hrest section); [exact Hin|]. cbn [section_after]. now rewrite Er.
  - apply (Hrest section); [exact Hin|]. cbn [section_after]. now rewrite Er.
  - apply (Hrest (Some name)); [exact Hin|]. cbn [section_after].
    now rewrite Er.
  - apply (Hrest section); [exact Hin|]. cbn [section_after]. now rewrite Er.
  - destruct Hin as [E|Hin].
    + injection E as <- <- <-. exists 0, l. cbn [nth_error firstn].
      repeat split; [exact Er|discriminate].
    + apply (Hrest section); [exact Hin|]. cbn [section_after].
      now rewrite Er.
  - apply (Hrest section); [exact Hin|]. cbn [section_after]. now rewrite Er.
Qed.

Lemma last_value_keep (l : list file_entry) (section : option string)
  (key : string) (acc : option (list string)) :
  (forall s k vs, In (s, k, vs) l -> s = section -> k <> key) ->
  fold_left
    (fun acc (e : file_entry) =>
       let '(s, k, desktops) := e in
       if opt_eqb s section && String.eqb k key then Some desktops else acc)
    l acc = acc.
Proof.
  revert acc. induction l as [|[[s k] vs] l IH]; intros acc H; [reflexivity|].
  cbn [fold_left]. rewrite IH.
  - destruct (opt_eqb_spec s section) as [Es|_]; [|reflexivity].
    destruct (String.eqb_spec k key) as [Ek|_]; [|reflexivity].
    exact (False_ind _ (H s k vs (or_introl eq_refl) Es Ek)).
  - intros s' k' vs' Hin. apply (H s' k' vs'). now right.
Qed.

(** C10, as the code has it.  A line is an entry line with the key and
    the values that [read_line] gives; its values are the pieces between
    semicolons that are not empty, white space counting, each stripped
    and reduced to its base name.  The table that [parse_associations]
    returns binds the key of an entry line with a value, under the
    section in force at the line, to exactly the values of that line,
    when no later line is an entry line with a value for the key under
    that section, however often the header of the section is repeated; a
    key without such a line under a section is not bound there.  Each
    section name is in the table once, so the entries under repeated
    headers of one section are in one section of the table. *)
Theorem parse_associations_last_wins (pre post : list string)
  (line key : string) (values : list string) :
  read_line line = EntryLine key values -> values <> [] ->
  (forall i l vs,
     nth_error post i = Some l -> read_line l = EntryLine key vs ->
     vs <> [] ->
     section_after (section_after None pre) (firstn i post)
     <> section_after None pre) ->
  lookup (parse_associations (pre ++ line :: post))
    (section_after None pre) key = Some values
  /\ NoDup (Dict.keys (parse_associations (pre ++ line :: post)))
  /\ (forall lines section,
        (forall i l vs,
           nth_error lines i = Some l -> read_line l = EntryLine key vs ->
           vs <> [] -> section_after None (firstn i lines) <> section) ->
        lookup (parse_associations lines) section key = None).
Proof.
  intros Hline Hvalues Hlater. split; [|split].
  - rewrite lookup_parse_associations. unfold last_value, file_entries.
    rewrite entries_from_app. cbn [entries_from].
    rewrite classify_read_line, Hline.
    destruct values as [|v vs]; [congruence|].
    rewrite fold_left_app. cbn [fold_left].
    destruct (opt_eqb_spec (section_after None pre) (section_after None pre))
      as [_|H]; [|congruence].
    rewrite String.eqb_refl. cbn [andb].
    apply last_value_keep. intros s k vs' Hin Hs Hk. subst k.
    destruct (entries_from_inv post _ s key vs' Hin)
      as (i & l & Hn & Hr & Hv & E).
    apply (Hlater i l vs' Hn Hr Hv). congruence.
  - rewrite parse_associations_store. apply fold_store_sections. constructor.
  - intros lines section Hnone.
    rewrite lookup_parse_associations. unfold last_value, file_entries.
    apply last_value_keep. intros s k vs Hin Hs Hk. subst k.
    destruct (entries_from_inv lines None s key vs Hin)
      as (i & l & Hn & Hr & Hv & E).
    apply (Hnone i l vs Hn Hr Hv). congruence.
Qed.

Lemma parse_associations_last_wins_witness :
  lookup (parse_associations sample_lines) (Some "Added Associations")
    "text/plain" = Some ["vim.desktop"].
Proof.
  assert (Hne : ["vim.desktop"] <> @nil string) by discriminate.
  assert (Hlater : forall i l vs,
            nth_error ["text/html=firefox.desktop;"; "text/plain=;"] i
            = Some l ->
            read_line l = EntryLine "text/plain" vs -> vs <> [] ->
            section_after
              (section_after None
                 ["[Added Associations]"; "text/plain=a.desktop;b.desktop;";
                  "image/png=gimp.desktop;"; "[Removed Associations]";
                  "text/plain=x.desktop;"; "[Added Associations]"])
              (firstn i ["text/html=firefox.desktop;"; "text/plain=;"])
            <> section_after None
                 ["[Added Associations]"; "text/plain=a.desktop;b.desktop;";
                  "image/png=gimp.desktop;"; "[Removed Associations]";
                  "text/plain=x.desktop;"; "[Added Associations]"]).
  { intros [|[|i]] l vs Hn Hr Hv.
    - injection Hn as <-. vm_compute in Hr. discriminate Hr.
    - injection Hn as <-. vm_compute in Hr. injection Hr as <-.
      now elim Hv.
    - destruct i; discriminate Hn. }
  exact (proj1
           (parse_associations_last_wins
              ["[Added Associations]"; "text/plain=a.desktop;b.desktop;";
               "image/png=gimp.desktop;"; "[Removed Associations]";
               "text/plain=x.desktop;"; "[Added Associations]"]
              ["text/html=firefox.desktop;"; "text/plain=;"]
              "text/plain = /usr/share/applications/vim.desktop;"
              "text/plain" ["vim.desktop"] eq_refl Hne Hlater)).
Defined.

(** C10 as it is stated fails for a later line whose only value is white
    space: no piece of its text is non-empty once it is stripped, and
    yet the line takes the place of the earlier value list, with the
    empty name as its one value. *)
Lemma blank_value_overrides :
  forallb (fun v => Str.is_empty (Str.strip v)) (Str.split ";" " ;") = true
  /\ read_line "text/plain=a.desktop;" = EntryLine "text/plain" ["a.desktop"]
  /\ read_line "text/plain= ;" = EntryLine "text/plain" [""]
  /\ lookup (parse_associations blank_value_lines)
       (Some "Added Associations") "text/plain" = Some [""]
  /\ lookup (parse_associations blank_value_lines)
       (Some "Added Associations") "text/plain" <> Some ["a.desktop"].
Proof. repeat split. discriminate. Qed.

Example parse_sample_lines :
  parse_associations sample_lines
  = [(Some "Added Associations",
      [("text/plain", ["vim.desktop"]);
       ("image/png", ["gimp.desktop"]);
       ("text/html", ["firefox.desktop"])]);
     (Some "Removed Associations", [("text/plain", ["x.desktop"])])]
  /\ file_entries sample_lines
     = [(Some "Added Associations", "text/plain", ["a.desktop"; "b.desktop"]);
        (Some "Added Associations", "image/png", ["gimp.desktop"]);
        (Some "Removed Associations", "text/plain", ["x.desktop"]);
        (Some "Added Associations", "text/plain", ["vim.desktop"]);
        (Some "Added Associations", "text/html", ["firefox.desktop"])].
Proof. split; reflexivity. Qed.

(** ** Stripping white space *)

Lemma lstrip_length (s : string) :
  String.length (Str.lstrip s) <= String.length s.
Proof.
  induction s as [|c s IH]; simpl; [lia|].
  destruct (Str.isspace c); simpl; lia.
Qed.

Lemma lstrip_length_eq (s : string) :
  String.length (Str.lstrip s) = String.length s -> Str.lstrip s = s.
Proof.
  destruct s as [|c s]; simpl; [reflexivity|].
  destruct (Str.isspace c); [|reflexivity].
  pose proof (lstrip_length s). lia.
Qed.

Lemma rstrip_length (s : string) :
  String.length (Str.rstrip s) <= String.length s.
Proof.
  induction s as [|c s IH]; simpl; [lia|].
  destruct (Str.is_empty (Str.rstrip s) && Str.isspace c); simpl; lia.
Qed.

Lemma strip_fixed_rstrip (s : string) : Str.strip s = s -> Str.rstrip s = s.
Proof.
  unfold Str.strip. intros H.
  pose proof (lstrip_length (Str.rstrip s)) as H1.
  pose proof (rstrip_length s) as H2.
  assert (Hl : String.length (Str.lstrip (Str.rstrip s))
               = String.length (Str.rstrip s)) by (rewrite H in *; lia).
  apply lstrip_length_eq in Hl. congruence.
Qed.

Lemma strip_fixed_lstrip (s : string) : Str.strip s = s -> Str.lstrip s = s.
Proof.
  intros H. pose proof (strip_fixed_rstrip s H) as Hr.
  unfold Str.strip in H. now rewrite Hr in H.
Qed.

Lemma lstrip_app (a b : string) :
  Str.lstrip a = a -> a <> "" -> Str.lstrip (a ++ b) = (a ++ b)%string.
Proof.
  destruct a as [|c a]; [congruence|]. simpl.
  destruct (Str.isspace c) eqn:E; [|reflexivity].
  intros H _. pose proof (lstrip_length a) as Hl. rewrite H in Hl.
  simpl in Hl. lia.
Qed.

Lemma rstrip_nonempty_end (a : string) (c : ascii) :
  Str.isspace c = false ->
  Str.rstrip (a ++ String c "") = (a ++ String c "")%string.
Proof.
  intros Hc. induction a as [|d a IH]; simpl.
  - now rewrite Hc.
  - rewrite IH. destruct a; reflexivity.
Qed.

Lemma rstrip_app_space (a : string) (c : ascii) :
  Str.isspace c = true ->
  Str.rstrip (a ++ String c "") = Str.rstrip a.
Proof.
  intros Hc. induction a as [|d a IH]; simpl.
  - now rewrite Hc.
  - now rewrite IH.
Qed.

Lemma last_app_char (a : string) (c : ascii) :
  Str.last (a ++ String c "") = Some c.
Proof.
  induction a as [|d a IH]; simpl; [reflexivity|].
  rewrite IH. destruct a; reflexivity.
Qed.

Lemma init_app_char (a : string) (c : ascii) :
  Str.init (a ++ String c "") = a.
Proof.
  induction a as [|d a IH]; simpl; [reflexivity|].
  rewrite IH. destruct a; reflexivity.
Qed.

(** ** Reading back what was written *)

Lemma split_app_sep (c : ascii) (a b : string) :
  Str.mem c a = false ->
  Str.split c (a ++ String c b) = a :: Str.split c b.
Proof.
  induction a as [|d a IH]; simpl.
  - now rewrite Ascii.eqb_refl.
  - rewrite (Ascii.eqb_sym c d).
    destruct (Ascii.eqb d c); simpl; [discriminate|].
    intros H. now rewrite (IH H).
Qed.

Lemma split_join_semicolon (vs : list string) :
  vs <> [] ->
  forallb (fun v => negb (Str.mem ";" v)) vs = true ->
  Str.split ";" (Str.join ";" vs ++ ";") = vs ++ [""].
Proof.
  induction vs as [|v vs IH]; [congruence|]. intros _ Hok.
  simpl in Hok. apply andb_true_iff in Hok. destruct Hok as [Hv Hvs].
  apply negb_true_iff in Hv.
  destruct vs as [|w vs].
  - simpl. now rewrite (split_app_sep ";" v "" Hv).
  - change (Str.join ";" (v :: w :: vs))
      with (v ++ ";" ++ Str.join ";" (w :: vs))%string.
    rewrite append_assoc.
    change ((";" ++ Str.join ";" (w :: vs)) ++ ";")%string
      with (String ";" (Str.join ";" (w :: vs) ++ ";"))%string.
    rewrite (split_app_sep ";" v _ Hv).
    rewrite IH; [reflexivity|discriminate|exact Hvs].
Qed.

Lemma basename_noslash (v : string) :
  Str.mem "/" v = false -> Str.basename v = v.
Proof.
  destruct v as [|c r]; [reflexivity|].
  rewrite mem_cons. intros H. apply orb_false_iff in H. destruct H as [Hc Hr].
  cbn [Str.basename]. rewrite Hr. now rewrite Ascii.eqb_sym, Hc.
Qed.

Lemma value_ok_parts (v : string) :
  value_ok v = true ->
  Str.truthy v = true /\ no_newline v = true /\ Str.mem ";" v = false
  /\ Str.mem "/" v = false /\ Str.strip v = v.
Proof.
  unfold value_ok, trimmed. intros H.
  apply andb_true_iff in H. destruct H as [H H5].
  apply andb_true_iff in H. destruct H as [H H4].
  apply andb_true_iff in H. destruct H as [H H3].
  apply andb_true_iff in H. destruct H as [H1 H2].
  apply negb_true_iff in H3, H4. apply String.eqb_eq in H5.
  now repeat split.
Qed.

Lemma key_ok_parts (k : string) :
  key_ok k = true ->
  no_newline k = true /\ Str.mem "=" k = false /\ Str.strip k = k
  /\ Str.startswith "#" k = false.
Proof.
  unfold key_ok, trimmed. intros H.
  apply andb_true_iff in H. destruct H as [H H4].
  apply andb_true_iff in H. destruct H as [H H3].
  apply andb_true_iff in H. destruct H as [H1 H2].
  apply negb_true_iff in H2, H4. apply String.eqb_eq in H3.
  now repeat split.
Qed.

Lemma parse_desktops_written (vs : list string) :
  vs <> [] -> forallb value_ok vs = true ->
  parse_desktops (Str.join ";" vs ++ ";") = vs.
Proof.
  intros Hne Hok. unfold parse_desktops.
  rewrite split_join_semicolon; [|exact Hne|].
  - rewrite filter_app. simpl. rewrite app_nil_r.
    clear Hne. induction vs as [|v vs IH]; simpl; [reflexivity|].
    simpl in Hok. apply andb_true_iff in Hok. destruct Hok as [Hv Hvs].
    destruct (value_ok_parts v Hv) as (Ht & _ & _ & Hs & Hst).
    rewrite Ht. simpl. rewrite Hst, (basename_noslash v Hs).
    now rewrite (IH Hvs).
  - clear Hne. induction vs as [|v vs IH]; simpl; [reflexivity|].
    simpl in Hok. apply andb_true_iff in Hok. destruct Hok as [Hv Hvs].
    destruct (value_ok_parts v Hv) as (_ & _ & Hsc & _).
    rewrite Hsc. simpl. now apply IH.
Qed.

Lemma classify_format_section (s : string) :
  classify (format_section (Some s)) = Header s.
Proof.
  unfold classify, format_section, NL, Str.strip.
  change ("[" ++ s ++ "]" ++ String Str.nl "")%string
    with (String "[" (s ++ "]" ++ String Str.nl ""))%string.
  replace (String "[" (s ++ "]" ++ String Str.nl ""))%string
    with ((String "[" s ++ String "]" "") ++ String Str.nl "")%string
    by (simpl; now rewrite append_assoc).
  rewrite rstrip_app_space by reflexivity.
  rewrite rstrip_nonempty_end by reflexivity.
  change (Str.lstrip (String "[" s ++ String "]" ""))
    with (String "[" s ++ String "]" "")%string.
  rewrite last_app_char.
  change (Str.first (String "[" s ++ String "]" "")) with (Some "["%char).
  change (Str.tail (String "[" s ++ String "]" ""))
    with (s ++ String "]" "")%string.
  now rewrite init_app_char.
Qed.

Lemma first_app (a b : string) :
  a <> "" -> Str.first (a ++ b) = Str.first a.
Proof. destruct a; [congruence|reflexivity]. Qed.

Lemma startswith_hash_first (k : string) :
  Str.startswith "#" k = false ->
  match Str.first k with
  | Some c => Ascii.eqb c "#"%char = false
  | None => True
  end.
Proof.
  destruct k as [|c r]; simpl; [trivial|].
  destruct (ascii_dec "#" c) as [<-|Hne].
  - destruct r; discriminate.
  - intros _. apply Ascii.eqb_neq. congruence.
Qed.

Lemma classify_format_entry (k : string) (vs : list string) :
  key_ok k = true -> vs <> [] -> forallb value_ok vs = true ->
  classify (format_entry (k, vs)) = Entry k vs.
Proof.
  intros Hk Hne Hvs.
  destruct (key_ok_parts k Hk) as (_ & Heq & Hstrip & Hhash).
  pose proof (strip_fixed_lstrip k Hstrip) as Hl.
  pose proof (strip_fixed_rstrip k Hstrip) as Hr.
  set (J := Str.join ";" vs).
  assert (Hline : Str.strip (format_entry (k, vs))
                  = (k ++ String "=" (J ++ ";"))%string).
  { unfold format_entry, NL, Str.strip. cbn [fst snd]. fold J.
    replace (k ++ "=" ++ J ++ ";" ++ String Str.nl "")%string
      with (((k ++ "=" ++ J) ++ String ";" "") ++ String Str.nl "")%string
      by (now rewrite !append_assoc).
    rewrite rstrip_app_space by reflexivity.
    rewrite rstrip_nonempty_end by reflexivity.
    rewrite !append_assoc.
    destruct k as [|c r]; [reflexivity|].
    apply lstrip_app; [exact Hl|discriminate]. }
  unfold classify. rewrite Hline.
  assert (Hlast : Str.last (k ++ String "=" (J ++ ";")) = Some ";"%char).
  { replace (k ++ String "=" (J ++ ";"))%string
      with ((k ++ String "=" J) ++ String ";" "")%string
      by (now rewrite append_assoc).
    apply last_app_char. }
  rewrite Hlast.
  assert (Hfirst : exists a, Str.first (k ++ String "=" (J ++ ";")) = Some a
                             /\ Ascii.eqb a "#"%char = false).
  { destruct k as [|c r].
    - exists "="%char. now split.
    - exists c. split; [reflexivity|].
      exact (startswith_hash_first (String c r) Hhash). }
  destruct Hfirst as (a & -> & ->).
  rewrite andb_false_r.
  rewrite (split1_app "=" k (J ++ ";") Heq).
  unfold J. rewrite (parse_desktops_written vs Hne Hvs).
  destruct vs as [|d ds]; [congruence|]. now rewrite Hr.
Qed.

Lemma classify_blank : classify NL = Ignored.
Proof. reflexivity. Qed.

(** *** The lines of the written text *)

Lemma concat_empty_cons (x : string) (l : list string) :
  String.concat "" (x :: l) = (x ++ String.concat "" l)%string.
Proof.
  destruct l as [|y l]; simpl; [now rewrite append_nil_r|reflexivity].
Qed.

Lemma concat_empty_app (l1 l2 : list string) :
  String.concat "" (l1 ++ l2)
  = (String.concat "" l1 ++ String.concat "" l2)%string.
Proof.
  induction l1 as [|x l1 IH]; [reflexivity|].
  change ((x :: l1) ++ l2) with (x :: (l1 ++ l2)).
  now rewrite !concat_empty_cons, IH, append_assoc.
Qed.

Lemma universal_newlines_no_cr (s : string) :
  Str.mem Str.cr s = false -> universal_newlines s = s.
Proof.
  induction s as [|c s IH]; [reflexivity|].
  rewrite mem_cons. intros H. apply orb_false_iff in H. destruct H as [Hc Hs].
  cbn [universal_newlines]. rewrite Ascii.eqb_sym, Hc. now rewrite IH.
Qed.

Lemma text_lines_line (a r : string) :
  Str.mem Str.nl a = false ->
  text_lines (a ++ NL ++ r) = (a ++ NL)%string :: text_lines r.
Proof.
  induction a as [|c a IH]; [reflexivity|].
  rewrite mem_cons. intros H. apply orb_false_iff in H. destruct H as [Hc Hs].
  change ((String c a ++ NL ++ r)%string)
    with (String c (a ++ NL ++ r))%string.
  cbn [text_lines]. rewrite Ascii.eqb_sym, Hc. now rewrite (IH Hs).
Qed.

Lemma mem_cr_line (l : string) : is_line l -> Str.mem Str.cr l = false.
Proof.
  intros (a & -> & Ha). unfold no_newline in Ha.
  apply andb_true_iff in Ha. destruct Ha as [_ Ha].
  apply negb_true_iff in Ha. now rewrite mem_app, Ha.
Qed.

Lemma file_lines_concat (ls : list string) :
  Forall is_line ls -> file_lines (String.concat "" ls) = ls.
Proof.
  intros Hls. unfold file_lines.
  rewrite universal_newlines_no_cr.
  - induction Hls as [|l ls (a & -> & Ha) _ IH]; [reflexivity|].
    rewrite concat_empty_cons, append_assoc.
    unfold no_newline in Ha. apply andb_true_iff in Ha. destruct Ha as [Ha _].
    apply negb_true_iff in Ha.
    now rewrite (text_lines_line a _ Ha), IH.
  - induction Hls as [|l ls Hl _ IH]; [reflexivity|].
    rewrite concat_empty_cons, mem_app, IH.
    now rewrite (mem_cr_line l Hl).
Qed.

(** *** Sorting *)

Lemma insert_item_perm (x : string * list string) (l : entries) :
  Permutation (insert_item x l) (x :: l).
Proof.
  induction l as [|y l IH]; simpl; [reflexivity|].
  destruct (item_leb x y); [reflexivity|].
  rewrite IH. apply perm_swap.
Qed.

Lemma sorted_perm (l : entries) : Permutation (sorted l) l.
Proof.
  induction l as [|x l IH]; simpl; [reflexivity|].
  rewrite insert_item_perm. now constructor.
Qed.

Lemma sorted_forallb (p : string * list string -> bool) (l : entries) :
  forallb p l = true -> forallb p (sorted l) = true.
Proof.
  rewrite !forallb_forall. intros H x Hx. apply H.
  now apply (Permutation_in _ (sorted_perm l)).
Qed.

Lemma sorted_keys_nodup (l : entries) :
  NoDup (Dict.keys l) -> NoDup (Dict.keys (sorted l)).
Proof.
  unfold Dict.keys. intros H.
  apply (Permutation_NoDup (l := map fst l)); [|exact H].
  apply Permutation_map. symmetry. apply sorted_perm.
Qed.

Lemma sorted_nonempty (l : entries) : nonempty (sorted l) = nonempty l.
Proof.
  destruct l as [|x l]; [reflexivity|].
  pose proof (sorted_perm (x :: l)) as H.
  destruct (sorted (x :: l)); [|reflexivity].
  apply Permutation_nil in H. discriminate.
Qed.

Lemma filter_all {A : Type} (p : A -> bool) (l : list A) :
  forallb p l = true -> filter p l = l.
Proof.
  induction l as [|x l IH]; simpl; [reflexivity|].
  intros H. apply andb_true_iff in H. destruct H as [-> H]. now rewrite IH.
Qed.

Lemma get_key_perm (l1 l2 : entries) (k : string) :
  Permutation l1 l2 -> NoDup (Dict.keys l1) ->
  get_key l1 k = get_key l2 k.
Proof.
  unfold get_key, Dict.keys.
  induction 1 as [|[k0 v0] l1 l2 Hp IH|[k0 v0] [k1 v1] l|l1 l2 l3 Hp1 IH1 Hp2 IH2];
    intros Hnd; simpl in *.
  - reflexivity.
  - destruct (String.eqb k k0); [reflexivity|].
    apply IH. now inversion Hnd.
  - destruct (String.eqb_spec k k0) as [->|]; [|reflexivity].
    destruct (String.eqb_spec k0 k1) as [->|]; [|reflexivity].
    inversion Hnd as [|? ? Hin _]. exfalso. apply Hin. now left.
  - rewrite IH1 by exact Hnd. apply IH2.
    apply (Permutation_NoDup (l := map fst l1)); [|exact Hnd].
    now apply Permutation_map.
Qed.

(** *** Storing the entries of a table *)

Lemma get_section_app_last (acc : table) (s : option string) (e : entries) :
  ~ In s (Dict.keys acc) -> get_section (acc ++ [(s, e)]) s = Some e.
Proof.
  unfold get_section. induction acc as [|[s0 e0] acc IH]; simpl; intros H.
  - destruct (opt_eqb_spec s s); congruence.
  - destruct (opt_eqb_spec s s0) as [->|_].
    + exfalso. apply H. now left.
    + apply IH. intros Hin. apply H. now right.
Qed.

Lemma set_section_app_last (acc : table) (s : option string)
  (e e' : entries) :
  ~ In s (Dict.keys acc) ->
  Dict.set opt_eqb (acc ++ [(s, e)]) s e' = acc ++ [(s, e')].
Proof.
  induction acc as [|[s0 e0] acc IH]; simpl; intros H.
  - destruct (opt_eqb_spec s s); congruence.
  - destruct (opt_eqb_spec s s0) as [->|_].
    + exfalso. apply H. now left.
    + rewrite IH; [reflexivity|]. intros Hin. apply H. now right.
Qed.

Lemma fold_store_section_tail (es : entries) (acc : table)
  (s : option string) (e0 : entries) :
  ~ In s (Dict.keys acc) -> NoDup (Dict.keys (e0 ++ es)) ->
  fold_left store
    (map (fun kv : string * list string => (s, fst kv, snd kv)) es)
    (acc ++ [(s, e0)])
  = acc ++ [(s, e0 ++ es)].
Proof.
  intros Hs. revert e0.
  induction es as [|[k vs] es IH]; intros e0 Hnd; cbn [map fold_left fst snd].
  - now rewrite app_nil_r.
  - unfold store at 2. rewrite (get_section_app_last acc s e0 Hs).
    rewrite (set_section_app_last acc s e0 _ Hs).
    assert (Hk : Dict.get String.eqb e0 k = None).
    { apply (dict_get_none_notin String.eqb_spec). intros Hin.
      unfold Dict.keys in Hnd, Hin. rewrite map_app in Hnd.
      apply NoDup_remove_2 in Hnd. apply Hnd.
      apply in_or_app. now left. }
    rewrite (dict_set_absent String.eqb_spec e0 k vs Hk).
    rewrite IH.
    + now rewrite <- app_assoc.
    + now rewrite <- app_assoc.
Qed.

Lemma fold_store_flatten (t acc : table) :
  NoDup (Dict.keys (acc ++ t)) ->
  Forall (fun se : option string * entries =>
            nonempty (snd se) = true /\ NoDup (Dict.keys (snd se))) t ->
  fold_left store (flatten t) acc = acc ++ t.
Proof.
  revert acc. induction t as [|[s es] t IH]; intros acc Hnd Ht.
  - simpl. now rewrite app_nil_r.
  - inversion Ht as [|? ? [Hne Hes] Ht']; subst. cbn [fst snd] in *.
    unfold flatten. cbn [flat_map fst snd]. rewrite fold_left_app.
    fold (flatten t).
    destruct es as [|[k vs] es]; [discriminate|].
    cbn [map fold_left fst snd].
    assert (Hs : ~ In s (Dict.keys acc)).
    { unfold Dict.keys in *. rewrite map_app in Hnd. simpl in Hnd.
      apply NoDup_remove_2 in Hnd. intros Hin. apply Hnd.
      apply in_or_app. now left. }
    assert (Hget : get_section acc s = None).
    { now apply (dict_get_none_notin opt_eqb_spec). }
    unfold store at 3. rewrite Hget.
    rewrite (dict_set_absent opt_eqb_spec acc s _ Hget).
    pose proof (fold_store_section_tail es acc s [(k, vs)] Hs Hes) as Hf.
    unfold entries, table, file_entry in *. rewrite Hf.
    rewrite IH.
    + now rewrite <- app_assoc.
    + now rewrite <- app_assoc.
    + exact Ht'.
Qed.

(** *** The entries of the written lines *)

Lemma entries_from_entry_lines (es : entries) (section : option string)
  (rest : list string) :
  forallb entry_ok es = true ->
  forallb (fun kv : string * list string => nonempty (snd kv)) es = true ->
  entries_from section (map format_entry es ++ rest)
  = map (fun kv : string * list string => (section, fst kv, snd kv)) es
    ++ entries_from section rest.
Proof.
  induction es as [|[k vs] es IH]; intros Hok Hne; [reflexivity|].
  cbn [forallb] in Hok, Hne.
  apply andb_true_iff in Hok. destruct Hok as [Hkv Hok].
  apply andb_true_iff in Hne. destruct Hne as [Hvs Hne].
  unfold entry_ok in Hkv. cbn [fst snd] in Hkv, Hvs.
  apply andb_true_iff in Hkv. destruct Hkv as [Hk Hv].
  cbn [map app entries_from].
  rewrite classify_format_entry; [|exact Hk| |exact Hv].
  - cbn [fst snd]. now rewrite IH.
  - destruct vs; [discriminate|discriminate].
Qed.

Lemma entries_from_section_lines (s : string) (es : entries)
  (section : option string) (rest : list string) :
  forallb entry_ok es = true ->
  forallb (fun kv : string * list string => nonempty (snd kv)) es = true ->
  entries_from section (section_lines (Some s, es) ++ rest)
  = map (fun kv : string * list string => (Some s, fst kv, snd kv)) (sorted es)
    ++ entries_from (Some s) rest.
Proof.
  intros Hok Hne. unfold section_lines. cbn [fst snd app entries_from].
  rewrite classify_format_section.
  rewrite (filter_all _ (sorted es)) by now apply sorted_forallb.
  apply entries_from_entry_lines; now apply sorted_forallb.
Qed.

Lemma nodup_keys_filter {K V : Type} (p : K * V -> bool) (l : list (K * V)) :
  NoDup (Dict.keys l) -> NoDup (Dict.keys (filter p l)).
Proof.
  unfold Dict.keys. induction l as [|[k v] l IH]; simpl; intros H; [exact H|].
  inversion H as [|? ? Hin Hnd]; subst.
  destruct (p (k, v)); simpl; [|now apply IH].
  constructor; [|now apply IH].
  intros Hk. apply Hin. apply in_map_iff in Hk.
  destruct Hk as (x & Hx & Hf). apply filter_In in Hf.
  apply in_map_iff. exists x. tauto.
Qed.

Lemma forallb_filter_same {A : Type} (p : A -> bool) (l : list A) :
  forallb p (filter p l) = true.
Proof.
  apply forallb_forall. intros x Hx. now apply filter_In in Hx.
Qed.

Lemma remove_empty_pruned (t : table) :
  dict_wf t ->
  NoDup (Dict.keys (remove_empty_associations t))
  /\ Forall pruned_section (remove_empty_associations t).
Proof.
  intros [Hs He]. unfold remove_empty_associations. split.
  - apply nodup_keys_filter. unfold Dict.keys in *.
    now rewrite map_map.
  - apply Forall_forall. intros [s es] Hin.
    apply filter_In in Hin. destruct Hin as [Hin Hne].
    apply in_map_iff in Hin. destruct Hin as ([s0 es0] & Heq & Hin0).
    injection Heq as <- <-. cbn [fst snd] in *.
    repeat split.
    + exact Hne.
    + apply forallb_filter_same.
    + apply nodup_keys_filter.
      rewrite Forall_forall in He. exact (He _ Hin0).
Qed.

Lemma entries_from_table_lines (n : table) (section : option string)
  (rest : list string) :
  table_ok n = true -> Forall pruned_section n ->
  (forall sec, entries_from sec rest = []) ->
  entries_from section (flat_map section_lines n ++ rest)
  = flatten (map (fun se : option string * entries =>
                    (fst se, sorted (snd se))) n).
Proof.
  intros Hok Hp Hrest. revert section.
  induction Hp as [|[s es] n (Hne & Hvs & Hnd) Hp IH]; intros section.
  - simpl. apply Hrest.
  - cbn [table_ok forallb fst snd] in Hok.
    apply andb_true_iff in Hok. destruct Hok as [Hse Hok].
    apply andb_true_iff in Hse. destruct Hse as [Hs Hes].
    destruct s as [s|]; [|discriminate].
    cbn [flat_map]. rewrite <- app_assoc.
    rewrite (entries_from_section_lines s es section _ Hes Hvs).
    rewrite (IH Hok). reflexivity.
Qed.

(** *** The written text is made of lines *)

Lemma no_newline_app (a b : string) :
  no_newline (a ++ b) = no_newline a && no_newline b.
Proof.
  unfold no_newline. rewrite !mem_app, !negb_orb.
  destruct (Str.mem Str.nl a), (Str.mem Str.cr a), (Str.mem Str.nl b);
    reflexivity.
Qed.

Lemma no_newline_join (vs : list string) :
  forallb no_newline vs = true -> no_newline (Str.join ";" vs) = true.
Proof.
  induction vs as [|v vs IH]; [reflexivity|]. cbn [forallb]. intros H.
  apply andb_true_iff in H. destruct H as [Hv Hvs].
  destruct vs as [|w vs]; [exact Hv|].
  change (Str.join ";" (v :: w :: vs))
    with (v ++ ";" ++ Str.join ";" (w :: vs))%string.
  rewrite !no_newline_app, Hv, (IH Hvs). reflexivity.
Qed.

Lemma is_line_format_section (s : string) :
  no_newline s = true -> is_line (format_section (Some s)).
Proof.
  intros Hs. exists ("[" ++ s ++ "]")%string. split.
  - unfold format_section. now rewrite !append_assoc.
  - now rewrite !no_newline_app, Hs.
Qed.

Lemma is_line_format_entry (kv : string * list string) :
  entry_ok kv = true -> is_line (format_entry kv).
Proof.
  destruct kv as [k vs]. unfold entry_ok. cbn [fst snd]. intros H.
  apply andb_true_iff in H. destruct H as [Hk Hvs].
  destruct (key_ok_parts k Hk) as (Hnk & _).
  exists (k ++ "=" ++ Str.join ";" vs ++ ";")%string. split.
  - unfold format_entry. cbn [fst snd]. now rewrite !append_assoc.
  - rewrite !no_newline_app, Hnk. cbn [andb].
    rewrite no_newline_join; [reflexivity|].
    apply forallb_forall. intros v Hv.
    rewrite forallb_forall in Hvs.
    now destruct (value_ok_parts v (Hvs v Hv)) as (_ & Hn & _).
Qed.

Lemma is_line_blank : is_line NL.
Proof. exists ""%string. now split. Qed.

Lemma section_lines_are_lines (s : string) (es : entries) :
  no_newline s = true -> forallb entry_ok es = true ->
  Forall is_line (section_lines (Some s, es)).
Proof.
  intros Hs Hes. unfold section_lines. cbn [fst snd]. constructor.
  - now apply is_line_format_section.
  - apply Forall_forall. intros l Hl. apply in_map_iff in Hl.
    destruct Hl as (kv & <- & Hkv). apply filter_In in Hkv.
    apply is_line_format_entry.
    pose proof (sorted_forallb entry_ok es Hes) as Hsorted.
    rewrite forallb_forall in Hsorted. now apply Hsorted.
Qed.

Lemma table_lines_are_lines (n : table) :
  table_ok n = true -> Forall is_line (flat_map section_lines n).
Proof.
  induction n as [|[s es] n IH]; intros Hok; [constructor|].
  cbn [table_ok forallb fst snd] in Hok.
  apply andb_true_iff in Hok. destruct Hok as [Hse Hok].
  apply andb_true_iff in Hse. destruct Hse as [Hs Hes].
  destruct s as [s|]; [|discriminate].
  cbn [flat_map]. apply Forall_app. split.
  - now apply section_lines_are_lines.
  - now apply IH.
Qed.

Lemma write_section_lines (se : option string * entries) :
  nonempty (snd se) = true ->
  write_section se = String.concat "" (section_lines se).
Proof.
  intros Hne. unfold write_section, section_lines. rewrite Hne.
  now rewrite concat_empty_cons.
Qed.

Lemma associations_text_lines (n : table) :
  Forall pruned_section n ->
  associations_text n
  = String.concat ""
      (flat_map section_lines n
       ++ if (1 <? List.length n)%nat then [NL] else []).
Proof.
  intros Hp. unfold associations_text. rewrite concat_empty_app.
  replace (String.concat "" (if (1 <? List.length n)%nat then [NL] else []))
    with (if (1 <? List.length n)%nat then NL else "")
    by (now destruct (1 <? List.length n)%nat).
  f_equal.
  induction Hp as [|se n (Hne & _) Hp IH]; [reflexivity|].
  cbn [map flat_map]. rewrite concat_empty_cons, concat_empty_app.
  now rewrite IH, (write_section_lines se Hne).
Qed.

(** *** Saving and loading *)

Lemma parse_written_text (n : table) :
  table_ok n = true -> NoDup (Dict.keys n) -> Forall pruned_section n ->
  parse_associations (file_lines (associations_text n))
  = map (fun se : option string * entries => (fst se, sorted (snd se))) n.
Proof.
  intros Hok Hnd Hp.
  rewrite (associations_text_lines n Hp).
  rewrite file_lines_concat.
  - rewrite parse_associations_store. unfold file_entries.
    rewrite (entries_from_table_lines n None _ Hok Hp).
    + apply (fold_store_flatten _ []).
      * cbn [app]. unfold Dict.keys in *. now rewrite map_map.
      * apply Forall_forall. intros [s es] Hin.
        apply in_map_iff in Hin. destruct Hin as ([s0 es0] & Heq & Hin).
        injection Heq as <- <-. cbn [fst snd].
        rewrite Forall_forall in Hp.
        destruct (Hp _ Hin) as (Hne & _ & Hk). cbn [fst snd] in *.
        split; [now rewrite sorted_nonempty|now apply sorted_keys_nodup].
    + intros sec. now destruct (1 <? List.length n)%nat.
  - apply Forall_app. split; [now apply table_lines_are_lines|].
    destruct (1 <? List.length n)%nat; repeat constructor.
    apply is_line_blank.
Qed.

Lemma lookup_sorted (n : table) (section : option string) (key : string) :
  Forall pruned_section n ->
  lookup (map (fun se : option string * entries => (fst se, sorted (snd se)))
              n) section key
  = lookup n section key.
Proof.
  intros Hp. unfold lookup, get_section.
  induction Hp as [|[s es] n (_ & _ & Hk) Hp IH]; [reflexivity|].
  cbn [map Dict.get fst snd] in *.
  destruct (opt_eqb section s); [|exact IH].
  symmetry. apply get_key_perm; [|exact Hk].
  symmetry. apply sorted_perm.
Qed.

(** C4, as the code has it: for a path with a directory part and a table
    whose section names, keys and values can be written on a line and
    read back (no line break inside; keys without an equals sign, without
    white space at their ends and without a number sign at their start;
    values not empty, without a semicolon, a slash or white space at
    their ends), saving the table to the path succeeds, and loading the
    path afterwards gives the table without its empty entries and
    sections, the sections in the order of the table and the keys of each
    section in sorted order; every section and key of the pruned table
    has the same list of values after the reload. *)
Theorem save_load_roundtrip (fs : filesystem) (path : string) (t : table) :
  Str.dirname path <> "" ->
  dict_wf t -> table_ok (remove_empty_associations t) = true ->
  exists fs',
    save_associations fs path t = Return fs'
    /\ load_associations fs' path = normalized t
    /\ forall section key,
         lookup (load_associations fs' path) section key
         = lookup (remove_empty_associations t) section key.
Proof.
  intros Hdir Hwf Hok.
  destruct (remove_empty_pruned t Hwf) as [Hnd Hp].
  assert (Hsave : exists fs',
             save_associations fs path t = Return fs'
             /\ load_associations fs' path = normalized t).
  { unfold load_associations, save_associations, normalized.
    destruct (remove_empty_associations t) as [|se n] eqn:En.
    - cbn [nonempty]. eexists. split; [reflexivity|].
      unfold fs_remove. now rewrite String.eqb_refl.
    - cbn [nonempty].
      destruct (Str.dirname path) as [|c r] eqn:Ed; [now elim Hdir|].
      cbn [Str.is_empty]. eexists. split; [reflexivity|].
      unfold fs_write. rewrite String.eqb_refl.
      now apply parse_written_text. }
  destruct Hsave as (fs' & Hsave & Hload).
  exists fs'. split; [exact Hsave|]. split; [exact Hload|].
  intros section key. rewrite Hload. now apply lookup_sorted.
Qed.

Lemma save_load_roundtrip_witness :
  exists fs',
    save_associations no_files "/home/u/.config/mimeapps.list" sample_table
    = Return fs'
    /\ load_associations fs' "/home/u/.config/mimeapps.list"
       = normalized sample_table.
Proof.
  assert (Hdir : Str.dirname "/home/u/.config/mimeapps.list" <> "")
    by discriminate.
  assert (Hwf : dict_wf sample_table).
  { split; repeat constructor; simpl; intuition discriminate. }
  destruct (save_load_roundtrip no_files "/home/u/.config/mimeapps.list"
              sample_table Hdir Hwf eq_refl)
    as (fs' & Hsave & Hload & _).
  exists fs'. now split.
Defined.

Example save_load_sample_table :
  normalized sample_table
  = [(Some "Added Associations",
      [("image/png", ["gimp.desktop"]);
       ("text/plain", ["vim.desktop"; "emacs.desktop"])]);
     (Some "Removed Associations", [("text/html", ["lynx.desktop"])])]
  /\ bind (save_associations no_files "/home/u/.config/mimeapps.list"
             sample_table)
          (fun fs' =>
             Return (load_associations fs' "/home/u/.config/mimeapps.list"))
     = Return (normalized sample_table).
Proof. split; reflexivity. Qed.

Example save_bare_file_name :
  save_associations no_files "mimeapps.list" sample_table
  = Raise (FileNotFoundError "").
Proof. reflexivity. Qed.

(** C4 as it is stated fails for a key with an equals sign, such as a
    MIME-type with a parameter, although its value is a plain desktop
    file name: the line is split at the first equals sign, which is in
    the key. *)
Lemma save_load_parameter_key :
  bind (save_associations no_files "/home/u/.config/mimeapps.list"
          sample_parameter_table)
       (fun fs' =>
          Return (load_associations fs' "/home/u/.config/mimeapps.list"))
  = Return [(Some "Added Associations",
             [("text/plain;charset", ["utf-8=vim.desktop"])])]
  /\ lookup sample_parameter_table
            (Some "Added Associations") "text/plain;charset=utf-8"
     = Some ["vim.desktop"]
  /\ lookup [(Some "Added Associations",
              [("text/plain;charset", ["utf-8=vim.desktop"])])]
            (Some "Added Associations") "text/plain;charset=utf-8"
     = None.
Proof. repeat split. Qed.

(** ** The resolver *)

Lemma mem_str_In (x : string) (l : list string) :
  mem_str x l = true <-> In x l.
Proof.
  unfold mem_str. rewrite existsb_exists. split.
  - intros (y & Hy & E). apply String.eqb_eq in E. now subst.
  - intros H. exists x. split; [exact H|apply String.eqb_refl].
Qed.

Lemma mem_str_false (x : string) (l : list string) :
  mem_str x l = false <-> ~ In x l.
Proof.
  rewrite <- mem_str_In. destruct (mem_str x l); intuition congruence.
Qed.

Lemma resolve_from_trace (env : environment) (mimetype : string)
  (paths : list string) (st : resolver_state) :
  resolve_from env mimetype st paths
  = (flat_map (fun pc : string * list string =>
                 source_paths env (fst pc) (snd pc))
              (candidates_from env mimetype st paths),
     fold_left (merge_source env mimetype) paths st).
Proof.
  revert st. induction paths as [|path rest IH]; intros st; [reflexivity|].
  cbn [resolve_from candidates_from flat_map fold_left fst snd].
  now rewrite IH.
Qed.

(** Whatever [extend_added] appends is outside the blacklist. *)
Lemma extend_added_disjoint (bl items acc : list string) :
  (forall a, In a acc -> ~ In a bl) ->
  forall a, In a (extend_added bl acc items) -> ~ In a bl.
Proof.
  revert acc. induction items as [|x items IH]; intros acc Hacc; [exact Hacc|].
  cbn [extend_added].
  destruct (mem_str x bl) eqn:Eb; cbn [negb andb]; [now apply IH|].
  destruct (mem_str x acc); cbn [negb]; [now apply IH|].
  apply IH. intros a Ha. apply in_app_or in Ha.
  destruct Ha as [Ha|[<-|[]]]; [now apply Hacc|now apply mem_str_false].
Qed.

(** After a file is merged no added association is blacklisted. *)
Lemma merge_source_disjoint (env : environment) (mimetype : string)
  (st : resolver_state) (path : string) :
  forall a, In a (added (merge_source env mimetype st path)) ->
            ~ In a (blacklist (merge_source env mimetype st path)).
Proof.
  unfold merge_source. cbn [added blacklist].
  apply extend_added_disjoint.
  intros a Ha. apply filter_In in Ha. destruct Ha as [_ Ha].
  apply negb_true_iff in Ha. now apply mem_str_false.
Qed.

(** The blacklist only grows. *)
Lemma merge_source_blacklist (env : environment) (mimetype : string)
  (st : resolver_state) (path d : string) :
  In d (blacklist st)
  \/ In d (iterate_associations (get_associations env path)
             REMOVED_ASSOCIATIONS_SECTION mimetype) ->
  In d (blacklist (merge_source env mimetype st path)).
Proof. unfold merge_source. cbn [blacklist]. apply in_or_app. Qed.

Lemma local_associations_blacklisted (env : environment) (mimetype : string)
  (st : resolver_state) (path d : string) :
  In d (blacklist st) -> ~ In d (added st) ->
  ~ In d (local_associations env mimetype st path).
Proof.
  intros Hb Ha. unfold local_associations. intros H.
  apply in_app_or in H. destruct H as [H|H]; [contradiction|].
  apply filter_In in H. destruct H as [_ H].
  apply andb_true_iff in H. destruct H as [H _].
  apply negb_true_iff in H. now apply mem_str_false in H.
Qed.

(** Once an identifier is blacklisted no later candidate list has it. *)
Lemma candidates_from_blacklisted (env : environment) (mimetype : string)
  (paths : list string) (st : resolver_state) (d : string) :
  In d (blacklist st) ->
  forall pc, In pc (candidates_from env mimetype st paths) -> ~ In d (snd pc).
Proof.
  revert st. induction paths as [|path rest IH]; intros st Hb pc Hin;
    [destruct Hin|].
  cbn [candidates_from] in Hin.
  assert (Hb' : In d (blacklist (merge_source env mimetype st path)))
    by (apply merge_source_blacklist; now left).
  destruct Hin as [<-|Hin]; [|now apply (IH _ Hb')].
  cbn [snd]. apply local_associations_blacklisted; [exact Hb'|].
  intros Ha. now apply (merge_source_disjoint env mimetype st path d).
Qed.

Lemma final_blacklisted (env : environment) (mimetype : string)
  (paths : list string) (st : resolver_state) (d : string) :
  In d (blacklist st) -> ~ In d (added st) ->
  In d (blacklist (fold_left (merge_source env mimetype) paths st))
  /\ ~ In d (added (fold_left (merge_source env mimetype) paths st)).
Proof.
  revert st. induction paths as [|path rest IH]; intros st Hb Ha;
    [now split|].
  cbn [fold_left].
  assert (Hb' : In d (blacklist (merge_source env mimetype st path)))
    by (apply merge_source_blacklist; now left).
  apply IH; [exact Hb'|].
  intros H. now apply (merge_source_disjoint env mimetype st path d).
Qed.

Lemma candidates_from_app (env : environment) (mimetype : string)
  (pre rest : list string) (st : resolver_state) :
  candidates_from env mimetype st (pre ++ rest)
  = candidates_from env mimetype st pre
    ++ candidates_from env mimetype
         (fold_left (merge_source env mimetype) pre st) rest.
Proof.
  revert st. induction pre as [|p pre IH]; intros st; [reflexivity|].
  cbn [app candidates_from fold_left]. now rewrite IH.
Qed.

Lemma candidates_from_length (env : environment) (mimetype : string)
  (paths : list string) (st : resolver_state) :
  List.length (candidates_from env mimetype st paths) = List.length paths.
Proof.
  revert st. induction paths as [|p paths IH]; intros st; [reflexivity|].
  cbn [candidates_from List.length]. now rewrite IH.
Qed.

Lemma skipn_length_app {A : Type} (l1 l2 : list A) :
  skipn (List.length l1) (l1 ++ l2) = l2.
Proof. induction l1 as [|x l1 IH]; [reflexivity|exact IH]. Qed.

Lemma candidates_from_paths (env : environment) (mimetype : string)
  (paths : list string) (st : resolver_state) (pc : string * list string) :
  In pc (candidates_from env mimetype st paths) -> In (fst pc) paths.
Proof.
  revert st. induction paths as [|p paths IH]; intros st Hin;
    [destruct Hin|].
  cbn [candidates_from] in Hin. destruct Hin as [<-|Hin].
  - now left.
  - right. exact (IH _ Hin).
Qed.

(** A path that is yielded for a file comes from one of its candidates,
    and exists. *)
Lemma source_paths_inv (env : environment) (path : string)
  (candidates : list string) (fpath : string) :
  In fpath (source_paths env path candidates) ->
  exists c, In c candidates
            /\ fpath = Str.path_join (Str.dirname path) c
            /\ path_exists env fpath = true.
Proof.
  unfold source_paths. intros H. apply filter_In in H.
  destruct H as [H He]. apply in_map_iff in H.
  destruct H as (c & <- & Hc). eauto.
Qed.

(** C1, as the code has it: when an association file removes the desktop
    identifier [d] for the MIME-type, the candidate list of that file and
    of every later file leaves [d] out, and so does the list of added
    associations at the end, whether an earlier or a later file adds [d]:
    the blacklist only grows.  The paths that the resolver yields are the
    existing paths of the candidates of each file in turn: first those of
    the files before the removing one, which stay, then those of the
    removing file and of the later ones, and each of these is the path,
    in the directory of its file, of a candidate other than [d]. *)
Theorem removed_excluded_from_then_on (env : environment)
  (mimetype : string) (pre : list string) (path : string)
  (post : list string) (d : string) :
  mimeapps_list_paths env = pre ++ path :: post ->
  In d (iterate_associations (get_associations env path)
          REMOVED_ASSOCIATIONS_SECTION mimetype) ->
  associated_desktop_paths env mimetype
  = flat_map (fun pc : string * list string =>
                source_paths env (fst pc) (snd pc))
             (firstn (List.length pre) (candidates env mimetype))
    ++ flat_map (fun pc : string * list string =>
                   source_paths env (fst pc) (snd pc))
                (skipn (List.length pre) (candidates env mimetype))
  /\ (forall pc,
        In pc (skipn (List.length pre) (candidates env mimetype)) ->
        ~ In d (snd pc))
  /\ (forall fpath,
        In fpath
           (flat_map (fun pc : string * list string =>
                        source_paths env (fst pc) (snd pc))
                     (skipn (List.length pre) (candidates env mimetype))) ->
        exists p c,
          In p (path :: post) /\ c <> d
          /\ fpath = Str.path_join (Str.dirname p) c
          /\ path_exists env fpath = true)
  /\ ~ In d (added (final_state env mimetype)).
Proof.
  intros Hpaths Hrem.
  unfold associated_desktop_paths, candidates, final_state.
  rewrite resolve_from_trace. cbn [fst snd]. rewrite Hpaths.
  split.
  { rewrite <- flat_map_app. now rewrite firstn_skipn. }
  set (st0 := fold_left (merge_source env mimetype) pre initial_state).
  assert (Hb : In d (blacklist (merge_source env mimetype st0 path)))
    by (apply merge_source_blacklist; now right).
  assert (Ha : ~ In d (added (merge_source env mimetype st0 path))).
  { intros H. now apply (merge_source_disjoint env mimetype st0 path d). }
  assert (Hskip : skipn (List.length pre)
                    (candidates_from env mimetype initial_state
                       (pre ++ path :: post))
                  = candidates_from env mimetype st0 (path :: post)).
  { rewrite candidates_from_app.
    rewrite <- (candidates_from_length env mimetype pre initial_state).
    now rewrite skipn_length_app. }
  rewrite Hskip.
  assert (Hout : forall pc,
             In pc (candidates_from env mimetype st0 (path :: post)) ->
             ~ In d (snd pc)).
  { cbn [candidates_from]. intros pc [<-|Hin].
    - cbn [snd]. now apply local_associations_blacklisted.
    - now apply (candidates_from_blacklisted env mimetype post _ d Hb). }
  split; [exact Hout|]. split.
  - intros fpath Hin. apply in_flat_map in Hin.
    destruct Hin as (pc & Hpc & Hf).
    destruct (source_paths_inv env (fst pc) (snd pc) fpath Hf)
      as (c & Hc & E & Hex).
    exists (fst pc), c. split.
    + exact (candidates_from_paths env mimetype (path :: post) st0 pc Hpc).
    + split; [|now split].
      intros ->. exact (Hout pc Hpc Hc).
  - rewrite fold_left_app. fold st0. cbn [fold_left].
    now apply final_blacklisted.
Qed.

Lemma removed_excluded_from_then_on_witness :
  candidates sample_env "text/plain"
  = [("/usr/local/share/applications/mimeapps.list", ["vim.desktop"]);
     ("/usr/share/applications/mimeapps.list", [])]
  /\ (forall pc,
        In pc (skipn 1 (candidates sample_env "text/plain")) ->
        ~ In "vim.desktop" (snd pc))
  /\ (forall fpath,
        In fpath
           (flat_map (fun pc : string * list string =>
                        source_paths sample_env (fst pc) (snd pc))
                     (skipn 1 (candidates sample_env "text/plain"))) ->
        exists p c,
          In p ["/usr/share/applications/mimeapps.list"]
          /\ c <> "vim.desktop"
          /\ fpath = Str.path_join (Str.dirname p) c
          /\ path_exists sample_env fpath = true)
  /\ ~ In "vim.desktop" (added (final_state sample_env "text/plain")).
Proof.
  split; [reflexivity|].
  exact (proj2
    (removed_excluded_from_then_on sample_env "text/plain"
       ["/usr/local/share/applications/mimeapps.list"]
       "/usr/share/applications/mimeapps.list" [] "vim.desktop"
       eq_refl (or_introl eq_refl))).
Defined.

(** C1 as it is stated fails for an identifier added by an earlier file
    and removed by a later one: the earlier file has it among its
    candidates, and its path in the directory of that file is yielded
    before the later file is read. *)
Lemma earlier_addition_is_yielded :
  In "vim.desktop"
     (iterate_associations
        (get_associations sample_env
           "/usr/local/share/applications/mimeapps.list")
        ADDED_ASSOCIATIONS_SECTION "text/plain")
  /\ In "vim.desktop"
        (iterate_associations
           (get_associations sample_env
              "/usr/share/applications/mimeapps.list")
           REMOVED_ASSOCIATIONS_SECTION "text/plain")
  /\ candidates sample_env "text/plain"
     = [("/usr/local/share/applications/mimeapps.list", ["vim.desktop"]);
        ("/usr/share/applications/mimeapps.list", [])]
  /\ associated_desktop_paths sample_env "text/plain"
     = ["/usr/local/share/applications/vim.desktop"]
  /\ mimetype_to_desktop_filepaths sample_env "text/plain" false false true
     = Return [Some "/usr/local/share/applications/vim.desktop"].
Proof. repeat split; try reflexivity; now left. Qed.

Example removed_first_added_later :
  associated_desktop_paths sample_env_reversed "text/plain" = []
  /\ added (final_state sample_env_reversed "text/plain") = []
  /\ blacklist (final_state sample_env_reversed "text/plain")
     = ["vim.desktop"].
Proof. repeat split. Qed.

(** The file that adds and the file that removes can be in one directory:
    the path of [vim.desktop] in that directory is yielded for the first
    of the two, and nothing is yielded for the second. *)
Example removing_file_in_the_same_directory :
  Str.dirname "/etc/xdg/gnome-mimeapps.list"
  = Str.dirname "/etc/xdg/mimeapps.list"
  /\ candidates shared_dir_env "text/plain"
     = [("/etc/xdg/gnome-mimeapps.list", ["vim.desktop"]);
        ("/etc/xdg/mimeapps.list", [])]
  /\ associated_desktop_paths shared_dir_env "text/plain"
     = ["/etc/xdg/vim.desktop"].
Proof. repeat split. Qed.

(** ** The terminal command *)

Lemma interpolate_word_plain (app_cmd_word word iword : string) :
  Str.mem "%" word = false ->
  interpolate_word app_cmd_word iword false word = (iword ++ word)%string.
Proof.
  revert iword. induction word as [|c r IH]; intros iword.
  - intros _. simpl. now rewrite append_nil_r.
  - rewrite mem_cons. intros H. apply orb_false_iff in H.
    destruct H as [Hc Hr]. cbn [interpolate_word].
    rewrite Ascii.eqb_sym, Hc. rewrite (IH _ Hr).
    unfold Shlex.push. now rewrite append_assoc.
Qed.

Lemma interpolate_term_word_plain (app_cmd : list string) (word : string) :
  Str.mem "%" word = false -> interpolate_term_word app_cmd word = [word].
Proof.
  intros H. unfold interpolate_term_word.
  destruct (String.eqb_spec word TERM_COMMAND_PLACEHOLDER) as [->|_];
    [discriminate|].
  destruct (String.eqb_spec word
              (Shlex.SQ ++ TERM_COMMAND_PLACEHOLDER ++ Shlex.SQ)) as [->|_];
    [discriminate|].
  now rewrite (interpolate_word_plain _ word "" H).
Qed.

Lemma interpolate_term_words_plain (app_cmd words : list string) :
  forallb (fun w => negb (Str.mem "%" w)) words = true ->
  flat_map (interpolate_term_word app_cmd) words = words.
Proof.
  induction words as [|w words IH]; [reflexivity|].
  cbn [forallb]. intros H. apply andb_true_iff in H.
  destruct H as [Hw Hws]. apply negb_true_iff in Hw.
  cbn [flat_map]. rewrite (interpolate_term_word_plain app_cmd w Hw).
  cbn [app]. now rewrite (IH Hws).
Qed.

(** A terminal command without any percent sign, so without the
    placeholder, comes out as its own words, whatever the application
    command is. *)
Lemma term_cmd_plain (term_cmd : string) (words app_cmd : list string) :
  Shlex.split term_cmd = Return words ->
  forallb (fun w => negb (Str.mem "%" w)) words = true ->
  interpolate_term_cmd term_cmd app_cmd = Return words.
Proof.
  intros Hsplit Hplain. unfold interpolate_term_cmd. rewrite Hsplit.
  cbn [bind]. now rewrite (interpolate_term_words_plain app_cmd words Hplain).
Qed.

(** C2 fails on the code: for the terminal command [urxvt -e], which has
    no placeholder, and the application command [vim notes.txt],
    [interpolate_term_cmd] yields the two words of the terminal command
    and nothing else; the words of the application command are not
    appended. *)
Theorem term_cmd_without_placeholder :
  interpolate_term_cmd "urxvt -e" ["vim"; "notes.txt"]
  = Return ["urxvt"; "-e"]
  /\ interpolate_term_cmd "urxvt -e" ["vim"; "notes.txt"]
     <> Return (["urxvt"; "-e"] ++ ["vim"; "notes.txt"]).
Proof.
  rewrite (term_cmd_plain "urxvt -e" ["urxvt"; "-e"] ["vim"; "notes.txt"]
             eq_refl eq_refl).
  split; [reflexivity|discriminate].
Qed.

(** The placeholder itself is interpolated as the help text says. *)
Example term_cmd_with_placeholder :
  interpolate_term_cmd "urxvt -e %s" ["vim"; "my notes.txt"]
  = Return ["urxvt"; "-e"; "vim"; "my notes.txt"]
  /\ interpolate_term_cmd "xterm -e bash -c exec\ %s" ["vim"; "my notes.txt"]
     = Return ["xterm"; "-e"; "bash"; "-c"; "exec vim 'my notes.txt'"].
Proof. split; reflexivity. Qed.

(** ** Quoting the Exec value *)

Lemma join_items_words (i : nat) (cmd : list string) :
  join_items i (map Word cmd) = Return cmd.
Proof.
  revert i. induction cmd as [|w cmd IH]; intros i; [reflexivity|].
  cbn [map join_items]. now rewrite IH.
Qed.

(** The half of C3 that holds: a command without a reserved character in
    any word is written as its words joined by spaces. *)
Lemma exec_value_plain (cmd : list string) :
  forallb (fun w => negb (has_reserved w)) cmd = true ->
  exec_value cmd = Return (Str.join " " cmd).
Proof.
  intros H. unfold exec_value, py_join.
  replace (exec_quote_exec cmd) with (map Word cmd).
  - now rewrite join_items_words.
  - unfold exec_quote_exec. apply map_ext_in. intros w Hw.
    rewrite forallb_forall in H. specialize (H w Hw).
    apply negb_true_iff in H. now rewrite H.
Qed.

Lemma join_items_generator (items : list quoted_item) (i : nat) :
  existsb (fun it => match it with Generator _ => true | Word _ => false end)
          items = true ->
  exists j, join_items i items = Raise (TypeError j).
Proof.
  revert i. induction items as [|[w|g] items IH]; intros i H.
  - discriminate.
  - cbn [existsb orb] in H. destruct (IH (S i) H) as [j Hj].
    exists j. cbn [join_items]. now rewrite Hj.
  - now exists i.
Qed.

(** As soon as a word of the command has a reserved character, joining
    the items raises [TypeError]. *)
Lemma exec_value_reserved (cmd : list string) :
  existsb has_reserved cmd = true ->
  exists i, exec_value cmd = Raise (TypeError i).
Proof.
  intros H. unfold exec_value, py_join.
  destruct (join_items_generator (exec_quote_exec cmd) 0) as [j Hj].
  - unfold exec_quote_exec. rewrite existsb_exists in *.
    destruct H as (w & Hw & Hr).
    exists (if has_reserved w
            then Generator
                   (exec_quote_word
                      (Str.join ""
                         (map (fun c => String c EmptyString)
                              (list_ascii_of_string w))))
            else Word w).
    split; [|now rewrite Hr].
    apply in_map_iff. exists w. now split.
  - exists j. now rewrite Hj.
Qed.

(** C3 fails on the code: for the command [sh -c 'echo hi'], whose third
    word has a space, [exec_quote_exec] yields for that word the
    generator that [exec_quote_word] returns, not a string; joining the
    items raises [TypeError] at the third item, so
    [create_desktop_entry] raises and leaves the file empty. *)
Theorem exec_value_reserved_raises :
  has_reserved "echo hi" = true
  /\ exec_value ["sh"; "-c"; "echo hi"] = Raise (TypeError 2)
  /\ snd (create_desktop_entry no_files "/home/u/sh.desktop" "Shell"
            ["sh"; "-c"; "echo hi"] ["text/plain"] false)
     = Raise (TypeError 2)
  /\ fst (create_desktop_entry no_files "/home/u/sh.desktop" "Shell"
            ["sh"; "-c"; "echo hi"] ["text/plain"] false)
         "/home/u/sh.desktop"
     = Some "".
Proof. repeat split. Qed.

Example exec_value_without_reserved :
  exec_value ["vim"; "-p"] = Return "vim -p".
Proof. exact (exec_value_plain ["vim"; "-p"] eq_refl). Qed.

(** What the generator for a word would yield: the escaped characters
    are not kept, each is replaced by a backslash and the letter c. *)
Example exec_quote_word_escape :
  Str.join "" (exec_quote_word "a$b")
  = (Shlex.DQ ++ String "a" (String Str.backslash "cb") ++ Shlex.DQ)%string.
Proof. reflexivity. Qed.

(** ** Field codes *)

(** *** The codes of a template *)

Lemma replace_fuel_empty (n : nat) (old new : string) :
  Str.replace_fuel n old new "" = "".
Proof. destruct n; reflexivity. Qed.

(** Once the fuel covers the length, more of it changes nothing. *)
Lemma replace_fuel_percent_enough (n m : nat) (s : string) :
  String.length s <= n -> String.length s <= m ->
  Str.replace_fuel n "%%" "" s = Str.replace_fuel m "%%" "" s.
Proof.
  revert m s. induction n as [|n IH]; intros m s Hn Hm.
  - destruct s; [|simpl in Hn; lia]. now rewrite !replace_fuel_empty.
  - destruct s as [|a r]; [now rewrite !replace_fuel_empty|].
    destruct m as [|m]; [simpl in Hm; lia|].
    simpl in Hn, Hm. cbn [Str.replace_fuel].
    destruct (String.prefix "%%" (String a r)) eqn:Ep.
    + f_equal. cbn [String.length Str.drop].
      destruct r as [|b r']; [now rewrite !replace_fuel_empty|].
      cbn [Str.drop]. simpl in Hn, Hm. apply IH; lia.
    + f_equal. apply IH; lia.
Qed.

Lemma contains_cons (p : string) (a : ascii) (s : string) :
  Str.contains p (String a s) = String.prefix p (String a s) || Str.contains p s.
Proof. reflexivity. Qed.

(** The test of the source on a template, taken apart by the first
    characters of the template. *)
Lemma contains_code_scan (c : ascii) (n : nat) (s : string) :
  Ascii.eqb c "%" = false -> String.length s <= n ->
  Str.contains (String "%" (String c "")) (Str.replace_fuel n "%%" "" s)
  = existsb (Ascii.eqb c) (template_codes false s).
Proof.
  intros Hc. revert s. induction n as [|n IH]; intros s Hn.
  - destruct s; [reflexivity|simpl in Hn; lia].
  - destruct s as [|a r]; [reflexivity|]. simpl in Hn.
    cbn [Str.replace_fuel template_codes].
    destruct (Ascii.eqb_spec a "%") as [->|Ha].
    + destruct r as [|b r'].
      * cbn [String.prefix]. destruct (ascii_dec "%" "%"); [|congruence].
        rewrite replace_fuel_empty. reflexivity.
      * simpl in Hn. cbn [String.prefix template_codes].
        destruct (ascii_dec "%" "%") as [_|]; [|congruence].
        destruct (Ascii.eqb_spec b "%") as [->|Hb].
        -- destruct (ascii_dec "%" "%") as [_|]; [|congruence].
           replace (prefix "" r') with true by (now destruct r').
           cbn [String.length Str.drop String.append].
           apply IH. lia.
        -- destruct (ascii_dec "%" b) as [E|_]; [congruence|].
           destruct n as [|n']; [lia|].
           cbn [Str.replace_fuel String.prefix].
           destruct (ascii_dec "%" b) as [E|_]; [congruence|].
           rewrite contains_cons. cbn [String.prefix].
           destruct (ascii_dec "%" "%") as [_|]; [|congruence].
           rewrite contains_cons. cbn [String.prefix].
           destruct (ascii_dec "%" b) as [E|_]; [congruence|].
           cbn [orb existsb].
           rewrite (replace_fuel_percent_enough n' (S n') r') by lia.
           rewrite (IH r') by lia.
           destruct (ascii_dec c b) as [->|Hcb].
           ++ rewrite Ascii.eqb_refl.
              now destruct (Str.replace_fuel (S n') "%%" "" r').
           ++ destruct (Ascii.eqb_spec c b); [contradiction|reflexivity].
    + cbn [String.prefix].
      destruct (ascii_dec "%" a) as [E|_]; [congruence|].
      rewrite contains_cons. cbn [String.prefix].
      destruct (ascii_dec "%" a) as [E|_]; [congruence|].
      cbn [orb]. apply IH. lia.
Qed.

(** The codes that the source finds are the codes of the template as it
    is read. *)
Lemma exec_codes_argument_codes (exe : string) :
  exec_codes exe = argument_codes exe.
Proof.
  unfold exec_codes, argument_codes, Str.replace. cbn [Str.is_empty].
  apply filter_ext_in. intros c Hc.
  apply contains_code_scan; [|lia].
  cbn [list_ascii_of_string In] in Hc.
  destruct Hc as [<-|[<-|[<-|[<-|[]]]]]; reflexivity.
Qed.

(** *** Loops that may raise *)

Lemma map_result_app {A B : Type} (f : A -> result B) (l1 l2 : list A) :
  map_result f (l1 ++ l2)
  = (xs <- map_result f l1 ;; ys <- map_result f l2 ;; Return (xs ++ ys)).
Proof.
  induction l1 as [|x l1 IH]; cbn [app map_result bind].
  - now destruct (map_result f l2).
  - destruct (f x); cbn [bind]; [|reflexivity]. rewrite IH.
    destruct (map_result f l1); cbn [bind]; [|reflexivity].
    now destruct (map_result f l2).
Qed.

Lemma map_result_returns {A B : Type} (f : A -> result B) (g : A -> B)
  (l : list A) :
  (forall x, In x l -> f x = Return (g x)) ->
  map_result f l = Return (map g l).
Proof.
  induction l as [|x l IH]; intros H; [reflexivity|].
  cbn [map_result map]. rewrite (H x (or_introl eq_refl)). cbn [bind].
  rewrite IH; [reflexivity|]. intros y Hy. apply H. now right.
Qed.

Lemma concat_singletons {A : Type} (l : list A) :
  concat (map (fun x => [x]) l) = l.
Proof. induction l as [|x l IH]; [reflexivity|]. cbn. now rewrite IH. Qed.

(** *** Words without a percent sign *)

Lemma join_chars (w : string) :
  Str.join "" (map (fun c : ascii => String c EmptyString)
                   (list_ascii_of_string w)) = w.
Proof.
  induction w as [|c w IH]; [reflexivity|].
  cbn [list_ascii_of_string map]. unfold Str.join in *.
  rewrite concat_empty_cons, IH. reflexivity.
Qed.

Lemma parse_unexpandable_plain (codes : ascii -> option string) (w : string) :
  Str.mem "%" w = false ->
  parse_unexpandable_field_codes codes false w
  = map (fun c : ascii => String c EmptyString) (list_ascii_of_string w).
Proof.
  induction w as [|c w IH]; [reflexivity|].
  rewrite mem_cons. intros H. apply orb_false_iff in H. destruct H as [Hc Hw].
  cbn [parse_unexpandable_field_codes list_ascii_of_string map].
  rewrite Ascii.eqb_sym, Hc. now rewrite (IH Hw).
Qed.

Lemma not_code_word (w : string) (c : ascii) :
  Str.mem "%" w = false -> String.eqb w (String "%" (String c "")) = false.
Proof.
  intros H. apply String.eqb_neq. intros ->. discriminate H.
Qed.

(** A word without a percent sign comes out as it is, once the values of
    the first argument are there. *)
Lemma parse_field_codes_plain (ext : externals) (w name : string)
  (args : list string) (icon path : option string) (fu : string * string) :
  Str.mem "%" w = false ->
  first_argument ext args = Return fu ->
  parse_field_codes ext w name args icon path false = Return [w].
Proof.
  intros H Hfu. unfold parse_field_codes.
  rewrite (not_code_word w "i" H), (not_code_word w "F" H),
    (not_code_word w "U" H), (not_code_word w "f" H),
    (not_code_word w "u" H).
  cbn [orb andb]. rewrite Hfu. cbn [bind].
  rewrite (parse_unexpandable_plain _ w H), join_chars.
  cbn [negb orb]. now rewrite orb_true_r.
Qed.

Lemma map_result_plain (ext : externals) (name : string)
  (icon path : option string) (words aa : list string)
  (fu : string * string) :
  forallb (fun w => negb (Str.mem "%" w)) words = true ->
  first_argument ext aa = Return fu ->
  map_result (fun w => parse_field_codes ext w name aa icon path false) words
  = Return (map (fun w => [w]) words).
Proof.
  intros Hw Hfu. apply map_result_returns. intros w Hin.
  rewrite forallb_forall in Hw. specialize (Hw w Hin).
  apply negb_true_iff in Hw.
  exact (parse_field_codes_plain ext w name aa icon path fu Hw Hfu).
Qed.

(** The words around one word of the template. *)
Lemma build_cmd_at (ext : externals) (name : string)
  (icon path : option string) (pre post aa : list string) (w : string)
  (fu : string * string) (v : list string) :
  forallb (fun w => negb (Str.mem "%" w)) pre = true ->
  forallb (fun w => negb (Str.mem "%" w)) post = true ->
  first_argument ext aa = Return fu ->
  parse_field_codes ext w name aa icon path false = Return v ->
  build_cmd ext name icon path (pre ++ w :: post) aa
  = Return (pre ++ v ++ post).
Proof.
  intros Hpre Hpost Hfu Hw. unfold build_cmd.
  rewrite map_result_app.
  rewrite (map_result_plain ext name icon path pre aa fu Hpre Hfu).
  cbn [bind map_result]. rewrite Hw. cbn [bind].
  rewrite (map_result_plain ext name icon path post aa fu Hpost Hfu).
  cbn [bind]. rewrite concat_app. cbn [concat].
  now rewrite !concat_singletons.
Qed.

(** *** A word with one code *)

Lemma chars_app (x y : string) :
  list_ascii_of_string (x ++ y)
  = list_ascii_of_string x ++ list_ascii_of_string y.
Proof.
  induction x as [|c x IH]; [reflexivity|].
  cbn [String.append list_ascii_of_string app]. now rewrite IH.
Qed.

Lemma parse_unexpandable_one (codes : ascii -> option string)
  (x y v : string) (c : ascii) :
  Str.mem "%" x = false -> Str.mem "%" y = false -> codes c = Some v ->
  Str.join ""
    (parse_unexpandable_field_codes codes false
       (x ++ String "%" (String c y)))
  = (x ++ v ++ y)%string.
Proof.
  intros Hx Hy Hc. revert Hx. induction x as [|a x IH]; intros Hx.
  - cbn [String.append parse_unexpandable_field_codes Ascii.eqb Bool.eqb].
    cbn iota. rewrite Hc. unfold Str.join. rewrite concat_empty_cons.
    fold (Str.join "" (parse_unexpandable_field_codes codes false y)).
    now rewrite (parse_unexpandable_plain codes y Hy), join_chars.
  - rewrite mem_cons in Hx. apply orb_false_iff in Hx. destruct Hx as [Ha Hx].
    cbn [String.append parse_unexpandable_field_codes].
    rewrite Ascii.eqb_sym, Ha. unfold Str.join in *.
    rewrite concat_empty_cons, (IH Hx). reflexivity.
Qed.

Lemma code_word_neq (x y : string) (c d : ascii) :
  Str.mem "%" x = false -> c <> d ->
  String.eqb (x ++ String "%" (String c y)) (String "%" (String d "")) = false.
Proof.
  intros Hx Hcd. apply String.eqb_neq. intros E.
  destruct x as [|a x].
  - cbn [String.append] in E. injection E as E _. contradiction.
  - cbn [String.append] in E. injection E as E _. subst a. discriminate Hx.
Qed.

(** A word with the code [%f] or [%u] in it, and no other percent sign,
    gets the path or the URL of the first argument at the place of the
    code. *)
Lemma parse_field_codes_single (ext : externals) (name : string)
  (a : string) (rest : list string) (icon path : option string)
  (x y f u : string) (c : ascii) :
  Str.mem "%" x = false -> Str.mem "%" y = false ->
  c = "f"%char \/ c = "u"%char ->
  first_argument ext (a :: rest) = Return (f, u) ->
  parse_field_codes ext (x ++ String "%" (String c y)) name (a :: rest)
    icon path false
  = Return [(x ++ (if Ascii.eqb c "f" then f else u) ++ y)%string].
Proof.
  intros Hx Hy Hc Hfu. unfold parse_field_codes.
  rewrite (code_word_neq x y c "i" Hx), (code_word_neq x y c "F" Hx),
    (code_word_neq x y c "U" Hx)
    by (destruct Hc as [-> | ->]; discriminate).
  cbn [nonempty negb]. rewrite andb_false_r. rewrite Hfu. cbn [bind fst snd].
  rewrite (parse_unexpandable_one _ x y (if Ascii.eqb c "f" then f else u) c
             Hx Hy)
    by (destruct Hc as [-> | ->]; reflexivity).
  cbn [negb orb]. now rewrite orb_true_r.
Qed.

(** *** Arguments that are accepted *)

Lemma first_argument_accepted (ext : externals) (args : list string)
  (pa : string -> option string) (ua : string -> string) :
  (forall a, In a args ->
     ensure_path ext a = Return (pa a) /\ ensure_url ext a = Return (ua a)) ->
  first_argument ext args
  = Return match args with
           | a :: _ => (path_text (pa a), ua a)
           | [] => (EmptyString, EmptyString)
           end.
Proof.
  intros H. destruct args as [|a rest]; [reflexivity|].
  destruct (H a (or_introl eq_refl)) as [Hp Hu].
  cbn [first_argument]. now rewrite Hp, Hu.
Qed.

Lemma parse_field_codes_accepted (ext : externals) (w name : string)
  (args : list string) (icon path : option string) (omit_empty : bool)
  (pa : string -> option string) (ua : string -> string) :
  (forall a, In a args ->
     ensure_path ext a = Return (pa a) /\ ensure_url ext a = Return (ua a)) ->
  exists v, parse_field_codes ext w name args icon path omit_empty = Return v.
Proof.
  intros H. unfold parse_field_codes.
  destruct (String.eqb w "%i"); [eauto|].
  destruct (String.eqb w "%F").
  { rewrite (map_result_returns _ (fun a => path_if_any (pa a)) args).
    - cbn [bind]. eauto.
    - intros a Ha. destruct (H a Ha) as [-> _]. reflexivity. }
  destruct (String.eqb w "%U").
  { rewrite (map_result_returns _ ua args); [eauto|].
    intros a Ha. now destruct (H a Ha) as [_ ->]. }
  destruct ((String.eqb w "%f" || String.eqb w "%u") && negb (nonempty args));
    [eauto|].
  rewrite (first_argument_accepted ext args pa ua H). cbn [bind].
  match goal with |- context [if ?b then _ else _] => destruct b end; eauto.
Qed.

Lemma build_cmd_accepted (ext : externals) (name : string)
  (icon path : option string) (words args : list string)
  (pa : string -> option string) (ua : string -> string) :
  (forall a, In a args ->
     ensure_path ext a = Return (pa a) /\ ensure_url ext a = Return (ua a)) ->
  exists cmd, build_cmd ext name icon path words args = Return cmd.
Proof.
  intros H. unfold build_cmd.
  assert (Hws : exists vs,
             map_result
               (fun w => parse_field_codes ext w name args icon path false)
               words = Return vs).
  { induction words as [|w words [vs IH]]; [now exists []|].
    destruct (parse_field_codes_accepted ext w name args icon path false
                pa ua H) as [v Hv].
    exists (v :: vs). cbn [map_result]. now rewrite Hv, IH. }
  destruct Hws as [vs ->]. cbn [bind]. eauto.
Qed.

(** *** The commands of a template with at most one code *)

Lemma exec_field_single (ext : externals) (exe : string)
  (args : list string) (name : string) (icon path : option string)
  (words : list string) :
  Shlex.split exe = Return words -> args <> [] ->
  (List.length (argument_codes exe) <= 1)%nat ->
  exec_field_to_cmds_without_term ext exe args name icon path
  = map_result (build_cmd ext name icon path words)
      (if is_single (argument_codes exe)
       then map (fun a => [a]) args
       else [args]).
Proof.
  intros Hsplit Hargs Hlen. unfold exec_field_to_cmds_without_term.
  rewrite exec_codes_argument_codes.
  destruct (Nat.ltb_spec 1 (List.length (argument_codes exe))) as [H|_];
    [lia|].
  rewrite Hsplit. cbn [bind].
  destruct args; [congruence|reflexivity].
Qed.

Lemma map_result_map {A B C : Type} (f : B -> result C) (h : A -> B)
  (l : list A) :
  map_result f (map h l) = map_result (fun x => f (h x)) l.
Proof.
  induction l as [|x l IH]; [reflexivity|].
  cbn [map map_result]. now rewrite IH.
Qed.

(** One run for each argument: every run returns, and the commands are
    those of the runs. *)
Lemma single_runs (ext : externals) (name : string)
  (icon path : option string) (words args : list string)
  (pa : string -> option string) (ua : string -> string) :
  (forall a, In a args ->
     ensure_path ext a = Return (pa a) /\ ensure_url ext a = Return (ua a)) ->
  exists cmds,
    map_result (build_cmd ext name icon path words)
      (map (fun a => [a]) args) = Return cmds
    /\ Forall2 (fun a cmd => build_cmd ext name icon path words [a]
                             = Return cmd) args cmds.
Proof.
  induction args as [|a args IH]; intros H.
  - exists []. split; [reflexivity|constructor].
  - destruct IH as (cmds & Hc & Hf).
    { intros b Hb. apply H. now right. }
    destruct (build_cmd_accepted ext name icon path words [a] pa ua)
      as [cmd Hcmd].
    { intros b [<-|[]]. apply H. now left. }
    exists (cmd :: cmds). split.
    + cbn [map map_result]. now rewrite Hcmd, Hc.
    + now constructor.
Qed.

(** C7, as the code has it: for a template with balanced quoting in
    which exactly one of the four codes occurs, and [n >= 1] arguments
    that [ensure_path] and [ensure_url] accept.  With [%f] or [%u] the
    interpolation yields [n] commands, the i-th being the command that
    the template yields for the i-th argument alone; when the code is the
    only percent sign of the template, this is the words of the template
    with the path of the argument, for [%u] its URL, at the place of the
    code.  With [%F] or [%U] it yields one command; when the code is the
    only percent sign, a word equal to [%F] stands for the paths of the
    arguments in their order, those without a local path left out, and a
    word equal to [%U] for their URLs. *)
Theorem field_code_arity (ext : externals) (exe : string)
  (args : list string) (name : string) (icon path : option string)
  (words : list string)
  (pa : string -> option string) (ua : string -> string) :
  Shlex.split exe = Return words -> args <> [] ->
  (forall a, In a args ->
     ensure_path ext a = Return (pa a) /\ ensure_url ext a = Return (ua a)) ->
  (argument_codes exe = ["f"%char] \/ argument_codes exe = ["u"%char] ->
   (exists cmds,
      exec_field_to_cmds_without_term ext exe args name icon path
      = Return cmds
      /\ Forall2
           (fun a cmd =>
              exec_field_to_cmds_without_term ext exe [a] name icon path
              = Return [cmd]) args cmds)
   /\ (forall pre post x y,
         forallb (fun w => negb (Str.mem "%" w)) pre = true ->
         forallb (fun w => negb (Str.mem "%" w)) post = true ->
         Str.mem "%" x = false -> Str.mem "%" y = false ->
         (words = pre ++ (x ++ "%f" ++ y)%string :: post ->
          exec_field_to_cmds_without_term ext exe args name icon path
          = Return (map (fun a =>
                           pre ++ (x ++ path_text (pa a) ++ y)%string :: post)
                        args))
         /\ (words = pre ++ (x ++ "%u" ++ y)%string :: post ->
             exec_field_to_cmds_without_term ext exe args name icon path
             = Return (map (fun a => pre ++ (x ++ ua a ++ y)%string :: post)
                           args))))
  /\ (argument_codes exe = ["F"%char] \/ argument_codes exe = ["U"%char] ->
      (exists cmd,
         exec_field_to_cmds_without_term ext exe args name icon path
         = Return [cmd])
      /\ (forall pre post,
            forallb (fun w => negb (Str.mem "%" w)) pre = true ->
            forallb (fun w => negb (Str.mem "%" w)) post = true ->
            (words = pre ++ "%F" :: post ->
             exec_field_to_cmds_without_term ext exe args name icon path
             = Return [pre ++ flat_map (fun a => path_if_any (pa a)) args
                           ++ post])
            /\ (words = pre ++ "%U" :: post ->
                exec_field_to_cmds_without_term ext exe args name icon path
                = Return [pre ++ map ua args ++ post]))).
Proof.
  intros Hsplit Hargs Hacc. split.
  - intros Hc.
    assert (Hlen : (List.length (argument_codes exe) <= 1)%nat)
      by (destruct Hc as [-> | ->]; simpl; lia).
    assert (Hsingle : is_single (argument_codes exe) = true)
      by (destruct Hc as [-> | ->]; reflexivity).
    rewrite (exec_field_single ext exe args name icon path words Hsplit
               Hargs Hlen), Hsingle.
    split.
    + destruct (single_runs ext name icon path words args pa ua Hacc)
        as (cmds & Hcmds & Hf).
      exists cmds. split; [exact Hcmds|].
      clear Hcmds Hargs Hacc. induction Hf as [|a cmd args' cmds' Ha Hf IH];
        constructor.
      * rewrite (exec_field_single ext exe [a] name icon path words Hsplit)
          by (discriminate || exact Hlen).
        rewrite Hsingle. cbn [map map_result]. rewrite Ha. reflexivity.
      * apply IH.
    + intros pre post x y Hpre Hpost Hx Hy.
      rewrite map_result_map.
      assert (Hfu : forall a, In a args ->
                first_argument ext [a] = Return (path_text (pa a), ua a)).
      { intros a Ha.
        apply (first_argument_accepted ext [a] pa ua).
        intros b [<-|[]]. now apply Hacc. }
      split; intros ->; apply map_result_returns; intros a Ha.
      * apply (build_cmd_at ext name icon path pre post [a] _
                 (path_text (pa a), ua a)
                 [(x ++ path_text (pa a) ++ y)%string] Hpre Hpost
                 (Hfu a Ha)).
        exact (parse_field_codes_single ext name a [] icon path x y
                 (path_text (pa a)) (ua a) "f" Hx Hy (or_introl eq_refl)
                 (Hfu a Ha)).
      * apply (build_cmd_at ext name icon path pre post [a] _
                 (path_text (pa a), ua a) [(x ++ ua a ++ y)%string]
                 Hpre Hpost (Hfu a Ha)).
        exact (parse_field_codes_single ext name a [] icon path x y
                 (path_text (pa a)) (ua a) "u" Hx Hy (or_intror eq_refl)
                 (Hfu a Ha)).
  - intros Hc.
    assert (Hlen : (List.length (argument_codes exe) <= 1)%nat)
      by (destruct Hc as [-> | ->]; simpl; lia).
    assert (Hsingle : is_single (argument_codes exe) = false)
      by (destruct Hc as [-> | ->]; reflexivity).
    rewrite (exec_field_single ext exe args name icon path words Hsplit
               Hargs Hlen), Hsingle.
    cbn [map_result]. split.
    + destruct (build_cmd_accepted ext name icon path words args pa ua Hacc)
        as [cmd ->].
      now exists cmd.
    + intros pre post Hpre Hpost.
      pose proof (first_argument_accepted ext args pa ua Hacc) as Hfu.
      split; intros ->.
      * rewrite (build_cmd_at ext name icon path pre post args "%F" _
                   (flat_map (fun a => path_if_any (pa a)) args)
                   Hpre Hpost Hfu); [reflexivity|].
        unfold parse_field_codes. cbn [String.eqb Ascii.eqb Bool.eqb].
        cbn iota.
        rewrite (map_result_returns _ (fun a => path_if_any (pa a)) args).
        -- cbn [bind]. now rewrite flat_map_concat_map.
        -- intros a Ha. destruct (Hacc a Ha) as [-> _]. reflexivity.
      * rewrite (build_cmd_at ext name icon path pre post args "%U" _
                   (map ua args) Hpre Hpost Hfu); [reflexivity|].
        unfold parse_field_codes. cbn [String.eqb Ascii.eqb Bool.eqb].
        cbn iota.
        apply map_result_returns.
        intros a Ha. now destruct (Hacc a Ha) as [_ ->].
Qed.

Lemma field_code_arity_witness :
  exec_field_to_cmds_without_term local_paths "app %f" ["/a"; "/b"] "App"
    None None
  = Return [["app"; "/a"]; ["app"; "/b"]]
  /\ exec_field_to_cmds_without_term local_paths "app %F" ["/a"; "/b"] "App"
       None None
     = Return [["app"; "/a"; "/b"]].
Proof.
  assert (Hne : ["/a"; "/b"] <> @nil string) by discriminate.
  assert (Hacc : forall a, In a ["/a"; "/b"] ->
            ensure_path local_paths a = Return (Some a)
            /\ ensure_url local_paths a = Return ("file://" ++ a)%string)
    by (intros a _; split; reflexivity).
  split.
  - exact (proj1
             (proj2
                (proj1
                   (field_code_arity local_paths "app %f" ["/a"; "/b"] "App"
                      None None ["app"; "%f"] Some
                      (fun a => ("file://" ++ a)%string) eq_refl Hne Hacc)
                   (or_introl eq_refl))
                ["app"] [] "" "" eq_refl eq_refl eq_refl eq_refl)
             eq_refl).
  - exact (proj1
             (proj2
                (proj2
                   (field_code_arity local_paths "app %F" ["/a"; "/b"] "App"
                      None None ["app"; "%F"] Some
                      (fun a => ("file://" ++ a)%string) eq_refl Hne Hacc)
                   (or_introl eq_refl))
                ["app"] [] eq_refl eq_refl)
             eq_refl).
Defined.

(** C7 as it is stated fails for a template that has [%F] inside a
    larger word: there is one command, and it has none of the
    arguments. *)
Lemma embedded_list_code_drops_arguments :
  Str.contains "%F" "app --files=%F" = true
  /\ argument_codes "app --files=%F" = ["F"%char]
  /\ exec_field_to_cmds_without_term local_paths "app --files=%F"
       ["/a"; "/b"] "App" None None
     = Return [["app"; "--files="]].
Proof. repeat split. Qed.

(** It fails as well for an argument that [urllib.parse.urlparse]
    rejects: the exception ends the interpolation, whatever the code
    is. *)
Example rejected_argument_raises :
  exec_field_to_cmds_without_term strict_urls "app %f" ["/a"; "http://[x"]
    "App" None None
  = Raise (ValueError "Invalid IPv6 URL")
  /\ exec_field_to_cmds_without_term strict_urls "app %F" ["/a"; "http://[x"]
       "App" None None
     = Raise (ValueError "Invalid IPv6 URL").
Proof. split; reflexivity. Qed.

(** *** Validation *)

(** C8 fails on the code.  For a template with more than one of the four
    codes, such as [app %f %U], the source means to raise the validation
    error of pyxdg and looks it up in the module [xdg.DesktopEntry],
    which does not have it: what is raised is [AttributeError], for this
    template and for every template with more than one code, a doubled
    percent sign being a literal percent sign. *)
Theorem several_codes_raise_attribute_error :
  argument_codes "app %f %U" = ["f"%char; "U"%char]
  /\ exec_field_to_cmds_without_term local_paths "app %f %U" ["/a"] "App"
       None None
     = Raise (AttributeError "xdg.DesktopEntry" "ValidationError")
  /\ forall (ext : externals) (exe : string) (args : list string)
            (name : string) (icon path : option string),
       (1 < List.length (argument_codes exe))%nat ->
       exec_field_to_cmds_without_term ext exe args name icon path
       = Raise (AttributeError "xdg.DesktopEntry" "ValidationError").
Proof.
  split; [reflexivity|]. split; [reflexivity|].
  intros ext exe args name icon path H.
  unfold exec_field_to_cmds_without_term.
  rewrite exec_codes_argument_codes.
  destruct (Nat.ltb_spec 1 (List.length (argument_codes exe))) as [_|Hle];
    [reflexivity|lia].
Qed.

(** A template with at most one code gets past the test; it is not
    always interpolated: [shlex.split] raises [ValueError] for a
    quotation that is not closed. *)
Example unbalanced_exec_raises :
  argument_codes unbalanced_exec = ["f"%char]
  /\ exec_field_to_cmds_without_term local_paths unbalanced_exec ["/a"]
       "App" None None
     = Raise (ValueError "No closing quotation").
Proof. split; reflexivity. Qed.

(** A doubled percent sign before [f] is not the code [%f]. *)
Example doubled_percent_is_no_code :
  argument_codes "app %%f %U" = ["U"%char]
  /\ exec_field_to_cmds_without_term local_paths "app %%f %U" ["/a"] "App"
       None None
     = Return [["app"; "%f"; "file:///a"]].
Proof. split; reflexivity. Qed.
(** * Further properties *)

(** ** Changing a table leaves the rest of it alone *)

Lemma get_key_set_same (e : entries) key (l : list string) :
  get_key (Dict.set String.eqb e key l) key = Some l.
Proof. apply (dict_get_set_same String.eqb_spec). Qed.

Lemma get_key_set_other (e : entries) key key' (l : list string) :
  key' <> key -> get_key (Dict.set String.eqb e key l) key' = get_key e key'.
Proof. apply (dict_get_set_other String.eqb_spec). Qed.

(** Replacing the entries of a present section by entries that agree on
    a key does not change what is found under that key. *)
Lemma lookup_set_section (t : table) section (e e' : entries)
  section' key' :
  get_section t section = Some e ->
  (section' = section -> get_key e' key' = get_key e key') ->
  lookup (Dict.set opt_eqb t section e') section' key' = lookup t section' key'.
Proof.
  intros He Hsame. unfold lookup at 2.
  destruct (opt_eqb_spec section' section) as [->|Hne].
  - rewrite lookup_set_same, He. now apply Hsame.
  - rewrite (lookup_set_other t section section' e' key' Hne).
    reflexivity.
Qed.

Lemma pair_neq_cases (section section' : option string) (key key' : string) :
  section' <> section \/ key' <> key ->
  section' = section -> key' <> key.
Proof. intros [H|H] E; [contradiction|exact H]. Qed.

Lemma lookup_add_association_other (assocs : table)
  (section : option string) (key value : string)
  (section' : option string) (key' : string) :
  section' <> section \/ key' <> key ->
  lookup (add_association assocs section key value) section' key'
  = lookup assocs section' key'.
Proof.
  intros Hne. pose proof (pair_neq_cases section section' key key' Hne) as Hk.
  unfold add_association.
  destruct (truthy_opt section && Str.truthy key && Str.truthy value);
    [|reflexivity].
  destruct (get_section assocs section) as [e|] eqn:Es.
  - destruct (get_key e key) as [old|];
      apply (lookup_set_section assocs section e _ section' key' Es);
      intros E; apply get_key_set_other; auto.
  - destruct (opt_eqb_spec section' section) as [->|Hs].
    + rewrite lookup_set_same. unfold lookup. rewrite Es.
      unfold get_key. simpl.
      destruct (String.eqb_spec key' key); [|reflexivity].
      now elim (Hk eq_refl).
    + now apply lookup_set_other.
Qed.

(** X1: [add_association] changes at most the list under its section and
    key: whatever is found under any other section or key is what was
    found there before. *)
Theorem add_association_frame (assocs : table) (section : option string)
  (key value : string) (section' : option string) (key' : string) :
  section' <> section \/ key' <> key ->
  lookup (add_association assocs section key value) section' key'
  = lookup assocs section' key'.
Proof. apply lookup_add_association_other. Qed.

Lemma add_association_frame_witness :
  lookup (add_association sample_defaults (Some "Default Applications")
            "text/plain" "nano.desktop")
         (Some "Default Applications") "image/png"
  = Some ["gimp.desktop"].
Proof.
  assert (Hne : Some "Default Applications" <> Some "Default Applications"
                \/ "image/png" <> "text/plain") by (right; discriminate).
  rewrite (add_association_frame sample_defaults (Some "Default Applications")
             "text/plain" "nano.desktop" (Some "Default Applications")
             "image/png" Hne).
  reflexivity.
Defined.

Lemma nodup_filter_str (p : string -> bool) (l : list string) :
  NoDup l -> NoDup (filter p l).
Proof. apply NoDup_filter. Qed.

(** X2: [add_association] keeps the invariant of the data model: if no
    list of the table is empty or holds an identifier twice, the same is
    true after the addition. *)
Theorem add_association_keeps_lists_ok (assocs : table)
  (section : option string) (key value : string) :
  lists_ok assocs -> lists_ok (add_association assocs section key value).
Proof.
  intros Hok s k l Hl.
  destruct (opt_eqb_spec s section) as [->|Hs].
  - destruct (String.eqb_spec k key) as [->|Hk].
    + destruct (truthy_opt section && Str.truthy key && Str.truthy value)
        eqn:Ht.
      * apply andb_true_iff in Ht. destruct Ht as [Ht Hv].
        apply andb_true_iff in Ht. destruct Ht as [Hsec Hkey].
        rewrite (lookup_add_association assocs section key value Hsec Hkey Hv)
          in Hl.
        injection Hl as <-. split; [discriminate|].
        constructor; [apply filter_neq_notin|].
        destruct (lookup assocs section key) as [old|] eqn:Eo;
          [|constructor].
        apply nodup_filter_str. now destruct (Hok _ _ _ Eo).
      * unfold add_association in Hl. rewrite Ht in Hl. exact (Hok _ _ _ Hl).
    + rewrite lookup_add_association_other in Hl by now right.
      exact (Hok _ _ _ Hl).
  - rewrite lookup_add_association_other in Hl by now left.
    exact (Hok _ _ _ Hl).
Qed.

(** ** Removing associations *)

Lemma get_section_in (t : table) section (e : entries) :
  get_section t section = Some e -> In (section, e) t.
Proof.
  unfold get_section. induction t as [|[s0 e0] t IH]; simpl; [discriminate|].
  destruct (opt_eqb_spec section s0) as [->|_].
  - intros H. injection H as ->. now left.
  - intros H. right. now apply IH.
Qed.

Lemma dict_wf_section (t : table) section (e : entries) :
  dict_wf t -> get_section t section = Some e -> NoDup (Dict.keys e).
Proof.
  intros [_ Hf] He. rewrite Forall_forall in Hf.
  exact (Hf _ (get_section_in t section e He)).
Qed.

Lemma get_key_del_same (e : entries) key :
  NoDup (Dict.keys e) -> get_key (Dict.del String.eqb e key) key = None.
Proof. apply (dict_get_del_same String.eqb_spec). Qed.

Lemma lookup_remove_association_other (assocs : table)
  (section : option string) (key : string) (value : option string)
  (section' : option string) (key' : string) :
  section' <> section \/ key' <> key ->
  lookup (remove_association assocs section key value) section' key'
  = lookup assocs section' key'.
Proof.
  intros Hne. pose proof (pair_neq_cases section section' key key' Hne) as Hk.
  unfold remove_association.
  destruct (nonempty assocs && truthy_opt section && Str.truthy key);
    [|reflexivity].
  destruct (get_section assocs section) as [e|] eqn:Es; [|reflexivity].
  destruct (get_key e key) as [old|]; [|reflexivity].
  assert (Hdel : lookup (Dict.set opt_eqb assocs section
                           (Dict.del String.eqb e key)) section' key'
                 = lookup assocs section' key').
  { apply (lookup_set_section assocs section e _ section' key' Es).
    intros E. apply get_key_del_other. auto. }
  destruct value as [v|]; [|exact Hdel].
  destruct (Str.truthy v); [|exact Hdel].
  destruct (list_remove v old) as [[|y l]|]; [exact Hdel| |reflexivity].
  apply (lookup_set_section assocs section e _ section' key' Es).
  intros E. apply get_key_set_other. auto.
Qed.

(** X3: [remove_association] changes at most what is under its section
    and key: whatever is found under any other section or key is what was
    found there before, with or without a value to remove. *)
Theorem remove_association_frame (assocs : table) (section : option string)
  (key : string) (value : option string) (section' : option string)
  (key' : string) :
  section' <> section \/ key' <> key ->
  lookup (remove_association assocs section key value) section' key'
  = lookup assocs section' key'.
Proof. apply lookup_remove_association_other. Qed.

Lemma remove_association_frame_witness :
  lookup (remove_association sample_defaults (Some "Default Applications")
            "text/plain" (Some "vim.desktop"))
         (Some "Default Applications") "image/png"
  = Some ["gimp.desktop"].
Proof.
  assert (Hne : Some "Default Applications" <> Some "Default Applications"
                \/ "image/png" <> "text/plain") by (right; discriminate).
  rewrite (remove_association_frame sample_defaults
             (Some "Default Applications") "text/plain" (Some "vim.desktop")
             (Some "Default Applications") "image/png" Hne).
  reflexivity.
Defined.

(** What [remove_association] leaves under its section and key. *)
Lemma lookup_remove_association (assocs : table) (section : option string)
  (key : string) (value : option string) :
  dict_wf assocs ->
  truthy_opt section = true -> Str.truthy key = true ->
  lookup (remove_association assocs section key value) section key
  = match lookup assocs section key with
    | None => None
    | Some old =>
        if truthy_opt value
        then match value with
             | Some v =>
                 match list_remove v old with
                 | None => Some old
                 | Some [] => None
                 | Some (y :: l) => Some (y :: l)
                 end
             | None => None
             end
        else None
    end.
Proof.
  intros Hwf Hs Hk. unfold remove_association. rewrite Hs, Hk.
  destruct assocs as [|se t] eqn:Et; [reflexivity|]. rewrite <- Et in *.
  assert (Hn : nonempty assocs = true) by now rewrite Et.
  rewrite Hn. cbn [andb]. unfold lookup at 2.
  destruct (get_section assocs section) as [e|] eqn:Es.
  - pose proof (dict_wf_section assocs section e Hwf Es) as Hnd.
    assert (Hdel : lookup (Dict.set opt_eqb assocs section
                             (Dict.del String.eqb e key)) section key = None).
    { rewrite lookup_set_same. now apply get_key_del_same. }
    destruct (get_key e key) as [old|] eqn:Ek.
    + destruct value as [v|]; [|exact Hdel]. cbn [truthy_opt].
      destruct (Str.truthy v); [|exact Hdel].
      destruct (list_remove v old) as [[|y l]|]; [exact Hdel| |].
      * rewrite lookup_set_same. apply get_key_set_same.
      * unfold lookup. now rewrite Es.
    + unfold lookup. now rewrite Es.
  - unfold lookup. now rewrite Es.
Qed.

Lemma list_remove_in (v : string) (l l' : list string) :
  list_remove v l = Some l' -> In v l /\ forall x, In x l' -> In x l.
Proof.
  revert l'. induction l as [|y l IH]; intros l'; simpl; [discriminate|].
  destruct (String.eqb_spec y v) as [->|Hne].
  - intros H. injection H as <-. split; [now left|]. intros x Hx. now right.
  - destruct (list_remove v l) as [r|]; [|discriminate].
    intros H. injection H as <-. destruct (IH r eq_refl) as [Hin Hsub].
    split; [now right|]. intros x [<-|Hx]; [now left|right; auto].
Qed.

Lemma list_remove_none (v : string) (l : list string) :
  list_remove v l = None <-> ~ In v l.
Proof.
  induction l as [|y l IH]; simpl; [tauto|].
  destruct (String.eqb_spec y v) as [->|Hne].
  - split; [discriminate|]. intros H. elim H. now left.
  - destruct (list_remove v l) as [r|].
    + split; [discriminate|]. intros H. exfalso.
      destruct IH as [_ IH]. assert (Hn : ~ In v l) by tauto.
      specialize (IH Hn). discriminate.
    + split; [|reflexivity]. intros _ [E|Hin]; [congruence|].
      now apply (proj1 IH).
Qed.

Lemma list_remove_nodup (v : string) (l l' : list string) :
  NoDup l -> list_remove v l = Some l' -> NoDup l' /\ ~ In v l'.
Proof.
  revert l'. induction l as [|y l IH]; intros l' Hnd; simpl; [discriminate|].
  inversion Hnd as [|? ? Hy Hl]; subst.
  destruct (String.eqb_spec y v) as [->|Hne].
  - intros H. injection H as <-. now split.
  - destruct (list_remove v l) as [r|] eqn:Er; [|discriminate].
    intros H. injection H as <-. destruct (IH r Hl eq_refl) as [Hr Hv].
    split.
    + constructor; [|exact Hr]. intros Hin.
      apply Hy. now apply (proj2 (list_remove_in v l r Er)).
    + intros [E|Hin]; [congruence|contradiction].
Qed.

Lemma list_remove_filter (v : string) (l : list string) :
  NoDup l -> In v l ->
  list_remove v l = Some (filter (fun x => negb (String.eqb x v)) l).
Proof.
  induction l as [|y l IH]; intros Hnd Hin; [destruct Hin|].
  inversion Hnd as [|? ? Hy Hl]; subst. cbn [list_remove filter].
  destruct (String.eqb_spec y v) as [->|Hne]; cbn [negb].
  - now rewrite (filter_neq_id v l Hy).
  - destruct Hin as [E|Hin]; [contradiction|].
    now rewrite (IH Hl Hin).
Qed.

(** X4: for a table that keeps the invariant of the data model,
    [remove_association] with a value that is in the list under the
    section and the key takes exactly that value out: the list becomes
    the former list without the value, every other element at its place
    in the former order, and when the value was the only element the key
    is deleted, so that no empty list is left; with a value that is not
    in the list the table stays as it is. *)
Theorem remove_association_effect (assocs : table) (section : option string)
  (key value : string) (old : list string) :
  dict_wf assocs -> lists_ok assocs ->
  truthy_opt section = true -> Str.truthy key = true ->
  Str.truthy value = true ->
  lookup assocs section key = Some old ->
  (In value old ->
   lookup (remove_association assocs section key (Some value)) section key
   = match filter (fun x => negb (String.eqb x value)) old with
     | [] => None
     | y :: l => Some (y :: l)
     end)
  /\ (~ In value old ->
      remove_association assocs section key (Some value) = assocs).
Proof.
  intros Hwf Hok Hs Hk Hv Hold. destruct (Hok _ _ _ Hold) as [Hne Hnd].
  split.
  - intros Hin.
    rewrite (lookup_remove_association assocs section key (Some value)
               Hwf Hs Hk).
    rewrite Hold. cbn [truthy_opt]. rewrite Hv.
    now rewrite (list_remove_filter value old Hnd Hin).
  - intros Hnin. unfold remove_association. rewrite Hs, Hk, Hv.
    unfold lookup in Hold.
    destruct (get_section assocs section) as [e|]; [|now destruct (nonempty assocs)].
    rewrite Hold.
    apply list_remove_none in Hnin. rewrite Hnin.
    now destruct (nonempty assocs).
Qed.

Lemma get_key_in (e : entries) key (l : list string) :
  get_key e key = Some l -> In (key, l) e.
Proof.
  unfold get_key. induction e as [|[k0 v0] e IH]; simpl; [discriminate|].
  destruct (String.eqb_spec key k0) as [->|_].
  - intros H. injection H as ->. now left.
  - intros H. right. now apply IH.
Qed.

Lemma nodupb_sound (l : list string) : nodupb l = true -> NoDup l.
Proof.
  induction l as [|x l IH]; simpl; intros H; [constructor|].
  apply andb_true_iff in H. destruct H as [Hx Hl].
  apply negb_true_iff in Hx. apply mem_str_false in Hx.
  constructor; [exact Hx|now apply IH].
Qed.

Lemma lists_okb_sound (t : table) : lists_okb t = true -> lists_ok t.
Proof.
  unfold lists_okb. rewrite forallb_forall. intros H section key l Hl.
  unfold lookup in Hl.
  destruct (get_section t section) as [e|] eqn:Es; [|discriminate].
  specialize (H _ (get_section_in t section e Es)). cbn [snd] in H.
  rewrite forallb_forall in H.
  specialize (H _ (get_key_in e key l Hl)). cbn [snd] in H.
  apply andb_true_iff in H. destruct H as [Hne Hnd].
  split; [now destruct l|now apply nodupb_sound].
Qed.

Lemma sample_defaults_wf : dict_wf sample_defaults.
Proof. split; repeat constructor; simpl; intuition discriminate. Qed.

Lemma remove_association_effect_witness :
  lookup (remove_association sample_defaults (Some "Default Applications")
            "text/plain" (Some "vim.desktop"))
    (Some "Default Applications") "text/plain"
  = match filter (fun x => negb (String.eqb x "vim.desktop"))
            ["vim.desktop"; "emacs.desktop"] with
    | [] => None
    | y :: l => Some (y :: l)
    end.
Proof.
  exact (proj1 (remove_association_effect sample_defaults
                  (Some "Default Applications") "text/plain"
                  "vim.desktop" ["vim.desktop"; "emacs.desktop"]
                  sample_defaults_wf (lists_okb_sound sample_defaults eq_refl)
                  eq_refl eq_refl eq_refl eq_refl)
               (or_introl eq_refl)).
Defined.

Lemma add_association_keeps_lists_ok_witness :
  lists_ok (add_association sample_defaults (Some "Default Applications")
              "text/plain" "emacs.desktop").
Proof.
  apply add_association_keeps_lists_ok.
  exact (lists_okb_sound sample_defaults eq_refl).
Defined.

(** X5: [remove_association] keeps the invariant of the data model: on a
    table without empty or repeating lists it leaves no empty list and no
    list with an identifier twice, whatever it is asked to remove. *)
Theorem remove_association_keeps_lists_ok (assocs : table)
  (section : option string) (key : string) (value : option string) :
  dict_wf assocs -> lists_ok assocs ->
  lists_ok (remove_association assocs section key value).
Proof.
  intros Hwf Hok s k l Hl.
  destruct (opt_eqb_spec s section) as [->|Hs];
    [destruct (String.eqb_spec k key) as [->|Hk]|].
  - destruct (truthy_opt section && Str.truthy key) eqn:Ht.
    + apply andb_true_iff in Ht. destruct Ht as [Hsec Hkey].
      rewrite (lookup_remove_association assocs section key value
                 Hwf Hsec Hkey) in Hl.
      destruct (lookup assocs section key) as [old|] eqn:Eo; [|discriminate].
      destruct (Hok _ _ _ Eo) as [Hne Hnd].
      destruct (truthy_opt value); [|discriminate].
      destruct value as [v|]; [|discriminate].
      destruct (list_remove v old) as [[|y r]|] eqn:Er; [discriminate| |].
      * injection Hl as <-. split; [discriminate|].
        now destruct (list_remove_nodup v old (y :: r) Hnd Er).
      * injection Hl as <-. now split.
    + unfold remove_association in Hl.
      replace (nonempty assocs && truthy_opt section && Str.truthy key)
        with false in Hl
        by (rewrite <- andb_assoc, Ht; now destruct (nonempty assocs)).
      exact (Hok _ _ _ Hl).
  - rewrite lookup_remove_association_other in Hl by now right.
    exact (Hok _ _ _ Hl).
  - rewrite lookup_remove_association_other in Hl by now left.
    exact (Hok _ _ _ Hl).
Qed.

Lemma remove_association_keeps_lists_ok_witness :
  lists_ok (remove_association sample_defaults (Some "Added Associations")
              "text/plain" (Some "nano.desktop")).
Proof.
  exact (remove_association_keeps_lists_ok sample_defaults
           (Some "Added Associations") "text/plain" (Some "nano.desktop")
           sample_defaults_wf (lists_okb_sound sample_defaults eq_refl)).
Defined.

(** ** Pruning *)

Lemma get_key_filter (p : list string -> bool) (e : entries) (k : string) :
  NoDup (Dict.keys e) ->
  get_key (filter (fun kv : string * list string => p (snd kv)) e) k
  = match get_key e k with
    | Some v => if p v then Some v else None
    | None => None
    end.
Proof.
  unfold get_key. induction e as [|[k0 v0] e IH]; intros Hnd; [reflexivity|].
  inversion Hnd as [|? ? Hk0 Hnd']; subst.
  cbn [filter snd Dict.get].
  destruct (p v0) eqn:Ep.
  - cbn [Dict.get]. destruct (String.eqb_spec k k0) as [->|Hne].
    + now rewrite Ep.
    + now apply IH.
  - rewrite (IH Hnd'). destruct (String.eqb_spec k k0) as [->|Hne].
    + rewrite Ep.
      apply (dict_get_none_notin String.eqb_spec) in Hk0.
      now rewrite Hk0.
    + reflexivity.
Qed.

Lemma lookup_remove_empty_section (t : table) section key :
  NoDup (Dict.keys t) ->
  lookup (remove_empty_associations t) section key
  = match get_section t section with
    | Some e =>
        get_key (filter (fun kv : string * list string => nonempty (snd kv)) e)
                key
    | None => None
    end.
Proof.
  unfold remove_empty_associations, lookup, get_section.
  induction t as [|[s0 e0] t IH]; intros Hnd; [reflexivity|].
  inversion Hnd as [|? ? Hs0 Hnd']; subst.
  cbn [map filter fst snd Dict.get].
  destruct (filter (fun kv : string * list string => nonempty (snd kv)) e0)
    as [|kv r] eqn:Ef.
  - cbn [nonempty]. rewrite (IH Hnd').
    destruct (opt_eqb_spec section s0) as [->|Hne]; [|reflexivity].
    apply (dict_get_none_notin opt_eqb_spec) in Hs0. now rewrite Hs0, Ef.
  - cbn [nonempty Dict.get fst snd].
    destruct (opt_eqb_spec section s0) as [->|Hne]; [now rewrite Ef|].
    now apply IH.
Qed.

Lemma filter_idem {A : Type} (p : A -> bool) (l : list A) :
  filter p (filter p l) = filter p l.
Proof. apply filter_all. apply forallb_filter_same. Qed.

(** X6: [remove_empty_associations] deletes exactly the keys that are
    bound to an empty list: every other key of every section keeps its
    list, a key with an empty list is no longer found, no section of the
    result is empty, and pruning a second time changes nothing. *)
Theorem remove_empty_associations_spec (t : table) :
  dict_wf t ->
  (forall section key,
     lookup (remove_empty_associations t) section key
     = match lookup t section key with
       | Some [] => None
       | found => found
       end)
  /\ Forall (fun se : option string * entries => snd se <> [])
            (remove_empty_associations t)
  /\ remove_empty_associations (remove_empty_associations t)
     = remove_empty_associations t.
Proof.
  intros Hwf. split; [|split].
  - intros section key.
    rewrite (lookup_remove_empty_section t section key (proj1 Hwf)).
    unfold lookup. destruct (get_section t section) as [e|] eqn:Es;
      [|reflexivity].
    rewrite (get_key_filter nonempty e key (dict_wf_section t section e Hwf Es)).
    destruct (get_key e key) as [[|v l]|]; reflexivity.
  - destruct (remove_empty_pruned t Hwf) as [_ Hp].
    apply Forall_forall. intros se Hin. rewrite Forall_forall in Hp.
    destruct (Hp se Hin) as [Hne _]. now destruct (snd se).
  - set (n := remove_empty_associations t).
    assert (Hn : forallb (fun se : option string * entries =>
                            nonempty (snd se)) n = true)
      by apply forallb_filter_same.
    assert (Hmap : map (fun se : option string * entries =>
                          (fst se,
                           filter (fun kv : string * list string =>
                                     nonempty (snd kv)) (snd se))) n = n).
    { destruct (remove_empty_pruned t Hwf) as [_ Hp]. fold n in Hp.
      clear Hn. induction Hp as [|[s e] r (_ & Hv & _) Hp IH];
        [reflexivity|].
      cbn [map fst snd] in *. now rewrite (filter_all _ e Hv), IH. }
    unfold remove_empty_associations at 1. rewrite Hmap.
    now apply filter_all.
Qed.

Lemma remove_empty_associations_spec_witness :
  remove_empty_associations (remove_empty_associations sample_table)
  = remove_empty_associations sample_table
  /\ lookup (remove_empty_associations sample_table)
            (Some "Added Associations") "audio/ogg" = None.
Proof.
  assert (Hwf : dict_wf sample_table).
  { split; repeat constructor; simpl; intuition discriminate. }
  destruct (remove_empty_associations_spec sample_table Hwf)
    as (Hl & _ & Hi).
  split; [exact Hi|].
  rewrite Hl. reflexivity.
Defined.

(** ** Saving again what was loaded *)

Lemma list_leb_total (a b : list string) :
  list_leb a b = false -> list_leb b a = true.
Proof.
  revert b. induction a as [|x a IH]; intros [|y b]; simpl; try discriminate;
    try reflexivity.
  rewrite (String.compare_antisym y x).
  destruct (String.compare x y); simpl; try discriminate; auto.
Qed.

Lemma item_leb_total (x y : string * list string) :
  item_leb x y = false -> item_leb y x = true.
Proof.
  unfold item_leb. rewrite (String.compare_antisym (fst y) (fst x)).
  destruct (String.compare (fst x) (fst y)); simpl; try discriminate; auto.
  apply list_leb_total.
Qed.

Lemma is_sorted_cons2 (x y : string * list string) (l : entries) :
  is_sorted (x :: y :: l) = item_leb x y && is_sorted (y :: l).
Proof. reflexivity. Qed.

Lemma insert_item_is_sorted (x : string * list string) (l : entries) :
  is_sorted l = true -> is_sorted (insert_item x l) = true.
Proof.
  induction l as [|y l IH]; intros Hl; [reflexivity|].
  cbn [insert_item]. destruct (item_leb x y) eqn:Exy.
  - now rewrite is_sorted_cons2, Exy, Hl.
  - apply item_leb_total in Exy.
    destruct l as [|z l].
    + cbn [insert_item]. now rewrite is_sorted_cons2, Exy.
    + rewrite is_sorted_cons2 in Hl. apply andb_true_iff in Hl.
      destruct Hl as [Hyz Hl]. specialize (IH Hl).
      cbn [insert_item] in *. destruct (item_leb x z) eqn:Exz.
      * now rewrite is_sorted_cons2, Exy, IH.
      * now rewrite is_sorted_cons2, Hyz, IH.
Qed.

Lemma sorted_is_sorted (l : entries) : is_sorted (sorted l) = true.
Proof.
  induction l as [|x l IH]; [reflexivity|].
  cbn [sorted]. now apply insert_item_is_sorted.
Qed.

Lemma sorted_fixed (l : entries) : is_sorted l = true -> sorted l = l.
Proof.
  induction l as [|x l IH]; intros Hl; [reflexivity|].
  cbn [sorted]. destruct l as [|y l]; [reflexivity|].
  rewrite is_sorted_cons2 in Hl. apply andb_true_iff in Hl.
  destruct Hl as [Hxy Hl].
  rewrite (IH Hl). cbn [insert_item]. now rewrite Hxy.
Qed.

Lemma sorted_sorted (l : entries) : sorted (sorted l) = sorted l.
Proof. apply sorted_fixed. apply sorted_is_sorted. Qed.

Lemma write_section_sorted (s : option string) (e : entries) :
  write_section (s, sorted e) = write_section (s, e).
Proof.
  unfold write_section. cbn [fst snd].
  now rewrite sorted_nonempty, sorted_sorted.
Qed.

Lemma associations_text_normalized (n : table) :
  associations_text
    (map (fun se : option string * entries => (fst se, sorted (snd se))) n)
  = associations_text n.
Proof.
  unfold associations_text. rewrite length_map. f_equal.
  rewrite map_map. f_equal. apply map_ext. intros [s e].
  apply write_section_sorted.
Qed.

Lemma remove_empty_normalized (n : table) :
  Forall pruned_section n ->
  remove_empty_associations
    (map (fun se : option string * entries => (fst se, sorted (snd se))) n)
  = map (fun se : option string * entries => (fst se, sorted (snd se))) n.
Proof.
  intros Hp. unfold remove_empty_associations. rewrite map_map.
  induction Hp as [|[s e] r (Hne & Hv & _) Hp IH]; [reflexivity|].
  cbn [map filter fst snd] in *.
  rewrite (filter_all _ (sorted e) (sorted_forallb _ e Hv)).
  rewrite sorted_nonempty, Hne. now rewrite IH.
Qed.

(** What [load_associations] finds after [save_associations]. *)
Lemma load_after_save (fs fs' : filesystem) (path : string) (t : table) :
  dict_wf t -> table_ok (remove_empty_associations t) = true ->
  save_associations fs path t = Return fs' ->
  load_associations fs' path = normalized t.
Proof.
  intros Hwf Hok. destruct (remove_empty_pruned t Hwf) as [Hnd Hp].
  unfold load_associations, save_associations, normalized.
  destruct (remove_empty_associations t) as [|se n] eqn:En; cbn [nonempty].
  - intros H. injection H as <-. unfold fs_remove.
    now rewrite String.eqb_refl.
  - destruct (Str.is_empty (Str.dirname path)); [discriminate|].
    intros H. injection H as <-. unfold fs_write. rewrite String.eqb_refl.
    now apply parse_written_text.
Qed.

(** X7: saving is stable.  Under the conditions of the round trip, when a
    table has been saved to a path, saving to the same path the table
    that is loaded from it succeeds and leaves every file as it is: the
    second save writes the text that the first one wrote, or finds no
    file to delete. *)
Theorem save_after_load_is_stable (fs fs' : filesystem) (path : string)
  (t : table) :
  dict_wf t -> table_ok (remove_empty_associations t) = true ->
  save_associations fs path t = Return fs' ->
  exists fs'',
    save_associations fs' path (load_associations fs' path) = Return fs''
    /\ forall p, fs'' p = fs' p.
Proof.
  intros Hwf Hok Hsave.
  rewrite (load_after_save fs fs' path t Hwf Hok Hsave).
  destruct (remove_empty_pruned t Hwf) as [_ Hp].
  unfold save_associations in *. unfold normalized.
  rewrite (remove_empty_normalized _ Hp).
  destruct (remove_empty_associations t) as [|se n] eqn:En;
    cbn [map nonempty] in *.
  - injection Hsave as <-. eexists. split; [reflexivity|].
    intros p. unfold fs_remove. now destruct (String.eqb p path).
  - destruct (Str.is_empty (Str.dirname path)); [discriminate|].
    injection Hsave as <-. eexists. split; [reflexivity|].
    intros p. unfold fs_write.
    destruct (String.eqb p path); [|reflexivity].
    f_equal.
    exact (associations_text_normalized (se :: n)).
Qed.

Lemma save_after_load_is_stable_witness :
  exists fs'',
    save_associations
      (fs_write no_files "/home/u/.config/mimeapps.list"
         (associations_text (remove_empty_associations sample_table)))
      "/home/u/.config/mimeapps.list"
      (load_associations
         (fs_write no_files "/home/u/.config/mimeapps.list"
            (associations_text (remove_empty_associations sample_table)))
         "/home/u/.config/mimeapps.list")
    = Return fs''
    /\ forall p,
         fs'' p
         = fs_write no_files "/home/u/.config/mimeapps.list"
             (associations_text (remove_empty_associations sample_table)) p.
Proof.
  assert (Hwf : dict_wf sample_table).
  { split; repeat constructor; simpl; intuition discriminate. }
  exact (save_after_load_is_stable no_files _ "/home/u/.config/mimeapps.list"
           sample_table Hwf eq_refl eq_refl).
Defined.

(** ** What parsing lets through *)

Lemma classify_entry_inv (line key : string) (desktops : list string) :
  classify line = Entry key desktops ->
  exists mimetype d,
    Str.split1 "=" (Str.strip line) = Some (mimetype, d)
    /\ key = Str.rstrip mimetype
    /\ desktops = parse_desktops d /\ desktops <> [].
Proof.
  unfold classify.
  destruct (Str.first (Str.strip line)) as [a|]; [|discriminate].
  destruct (Str.last (Str.strip line)) as [b|]; [|discriminate].
  destruct (Ascii.eqb a "#"); [discriminate|].
  destruct (Ascii.eqb a "[" && Ascii.eqb b "]"); [discriminate|].
  destruct (Str.split1 "=" (Str.strip line)) as [[m d]|]; [|discriminate].
  destruct (parse_desktops d) as [|x xs] eqn:Ed; [discriminate|].
  intros H. injection H as <- <-. exists m, d.
  split; [reflexivity|]. split; [reflexivity|].
  split; [now rewrite Ed|discriminate].
Qed.

Lemma classify_ignored (line : string) :
  Str.strip line = ""
  \/ Str.first (Str.strip line) = Some "#"%char
  \/ (Str.mem "=" (Str.strip line) = false
      /\ (Str.first (Str.strip line) <> Some "["%char
          \/ Str.last (Str.strip line) <> Some "]"%char)) ->
  classify line = Ignored.
Proof.
  unfold classify. intros [H|[H|[Heq Hhead]]].
  - now rewrite H.
  - rewrite H. now destruct (Str.last (Str.strip line)).
  - destruct (Str.first (Str.strip line)) as [a|]; [|reflexivity].
    destruct (Str.last (Str.strip line)) as [b|]; [|reflexivity].
    destruct (Ascii.eqb a "#"); [reflexivity|].
    assert (Hh : Ascii.eqb a "[" && Ascii.eqb b "]" = false).
    { destruct (Ascii.eqb_spec a "[") as [->|_]; [|reflexivity].
      destruct (Ascii.eqb_spec b "]") as [->|_]; [|reflexivity].
      destruct Hhead as [Hf|Hl]; [now elim Hf|now elim Hl]. }
    rewrite Hh.
    apply split1_none in Heq. now rewrite Heq.
Qed.

Lemma parse_line_ignored (st : parse_state) (line : string) :
  classify line = Ignored -> parse_line st line = st.
Proof.
  destruct st as [section associations]. intros H.
  now rewrite parse_line_classify, H.
Qed.

(** X8: a blank line, a comment line and a line without an equals sign
    that is not a section header (it does not start with an opening
    bracket, or does not end with a closing one) change nothing, wherever
    they stand in the file: [parse_associations] returns the table it
    returns without the line. *)
Theorem parse_associations_skips (pre post : list string) (line : string) :
  Str.strip line = ""
  \/ Str.first (Str.strip line) = Some "#"%char
  \/ (Str.mem "=" (Str.strip line) = false
      /\ (Str.first (Str.strip line) <> Some "["%char
          \/ Str.last (Str.strip line) <> Some "]"%char)) ->
  parse_associations (pre ++ line :: post) = parse_associations (pre ++ post).
Proof.
  intros H. unfold parse_associations. rewrite !fold_left_app.
  cbn [fold_left].
  now rewrite (parse_line_ignored _ line (classify_ignored line H)).
Qed.

Lemma parse_associations_skips_witness :
  parse_associations
    (["[Added Associations]"; "text/plain=a.desktop;"]
     ++ "Added Associations]" :: ["image/png=gimp.desktop;"])
  = parse_associations
      (["[Added Associations]"; "text/plain=a.desktop;"]
       ++ ["image/png=gimp.desktop;"]).
Proof.
  assert (H : Str.first (Str.strip "Added Associations]") <> Some "["%char)
    by discriminate.
  exact (parse_associations_skips
           ["[Added Associations]"; "text/plain=a.desktop;"]
           ["image/png=gimp.desktop;"] "Added Associations]"
           (or_intror (or_intror (conj eq_refl (or_introl H))))).
Defined.

Lemma basename_no_slash (s : string) : Str.mem "/" (Str.basename s) = false.
Proof.
  induction s as [|c r IH]; [reflexivity|].
  cbn [Str.basename]. destruct (Str.mem "/" r) eqn:Er; [exact IH|].
  destruct (Ascii.eqb_spec c "/") as [->|Hc]; [exact Er|].
  rewrite mem_cons, Er.
  destruct (Ascii.eqb_spec "/" c); [congruence|reflexivity].
Qed.

Lemma rstrip_mem (c : ascii) (s : string) :
  Str.mem c s = false -> Str.mem c (Str.rstrip s) = false.
Proof.
  induction s as [|d s IH]; [reflexivity|].
  rewrite mem_cons. intros H. apply orb_false_iff in H. destruct H as [Hd Hs].
  cbn [Str.rstrip].
  destruct (Str.is_empty (Str.rstrip s) && Str.isspace d); [reflexivity|].
  now rewrite mem_cons, Hd, (IH Hs).
Qed.

Lemma parse_desktops_no_slash (d : string) :
  Forall (fun v => Str.mem "/" v = false) (parse_desktops d).
Proof.
  unfold parse_desktops. apply Forall_forall. intros v Hv.
  apply in_map_iff in Hv. destruct Hv as (x & <- & _).
  apply basename_no_slash.
Qed.

(** What every entry of a file satisfies. *)
Lemma entries_from_ok (lines : list string) (section : option string) :
  Forall (fun e : file_entry =>
            snd e <> []
            /\ Forall (fun v => Str.mem "/" v = false) (snd e)
            /\ Str.mem "=" (snd (fst e)) = false)
         (entries_from section lines).
Proof.
  revert section. induction lines as [|line lines IH]; intros section;
    [constructor|].
  cbn [entries_from]. destruct (classify line) as [|s|k ds] eqn:Ec;
    try apply IH.
  constructor; [|apply IH]. cbn [fst snd].
  destruct (classify_entry_inv line k ds Ec) as (m & d & Hs & -> & -> & Hne).
  repeat split; [exact Hne|apply parse_desktops_no_slash|].
  apply rstrip_mem. now destruct (split1_some "=" _ m d Hs).
Qed.

Lemma last_value_in (l : list file_entry) (section : option string)
  (key : string) (ds : list string) :
  last_value l section key = Some ds -> In (section, key, ds) l.
Proof.
  unfold last_value.
  assert (H : forall acc,
             fold_left
               (fun acc (e : file_entry) =>
                  let '(s, k, desktops) := e in
                  if opt_eqb s section && String.eqb k key
                  then Some desktops else acc) l acc = Some ds ->
             acc = Some ds \/ In (section, key, ds) l).
  { induction l as [|[[s k] d] l IH]; intros acc; cbn [fold_left].
    - now left.
    - intros H. destruct (IH _ H) as [Hacc|Hin]; [|right; now right].
      destruct (opt_eqb_spec s section) as [->|]; cbn [andb] in Hacc;
        [|now left].
      destruct (String.eqb_spec k key) as [->|]; [|now left].
      injection Hacc as ->. right. now left. }
  intros Hl. destruct (H None Hl) as [E|Hin]; [discriminate|exact Hin].
Qed.

(** X9: whatever the lines are, the table that [parse_associations]
    returns has no empty list, no value with a slash (every value is
    reduced to its base name) and no key with an equals sign. *)
Theorem parse_associations_values (lines : list string)
  (section : option string) (key : string) (l : list string) :
  lookup (parse_associations lines) section key = Some l ->
  l <> []
  /\ Forall (fun v => Str.mem "/" v = false) l
  /\ Str.mem "=" key = false.
Proof.
  rewrite parse_associations_store, lookup_fold_store. intros H.
  apply (last_value_in (file_entries lines) section key l) in H.
  pose proof (entries_from_ok lines None) as Hok.
  rewrite Forall_forall in Hok. exact (Hok _ H).
Qed.

Lemma parse_associations_values_witness :
  ["vim.desktop"] <> []
  /\ Forall (fun v => Str.mem "/" v = false) ["vim.desktop"]
  /\ Str.mem "=" "text/plain" = false.
Proof.
  exact (parse_associations_values sample_lines (Some "Added Associations")
           "text/plain" ["vim.desktop"] eq_refl).
Defined.

(** ** Removing duplicates *)

Section UniqueFacts.
Variable A : Type.
Variable eqb : A -> A -> bool.
Hypothesis eqb_spec : forall a b, reflect (a = b) (eqb a b).

Lemma existsb_eqb_In (x : A) (l : list A) :
  existsb (eqb x) l = true <-> In x l.
Proof.
  rewrite existsb_exists. split.
  - intros (y & Hy & E). destruct (eqb_spec x y); [now subst|discriminate].
  - intros H. exists x. split; [exact H|].
    destruct (eqb_spec x x); congruence.
Qed.

Lemma existsb_eqb_notin (x : A) (l : list A) :
  existsb (eqb x) l = false <-> ~ In x l.
Proof.
  rewrite <- existsb_eqb_In. destruct (existsb (eqb x) l); intuition congruence.
Qed.

Lemma unique_from_in (l seen : list A) (x : A) :
  In x (unique_from eqb seen l) <-> In x l /\ ~ In x seen.
Proof.
  revert seen. induction l as [|y l IH]; intros seen; cbn [unique_from].
  - simpl. tauto.
  - destruct (existsb (eqb y) seen) eqn:Ey.
    + apply existsb_eqb_In in Ey. rewrite IH. simpl. split.
      * intros [H1 H2]. tauto.
      * intros [[<-|H1] H2]; [contradiction|tauto].
    + apply existsb_eqb_notin in Ey. simpl. rewrite IH. simpl. split.
      * intros [<-|[H1 H2]]; [tauto|]. split; [tauto|]. intros H. apply H2.
        now right.
      * intros [[<-|H1] H2]; [now left|].
        destruct (eqb_spec y x) as [->|Hne]; [now left|].
        right. split; [exact H1|]. intros [E|H]; [contradiction|contradiction].
Qed.

Lemma unique_from_nodup (l seen : list A) : NoDup (unique_from eqb seen l).
Proof.
  revert seen. induction l as [|y l IH]; intros seen; cbn [unique_from];
    [constructor|].
  destruct (existsb (eqb y) seen); [apply IH|].
  constructor; [|apply IH].
  intros H. apply unique_from_in in H. destruct H as [_ H]. apply H. now left.
Qed.

Lemma unique_from_fixed (l seen : list A) :
  NoDup l -> (forall x, In x l -> ~ In x seen) ->
  unique_from eqb seen l = l.
Proof.
  revert seen. induction l as [|y l IH]; intros seen Hnd Hseen; [reflexivity|].
  inversion Hnd as [|? ? Hy Hl]; subst. cbn [unique_from].
  assert (Ey : existsb (eqb y) seen = false).
  { apply existsb_eqb_notin. apply Hseen. now left. }
  rewrite Ey. f_equal. apply IH; [exact Hl|].
  intros x Hx [<-|H]; [contradiction|].
  apply (Hseen x); [now right|exact H].
Qed.

(** What has been seen matters only through its members. *)
Lemma unique_from_ext (l seen seen' : list A) :
  (forall x, In x seen <-> In x seen') ->
  unique_from eqb seen l = unique_from eqb seen' l.
Proof.
  revert seen seen'. induction l as [|y l IH]; intros seen seen' H;
    [reflexivity|].
  cbn [unique_from].
  assert (E : existsb (eqb y) seen = existsb (eqb y) seen').
  { destruct (existsb (eqb y) seen') eqn:E'.
    - apply existsb_eqb_In. apply H. now apply existsb_eqb_In.
    - apply existsb_eqb_notin. intros Hin. apply H in Hin.
      now apply existsb_eqb_notin in E'. }
  rewrite E. destruct (existsb (eqb y) seen'); [now apply IH|].
  f_equal. apply IH. intros x. simpl. now rewrite H.
Qed.

(** X10: the decorator [unique_items] yields every item of the decorated
    generator exactly once: the result has no duplicates and the same
    members, and a generator that never repeats an item is left as it
    is. *)
Theorem unique_items_spec (l : list A) :
  NoDup (unique_items eqb l)
  /\ (forall x, In x (unique_items eqb l) <-> In x l)
  /\ (NoDup l -> unique_items eqb l = l).
Proof.
  unfold unique_items. split; [apply unique_from_nodup|]. split.
  - intros x. rewrite unique_from_in. simpl. tauto.
  - intros H. apply unique_from_fixed; [exact H|]. intros x _ [].
Qed.

End UniqueFacts.

Arguments existsb_eqb_In {A eqb} eqb_spec x l.
Arguments existsb_eqb_notin {A eqb} eqb_spec x l.
Arguments unique_from_in {A eqb} eqb_spec l seen x.
Arguments unique_from_nodup {A eqb} eqb_spec l seen.
Arguments unique_from_fixed {A eqb} eqb_spec l seen.
Arguments unique_from_ext {A eqb} eqb_spec l seen seen'.

Lemma unique_items_spec_witness :
  NoDup (unique_items String.eqb ["a"; "b"; "a"; "c"; "b"])
  /\ unique_items String.eqb ["a"; "b"; "a"; "c"; "b"] = ["a"; "b"; "c"].
Proof.
  split.
  - exact (proj1 (unique_items_spec string String.eqb String.eqb_spec
                    ["a"; "b"; "a"; "c"; "b"])).
  - reflexivity.
Defined.

(** ** Collecting pairs *)

Section CollectFacts.
Variables A B : Type.
Variable eqa : A -> A -> bool.
Variable eqb : B -> B -> bool.
Hypothesis eqa_spec : forall a b, reflect (a = b) (eqa a b).
Hypothesis eqb_spec : forall a b, reflect (a = b) (eqb a b).

Lemma gathered_cons_new (unique_b : bool) (bs : list B) (b : B)
  (rest : list B) :
  negb unique_b || negb (existsb (eqb b) bs) = true ->
  ((bs ++ [b]) ++ gathered eqb unique_b (bs ++ [b]) rest
   = bs ++ gathered eqb unique_b bs (b :: rest))%list.
Proof.
  unfold gathered. destruct unique_b; cbn [negb orb]; intros H.
  - apply negb_true_iff in H. cbn [unique_from]. rewrite H.
    rewrite <- app_assoc. cbn [app]. do 2 f_equal.
    apply (unique_from_ext eqb_spec). intros x. rewrite in_app_iff. simpl.
    tauto.
  - now rewrite <- app_assoc.
Qed.

Lemma collect_get (unique_b : bool) (itr : list (A * B))
  (acc : list (A * list B)) (a : A) :
  Dict.get eqa (fold_left (collect_step eqa eqb unique_b) itr acc) a
  = match Dict.get eqa acc a with
    | Some bs => Some (bs ++ gathered eqb unique_b bs (bs_of eqa a itr))
    | None =>
        match bs_of eqa a itr with
        | [] => None
        | b :: r => Some (b :: gathered eqb unique_b [b] r)
        end
    end.
Proof.
  revert acc. induction itr as [|[a' b'] itr IH]; intros acc.
  - cbn [fold_left]. unfold bs_of, gathered. cbn [filter map].
    destruct (Dict.get eqa acc a); [|reflexivity].
    destruct unique_b; cbn [unique_from]; now rewrite app_nil_r.
  - cbn [fold_left]. rewrite IH. unfold bs_of. cbn [filter fst].
    fold (bs_of eqa a itr). unfold collect_step.
    destruct (eqa_spec a a') as [<-|Hne].
    + cbn [map snd].
      destruct (Dict.get eqa acc a) as [bs|] eqn:Eg.
      * destruct (negb unique_b || negb (existsb (eqb b') bs)) eqn:Ec.
        -- rewrite (dict_get_set_same eqa_spec). f_equal.
           now apply gathered_cons_new.
        -- rewrite Eg. apply orb_false_iff in Ec. destruct Ec as [Eu Eb].
           apply negb_false_iff in Eu, Eb. subst unique_b.
           unfold gathered. cbn [unique_from]. now rewrite Eb.
      * rewrite (dict_get_set_same eqa_spec). reflexivity.
    + assert (Hother : forall v,
                 Dict.get eqa (Dict.set eqa acc a' v) a = Dict.get eqa acc a).
      { intros v. now apply (dict_get_set_other eqa_spec). }
      destruct (Dict.get eqa acc a') as [bs'|];
        [destruct (negb unique_b || negb (existsb (eqb b') bs'))|];
        now rewrite ?Hother.
Qed.

Lemma collect_keys (unique_b : bool) (itr : list (A * B))
  (acc : list (A * list B)) :
  Dict.keys (fold_left (collect_step eqa eqb unique_b) itr acc)
  = Dict.keys acc ++ unique_from eqa (Dict.keys acc) (map fst itr).
Proof.
  revert acc. induction itr as [|[a' b'] itr IH]; intros acc.
  - cbn [fold_left map unique_from]. now rewrite app_nil_r.
  - cbn [fold_left map fst unique_from]. rewrite IH. unfold collect_step.
    destruct (Dict.get eqa acc a') as [bs|] eqn:Eg.
    + assert (Hin : existsb (eqa a') (Dict.keys acc) = true).
      { apply (existsb_eqb_In eqa_spec).
        destruct (in_dec (fun x y => match eqa_spec x y with
                                     | ReflectT _ e => left e
                                     | ReflectF _ n => right n
                                     end) a' (Dict.keys acc)) as [H|H];
          [exact H|].
        apply (dict_get_none_notin eqa_spec) in H. congruence. }
      rewrite Hin.
      destruct (negb unique_b || negb (existsb (eqb b') bs));
        [|reflexivity].
      now rewrite (dict_keys_set_present eqa_spec acc a' _ bs Eg).
    + assert (Hnin : existsb (eqa a') (Dict.keys acc) = false).
      { apply (existsb_eqb_notin eqa_spec).
        now apply (dict_get_none_notin eqa_spec). }
      rewrite Hnin, (dict_set_absent eqa_spec acc a' _ Eg).
      unfold Dict.keys. rewrite map_app. cbn [map fst].
      rewrite <- app_assoc. cbn [app]. do 2 f_equal.
      apply (unique_from_ext eqa_spec). intros x. rewrite in_app_iff. simpl.
      tauto.
Qed.

(** X11: [collect_b_by_a] groups the second items by the first: the keys
    of the result are the first items in the order of their first
    appearance, each once, and the list of a key holds the second items
    that came with it, in their order, each once when [unique_b] is set
    and all of them when it is not; an item that never came first is not
    a key. *)
Theorem collect_b_by_a_spec (itr : list (A * B)) (unique_b : bool) :
  Dict.keys (collect_b_by_a eqa eqb itr unique_b)
  = unique_items eqa (map fst itr)
  /\ forall a,
       Dict.get eqa (collect_b_by_a eqa eqb itr unique_b) a
       = match bs_of eqa a itr with
         | [] => None
         | bs => Some (if unique_b then unique_items eqb bs else bs)
         end.
Proof.
  unfold collect_b_by_a. split.
  - now rewrite collect_keys.
  - intros a. rewrite collect_get. cbn [Dict.get].
    destruct (bs_of eqa a itr) as [|b r]; [reflexivity|].
    unfold gathered, unique_items. now destruct unique_b.
Qed.

End CollectFacts.

Lemma collect_b_by_a_spec_witness :
  collect_b_by_a String.eqb String.eqb
    (swap_a_and_b [("a.txt", "vim"); ("b.png", "gimp"); ("c.txt", "vim");
                   ("a.txt", "vim")])
    true
  = [("vim", ["a.txt"; "c.txt"]); ("gimp", ["b.png"])]
  /\ Dict.keys
       (collect_b_by_a String.eqb String.eqb
          (swap_a_and_b [("a.txt", "vim"); ("b.png", "gimp");
                         ("c.txt", "vim"); ("a.txt", "vim")])
          true)
     = unique_items String.eqb ["vim"; "gimp"; "vim"; "vim"].
Proof.
  split; [reflexivity|].
  exact (proj1 (collect_b_by_a_spec string string String.eqb String.eqb
                  String.eqb_spec String.eqb_spec
                  (swap_a_and_b [("a.txt", "vim"); ("b.png", "gimp");
                                 ("c.txt", "vim"); ("a.txt", "vim")])
                  true)).
Defined.

(** ** Names of desktop files *)

Lemma append_length (a b : string) :
  String.length (a ++ b) = String.length a + String.length b.
Proof. induction a as [|c a IH]; simpl; [reflexivity|now rewrite IH]. Qed.

Lemma drop_append (a b : string) : Str.drop (String.length a) (a ++ b) = b.
Proof. induction a as [|c a IH]; simpl; [now destruct b|exact IH]. Qed.

Lemma endswith_append (a suffix : string) :
  Str.endswith suffix (a ++ suffix) = true.
Proof.
  unfold Str.endswith. rewrite append_length.
  replace (String.length a + String.length suffix - String.length suffix)
    with (String.length a) by lia.
  rewrite drop_append, String.eqb_refl, andb_true_r.
  apply Nat.leb_le. lia.
Qed.

(** X12: every name that [ensure_desktop_names] yields ends with the
    desktop extension and has no slash, and a name that it has yielded is
    yielded unchanged when it is passed in again. *)
Theorem ensure_desktop_names_spec (args : list string) :
  Forall (fun d => Str.endswith DESKTOP_EXTENSION d = true
                   /\ Str.mem "/" d = false)
         (ensure_desktop_names args)
  /\ ensure_desktop_names (ensure_desktop_names args)
     = ensure_desktop_names args.
Proof.
  assert (Hone : forall a,
             Str.endswith DESKTOP_EXTENSION (ensure_desktop_name a) = true
             /\ Str.mem "/" (ensure_desktop_name a) = false).
  { intros a. unfold ensure_desktop_name.
    destruct (Str.endswith DESKTOP_EXTENSION (Str.basename a)) eqn:E.
    - split; [exact E|apply basename_no_slash].
    - split; [apply endswith_append|].
      now rewrite mem_app, basename_no_slash. }
  unfold ensure_desktop_names. split.
  - apply Forall_forall. intros d Hd. apply in_map_iff in Hd.
    destruct Hd as (a & <- & _). apply Hone.
  - rewrite map_map. apply map_ext. intros a.
    destruct (Hone a) as [He Hs].
    unfold ensure_desktop_name at 1.
    now rewrite (basename_noslash _ Hs), He.
Qed.

(** ** The components of a MIME-type *)

Lemma rsplit1_some (c : ascii) (s a b : string) :
  Str.rsplit1 c s = Some (a, b) ->
  s = (a ++ String c b)%string /\ Str.mem c b = false.
Proof.
  revert a b. induction s as [|d s IH]; intros a b; cbn [Str.rsplit1];
    [discriminate|].
  destruct (Str.rsplit1 c s) as [[a' b']|] eqn:Er.
  - intros H. injection H as <- <-.
    destruct (IH a' b' eq_refl) as [-> Hm]. now split.
  - destruct (Ascii.eqb_spec d c) as [->|Hne]; [|discriminate].
    intros H. injection H as <- <-. split; [reflexivity|].
    clear IH. induction s as [|e s IH]; [reflexivity|].
    cbn [Str.rsplit1] in Er.
    destruct (Str.rsplit1 c s) as [[a' b']|]; [discriminate|].
    destruct (Ascii.eqb_spec e c) as [->|He]; [discriminate|].
    rewrite mem_cons, (IH eq_refl).
    destruct (Ascii.eqb_spec c e); [congruence|reflexivity].
Qed.

(** The three guarded unpackings of [parse_mimetype]. *)
Lemma parse_mimetype_inv (m type_name : string) (tree : option string)
  (subtype_name : string) (suffix parameters : option string) :
  parse_mimetype m
  = Return (type_name, tree, subtype_name, suffix, parameters) ->
  unparse_mimetype (type_name, tree, subtype_name, suffix, parameters) = m
  /\ Str.mem "/" type_name = false
  /\ opt_mem "." tree = false
  /\ Str.mem "+" subtype_name = false
  /\ opt_mem ";" parameters = false.
Proof.
  unfold parse_mimetype.
  destruct (Str.split1 "/" m) as [[t rest]|] eqn:E1; [|discriminate].
  destruct (split1_some _ _ _ _ E1) as [-> Ht].
  set (r1 := match Str.split1 "." rest with
             | Some (t0, r) => (Some t0, r)
             | None => (None, rest)
             end).
  assert (H1 : rest = (match fst r1 with Some t0 => t0 ++ "." | None => "" end
                       ++ snd r1)%string
               /\ opt_mem "." (fst r1) = false).
  { unfold r1. destruct (Str.split1 "." rest) as [[t0 r]|] eqn:E2.
    - destruct (split1_some _ _ _ _ E2) as [-> Hm]. cbn [fst snd opt_mem].
      split; [now rewrite append_assoc|exact Hm].
    - now split. }
  destruct r1 as [tr rest1]. cbn [fst snd] in H1. destruct H1 as [-> Htr].
  set (r2 := match Str.rsplit1 ";" rest1 with
             | Some (r, p) => (r, Some p)
             | None => (rest1, None)
             end).
  assert (H2 : rest1 = (fst r2 ++ match snd r2 with
                                  | Some q => ";" ++ q
                                  | None => ""
                                  end)%string
               /\ opt_mem ";" (snd r2) = false).
  { unfold r2. destruct (Str.rsplit1 ";" rest1) as [[r p]|] eqn:E3.
    - destruct (rsplit1_some _ _ _ _ E3) as [-> Hm]. now split.
    - cbn [fst snd opt_mem]. now rewrite append_nil_r. }
  destruct r2 as [rest2 pa]. cbn [fst snd] in H2. destruct H2 as [-> Hpa].
  set (r3 := match Str.split1 "+" rest2 with
             | Some (s, x) => (s, Some x)
             | None => (rest2, None)
             end).
  assert (H3 : rest2 = (fst r3 ++ match snd r3 with
                                  | Some x => "+" ++ x
                                  | None => ""
                                  end)%string
               /\ Str.mem "+" (fst r3) = false).
  { unfold r3. destruct (Str.split1 "+" rest2) as [[s x]|] eqn:E4.
    - destruct (split1_some _ _ _ _ E4) as [-> Hm]. now split.
    - cbn [fst snd]. rewrite append_nil_r. split; [reflexivity|].
      now apply split1_none. }
  destruct r3 as [su sx]. cbn [fst snd] in H3. destruct H3 as [-> Hsu].
  intros H. injection H as <- <- <- <- <-.
  repeat split; try assumption.
  unfold unparse_mimetype. now rewrite !append_assoc.
Qed.

(** X13: [parse_mimetype] loses nothing: the string is its top-level type
    name, a slash, the tree with a dot if there is one, the subtype name,
    the suffix after a plus sign if there is one and the parameters after
    a semicolon if there are any; the type name has no slash, the tree no
    dot, the subtype name no plus sign and the parameters no semicolon. *)
Theorem parse_mimetype_lossless (m : string) (p : mimetype_parts) :
  parse_mimetype m = Return p ->
  unparse_mimetype p = m
  /\ let '(type_name, tree, subtype_name, suffix, parameters) := p in
     Str.mem "/" type_name = false
     /\ opt_mem "." tree = false
     /\ Str.mem "+" subtype_name = false
     /\ opt_mem ";" parameters = false.
Proof.
  destruct p as [[[[type_name tree] subtype_name] suffix] parameters].
  intros H. now apply parse_mimetype_inv.
Qed.

Lemma parse_mimetype_lossless_witness :
  unparse_mimetype ("application", Some "vnd", "ms-excel", Some "xml",
                    Some "charset=utf-8")
  = "application/vnd.ms-excel+xml;charset=utf-8".
Proof.
  exact (proj1 (parse_mimetype_lossless
                  "application/vnd.ms-excel+xml;charset=utf-8"
                  ("application", Some "vnd", "ms-excel", Some "xml",
                   Some "charset=utf-8") eq_refl)).
Defined.

(** X14: for a MIME-type that parses, [strip_mimetype] gives the
    top-level type name, a slash and the subtype name; the result parses
    again, with the same top-level type name, and it is the MIME-type
    itself exactly when the MIME-type has no tree, no suffix and no
    parameters, which is when the resolver looks up one form only. *)
Theorem strip_mimetype_spec (m type_name : string) (tree : option string)
  (subtype_name : string) (suffix parameters : option string) :
  parse_mimetype m
  = Return (type_name, tree, subtype_name, suffix, parameters) ->
  strip_mimetype m = Return (type_name ++ "/" ++ subtype_name)%string
  /\ (exists tree' subtype_name' suffix' parameters',
        parse_mimetype (type_name ++ "/" ++ subtype_name)
        = Return (type_name, tree', subtype_name', suffix', parameters'))
  /\ ((type_name ++ "/" ++ subtype_name)%string = m
      <-> tree = None /\ suffix = None /\ parameters = None).
Proof.
  intros Hp. destruct (parse_mimetype_inv _ _ _ _ _ _ Hp)
    as (Hun & Ht & _).
  split; [unfold strip_mimetype; now rewrite Hp|]. split.
  - unfold parse_mimetype.
    change (type_name ++ "/" ++ subtype_name)%string
      with (type_name ++ String "/" subtype_name)%string.
    rewrite (split1_app "/" type_name subtype_name Ht).
    destruct (Str.split1 "." subtype_name) as [[t r]|];
      [destruct (Str.rsplit1 ";" r) as [[r1 p]|]
      |destruct (Str.rsplit1 ";" subtype_name) as [[r1 p]|]];
      match goal with
      | |- context [Str.split1 "+" ?x] =>
          destruct (Str.split1 "+" x) as [[s x']|]
      end; eauto.
  - split.
    + intros E. rewrite <- Hun in E. unfold unparse_mimetype in E.
      apply (f_equal String.length) in E.
      rewrite !append_length in E.
      destruct tree as [t|], suffix as [x|], parameters as [q|];
        rewrite ?append_length in E; simpl in E; try lia.
      now repeat split.
    + intros (-> & -> & ->). rewrite <- Hun. unfold unparse_mimetype.
      now rewrite !append_nil_r.
Qed.

Lemma strip_mimetype_spec_witness :
  strip_mimetype "application/vnd.ms-excel+xml;charset=utf-8"
  = Return "application/ms-excel".
Proof.
  exact (proj1 (strip_mimetype_spec
                  "application/vnd.ms-excel+xml;charset=utf-8"
                  "application" (Some "vnd") "ms-excel" (Some "xml")
                  (Some "charset=utf-8") eq_refl)).
Defined.

(** ** What the resolver yields *)

(** X15: the shape of what [mimetype_to_desktop_filepaths] yields when
    it does not raise: no item twice; at most one item with
    [first_only]; only existing paths with [only_existing]; at least one
    item with [at_least_one]; and [None] only as the single item, when
    nothing was found and [at_least_one] is set. *)
Theorem resolution_shape (env : environment) (mimetype : string)
  (at_least_one first_only only_existing : bool)
  (paths : list (option string)) :
  mimetype_to_desktop_filepaths env mimetype at_least_one first_only
    only_existing = Return paths ->
  NoDup paths
  /\ (first_only = true -> List.length paths <= 1)
  /\ (only_existing = true ->
      forall p, In (Some p) paths -> path_exists env p = true)
  /\ (at_least_one = true -> paths <> [])
  /\ (In None paths -> paths = [None] /\ at_least_one = true).
Proof.
  unfold mimetype_to_desktop_filepaths.
  destruct (strip_mimetype mimetype) as [stripped|e]; [|discriminate].
  cbn [bind].
  set (found := filter _ _).
  intros H. injection H as <-.
  assert (Hu : forall l : list (option string),
             NoDup (unique_items opt_eqb l)
             /\ (forall x, In x (unique_items opt_eqb l) <-> In x l)
             /\ True).
  { intros l. unfold unique_items.
    split; [apply (unique_from_nodup opt_eqb_spec)|]. split; [|exact I].
    intros x. rewrite (unique_from_in opt_eqb_spec). simpl. tauto. }
  assert (Hfound : only_existing = true ->
                   forall p, In p found -> path_exists env p = true).
  { intros -> p Hp. unfold found in Hp. apply filter_In in Hp.
    now destruct Hp as [_ Hp]. }
  split; [apply Hu|].
  destruct found as [|fpath rest] eqn:Ef.
  - destruct at_least_one; cbn.
    + split; [lia|]. split; [intros _ p [Hp|[]]; discriminate|].
      split; [discriminate|]. now split.
    + split; [lia|]. split; [intros _ p []|].
      split; [discriminate|]. intros [].
  - destruct first_only.
    + cbn. split; [lia|]. split.
      * intros Ho p [Hp|[]]. injection Hp as <-.
        apply (Hfound Ho). now left.
      * split; [discriminate|]. intros [Hp|[]]; discriminate.
    + destruct (Hu (map Some (fpath :: rest))) as (_ & Hmem & _).
      split; [discriminate|]. split.
      * intros Ho p Hp. apply Hmem in Hp. apply in_map_iff in Hp.
        destruct Hp as (x & Hx & Hin). injection Hx as ->.
        now apply (Hfound Ho).
      * split.
        -- intros _ E.
           assert (Hin : In (Some fpath)
                            (unique_items opt_eqb (map Some (fpath :: rest))))
             by (apply Hmem; now left).
           rewrite E in Hin. destruct Hin.
        -- intros Hn. apply Hmem in Hn. apply in_map_iff in Hn.
           destruct Hn as (x & Hx & _). discriminate.
Qed.

Lemma resolution_shape_witness :
  NoDup [Some "/usr/local/share/applications/vim.desktop"]
  /\ (true = true ->
      forall p,
        In (Some p) [Some "/usr/local/share/applications/vim.desktop"] ->
        path_exists sample_env p = true).
Proof.
  destruct (resolution_shape sample_env "text/plain" false false true
              [Some "/usr/local/share/applications/vim.desktop"] eq_refl)
    as (H1 & _ & H3 & _).
  split; [exact H1|exact H3].
Defined.

(** ** The added associations *)

Lemma extend_added_prefix (bl items acc : list string) :
  exists extra,
    extend_added bl acc items = acc ++ extra
    /\ (forall x, In x extra -> ~ In x acc)
    /\ NoDup extra.
Proof.
  revert acc. induction items as [|a items IH]; intros acc; cbn [extend_added].
  - exists []. rewrite app_nil_r.
    split; [reflexivity|]. split; [intros x []|constructor].
  - destruct (negb (mem_str a bl) && negb (mem_str a acc)) eqn:E.
    + apply andb_true_iff in E. destruct E as [_ Ea].
      apply negb_true_iff in Ea. apply mem_str_false in Ea.
      destruct (IH (acc ++ [a])) as (extra & He & Hx & Hnd).
      exists (a :: extra). rewrite He, <- app_assoc.
      split; [reflexivity|]. split.
      * intros x [<-|Hin]; [exact Ea|].
        intros H. apply (Hx x Hin). apply in_or_app. now left.
      * constructor; [|exact Hnd].
        intros Hin. apply (Hx a Hin). apply in_or_app. right. now left.
    + apply IH.
Qed.

Lemma merge_source_added (env : environment) (mimetype : string)
  (st : resolver_state) (path : string) :
  exists extra,
    added (merge_source env mimetype st path)
    = filter (fun a => negb (mem_str a
                               (blacklist (merge_source env mimetype st path))))
             (added st)
      ++ extra
    /\ (NoDup (added st) ->
        NoDup (added (merge_source env mimetype st path))).
Proof.
  unfold merge_source. cbn [added blacklist].
  set (bl := blacklist st ++ _).
  destruct (extend_added_prefix bl
              (iterate_associations (get_associations env path)
                 ADDED_ASSOCIATIONS_SECTION mimetype)
              (filter (fun a => negb (mem_str a bl)) (added st)))
    as (extra & He & Hx & Hnd).
  exists extra. split; [exact He|].
  intros H. rewrite He.
  apply NoDup_app; [now apply NoDup_filter|exact Hnd|].
  intros x Hin Hex. now apply (Hx x Hex).
Qed.

Lemma fold_merge_nodup (env : environment) (mimetype : string)
  (paths : list string) (st : resolver_state) :
  NoDup (added st) ->
  NoDup (added (fold_left (merge_source env mimetype) paths st)).
Proof.
  revert st. induction paths as [|p paths IH]; intros st H; [exact H|].
  cbn [fold_left]. apply IH.
  destruct (merge_source_added env mimetype st p) as (_ & _ & Hnd). auto.
Qed.

Lemma local_associations_nodup (env : environment) (mimetype : string)
  (st : resolver_state) (path : string) :
  NoDup (added st) ->
  NoDup (iterate_associations
           (get_associations env
              (Str.path_join (Str.dirname path) MIMEINFO_CACHE_FILE))
           MIME_CACHE_SECTION mimetype) ->
  NoDup (local_associations env mimetype st path).
Proof.
  intros Ha Hc. unfold local_associations.
  apply NoDup_app; [exact Ha|now apply NoDup_filter|].
  intros x Hx Hf. apply filter_In in Hf. destruct Hf as [_ Hf].
  apply andb_true_iff in Hf. destruct Hf as [_ Hf].
  apply negb_true_iff in Hf. now apply mem_str_false in Hf.
Qed.

Lemma candidates_from_nodup (env : environment) (mimetype : string)
  (paths : list string) (st : resolver_state) :
  (forall path,
     NoDup (iterate_associations (get_associations env path)
              MIME_CACHE_SECTION mimetype)) ->
  NoDup (added st) ->
  forall pc, In pc (candidates_from env mimetype st paths) -> NoDup (snd pc).
Proof.
  intros Hc. revert st. induction paths as [|p paths IH]; intros st Ha pc Hin;
    [destruct Hin|].
  cbn [candidates_from] in Hin.
  assert (Ha' : NoDup (added (merge_source env mimetype st p))).
  { destruct (merge_source_added env mimetype st p) as (_ & _ & Hnd). auto. }
  destruct Hin as [<-|Hin]; [|now apply (IH _ Ha')].
  cbn [snd]. apply local_associations_nodup; [exact Ha'|apply Hc].
Qed.

(** X16: the resolver does not repeat a desktop identifier.  The list of
    added associations never holds an identifier twice, whatever the
    files hold; and when no cache entry for the MIME-type repeats an
    identifier, no candidate list of any file does: an identifier that is
    both added and in the cache is there once, at its place among the
    added. *)
Theorem candidates_no_repeat (env : environment) (mimetype : string) :
  NoDup (added (final_state env mimetype))
  /\ ((forall path,
         NoDup (iterate_associations (get_associations env path)
                  MIME_CACHE_SECTION mimetype)) ->
      forall pc, In pc (candidates env mimetype) -> NoDup (snd pc)).
Proof.
  unfold final_state, candidates. rewrite resolve_from_trace. cbn [snd].
  split.
  - apply fold_merge_nodup. constructor.
  - intros Hc. apply candidates_from_nodup; [exact Hc|constructor].
Qed.

Lemma candidates_no_repeat_witness :
  candidates cache_env "text/plain"
  = [("/usr/share/applications/mimeapps.list",
      ["vim.desktop"; "nano.desktop"; "emacs.desktop"])]
  /\ NoDup (added (final_state cache_env "text/plain"))
  /\ forall pc, In pc (candidates cache_env "text/plain") -> NoDup (snd pc).
Proof.
  split; [reflexivity|].
  destruct (candidates_no_repeat cache_env "text/plain") as [H1 H2].
  split; [exact H1|]. apply H2.
  intros path. unfold cache_env. cbn [get_associations].
  destruct (String.eqb path "/usr/share/applications/mimeapps.list");
    [constructor|].
  destruct (String.eqb path "/usr/share/applications/mimeinfo.cache");
    [|constructor].
  apply nodupb_sound. reflexivity.
Defined.

Lemma fold_merge_blacklist (env : environment) (mimetype : string)
  (paths : list string) (st : resolver_state) (d : string) :
  In d (blacklist st) ->
  In d (blacklist (fold_left (merge_source env mimetype) paths st)).
Proof.
  revert st. induction paths as [|p paths IH]; intros st H; [exact H|].
  cbn [fold_left]. apply IH. apply merge_source_blacklist. now left.
Qed.

Lemma filter_filter_blacklist (bl1 bl2 l : list string) :
  (forall d, In d bl1 -> In d bl2) ->
  filter (fun a => negb (mem_str a bl2))
         (filter (fun a => negb (mem_str a bl1)) l)
  = filter (fun a => negb (mem_str a bl2)) l.
Proof.
  intros Hsub. induction l as [|x l IH]; [reflexivity|]. cbn [filter].
  destruct (mem_str x bl1) eqn:E1; cbn [negb].
  - rewrite IH. apply mem_str_In in E1. apply Hsub in E1.
    apply mem_str_In in E1. now rewrite E1.
  - cbn [filter]. now rewrite IH.
Qed.

Lemma fold_merge_disjoint (env : environment) (mimetype : string)
  (paths : list string) (st : resolver_state) :
  (forall a, In a (added st) -> ~ In a (blacklist st)) ->
  forall a,
    In a (added (fold_left (merge_source env mimetype) paths st)) ->
    ~ In a (blacklist (fold_left (merge_source env mimetype) paths st)).
Proof.
  revert st. induction paths as [|p paths IH]; intros st H; [exact H|].
  cbn [fold_left]. apply IH. apply merge_source_disjoint.
Qed.

Lemma unique_from_app (seen l1 l2 : list string) :
  unique_from String.eqb seen (l1 ++ l2)
  = unique_from String.eqb seen l1
    ++ unique_from String.eqb (l1 ++ seen) l2.
Proof.
  revert seen. induction l1 as [|x l1 IH]; intros seen; [reflexivity|].
  cbn [app unique_from].
  destruct (existsb (String.eqb x) seen) eqn:Ex.
  - rewrite IH. f_equal. apply (unique_from_ext String.eqb_spec).
    intros y. split.
    + intros H. now right.
    + intros [<-|H]; [|exact H].
      apply in_or_app. right. now apply mem_str_In.
  - rewrite IH. cbn [app]. f_equal. f_equal.
    apply (unique_from_ext String.eqb_spec).
    intros y. rewrite !in_app_iff. cbn [In]. rewrite in_app_iff. tauto.
Qed.

(** What [extend_added] appends: the new items in their order, each
    once, without those of the blacklist. *)
Lemma extend_added_closed (bl items acc seen : list string) :
  (forall x, In x acc <-> In x seen /\ ~ In x bl) ->
  extend_added bl acc items
  = acc ++ filter (fun a => negb (mem_str a bl))
             (unique_from String.eqb seen items).
Proof.
  revert acc seen. induction items as [|a items IH]; intros acc seen Hinv.
  - cbn [extend_added unique_from filter]. now rewrite app_nil_r.
  - cbn [extend_added unique_from].
    change (existsb (String.eqb a) seen) with (mem_str a seen).
    destruct (mem_str a bl) eqn:Eb; cbn [negb andb].
    + apply mem_str_In in Eb.
      destruct (mem_str a seen) eqn:Es.
      * now apply IH.
      * cbn [filter].
        assert (Eb' : mem_str a bl = true) by now apply mem_str_In.
        rewrite Eb'. cbn [negb]. apply IH.
        intros x. rewrite Hinv. cbn [In]. split.
        -- intros [H1 H2]. split; [now right|exact H2].
        -- intros [[<-|H1] H2]; [contradiction|now split].
    + apply mem_str_false in Eb.
      destruct (mem_str a acc) eqn:Ea; cbn [negb].
      * apply mem_str_In in Ea. apply Hinv in Ea. destruct Ea as [Ea _].
        apply mem_str_In in Ea. rewrite Ea. now apply IH.
      * apply mem_str_false in Ea.
        assert (Es : mem_str a seen = false).
        { apply mem_str_false. intros H. apply Ea. apply Hinv. now split. }
        rewrite Es. cbn [filter].
        assert (Eb' : mem_str a bl = false) by now apply mem_str_false.
        rewrite Eb'. cbn [negb].
        rewrite (IH (acc ++ [a]) (a :: seen)).
        -- now rewrite <- app_assoc.
        -- intros x. rewrite in_app_iff, Hinv. cbn [In]. split.
           ++ intros [[H1 H2]|[<-|[]]]; [split; [now right|exact H2]|].
              split; [now left|exact Eb].
           ++ intros [[<-|H1] H2]; [right; now left|left; now split].
Qed.

(** The state after any number of files: the blacklist is what the files
    remove, and the added list is what they add, each identifier once at
    its first place, without those of the blacklist. *)
Lemma fold_merge_closed (env : environment) (mimetype : string)
  (paths : list string) (st : resolver_state) (seen : list string) :
  added st
  = filter (fun a => negb (mem_str a (blacklist st)))
      (unique_items String.eqb seen) ->
  blacklist (fold_left (merge_source env mimetype) paths st)
  = blacklist st ++ removed_by env mimetype paths
  /\ added (fold_left (merge_source env mimetype) paths st)
     = filter
         (fun a => negb (mem_str a (blacklist st
                                    ++ removed_by env mimetype paths)))
         (unique_items String.eqb (seen ++ added_by env mimetype paths)).
Proof.
  revert st seen. induction paths as [|p paths IH]; intros st seen Hst.
  - cbn [fold_left removed_by added_by flat_map]. rewrite !app_nil_r.
    split; [reflexivity|exact Hst].
  - cbn [fold_left].
    set (A := iterate_associations (get_associations env p)
                ADDED_ASSOCIATIONS_SECTION mimetype).
    set (R := iterate_associations (get_associations env p)
                REMOVED_ASSOCIATIONS_SECTION mimetype).
    assert (Hb : blacklist (merge_source env mimetype st p)
                 = blacklist st ++ R) by reflexivity.
    assert (Ha : added (merge_source env mimetype st p)
                 = filter (fun a => negb (mem_str a (blacklist st ++ R)))
                     (unique_items String.eqb (seen ++ A))).
    { unfold merge_source. cbn [added blacklist]. fold A R.
      rewrite Hst.
      rewrite filter_filter_blacklist
        by (intros d Hd; apply in_or_app; now left).
      rewrite (extend_added_closed (blacklist st ++ R) A _
                 (unique_items String.eqb seen)).
      - rewrite <- filter_app. f_equal.
        unfold unique_items. rewrite unique_from_app. f_equal.
        apply (unique_from_ext String.eqb_spec).
        intros x. rewrite app_nil_r.
        rewrite (unique_from_in String.eqb_spec). cbn [In]. tauto.
      - intros x. rewrite filter_In. rewrite negb_true_iff.
        now rewrite mem_str_false. }
    destruct (IH (merge_source env mimetype st p) (seen ++ A)) as [H1 H2].
    { rewrite Ha, Hb. reflexivity. }
    rewrite Hb in H1, H2.
    cbn [removed_by added_by flat_map]. fold R A.
    fold (removed_by env mimetype paths). fold (added_by env mimetype paths).
    rewrite <- (app_assoc seen A) in H2.
    rewrite <- (app_assoc (blacklist st) R) in H1, H2.
    split; [exact H1|exact H2].
Qed.

(** X17: precedence among the added associations.  Whatever the later
    files add, the associations added by the files read so far keep
    their places at the front of the list, in their order, except those
    that a later file removes; after them come the identifiers that the
    later files add and no earlier file has added, each once, in the
    order in which the later files name them first, without those that
    any file removes.  The blacklist at the end is what all the files
    remove. *)
Theorem added_keeps_precedence (env : environment) (mimetype : string)
  (pre post : list string) :
  blacklist
    (fold_left (merge_source env mimetype) (pre ++ post) initial_state)
  = removed_by env mimetype (pre ++ post)
  /\ added
       (fold_left (merge_source env mimetype) (pre ++ post) initial_state)
     = filter
         (fun a => negb (mem_str a (removed_by env mimetype (pre ++ post))))
         (added (fold_left (merge_source env mimetype) pre initial_state))
       ++ filter
            (fun a =>
               negb (mem_str a (removed_by env mimetype (pre ++ post))))
            (unique_from String.eqb (added_by env mimetype pre)
               (added_by env mimetype post)).
Proof.
  destruct (fold_merge_closed env mimetype (pre ++ post) initial_state [])
    as [Hb Ha]; [reflexivity|].
  destruct (fold_merge_closed env mimetype pre initial_state [])
    as [Hb' Ha']; [reflexivity|].
  cbn [initial_state blacklist app] in Hb, Ha, Hb', Ha'.
  split; [exact Hb|].
  rewrite Ha, Ha'.
  rewrite filter_filter_blacklist.
  - rewrite <- filter_app. f_equal.
    unfold added_by at 1. rewrite flat_map_app.
    fold (added_by env mimetype pre). fold (added_by env mimetype post).
    unfold unique_items. rewrite unique_from_app.
    now rewrite app_nil_r.
  - intros d Hd. unfold removed_by. rewrite flat_map_app.
    apply in_or_app. now left.
Qed.

Example added_keeps_precedence_sample :
  added (fold_left (merge_source sample_env "text/plain")
           (mimeapps_list_paths sample_env) initial_state) = []
  /\ added_by sample_env "text/plain" (mimeapps_list_paths sample_env)
     = ["vim.desktop"]
  /\ removed_by sample_env "text/plain" (mimeapps_list_paths sample_env)
     = ["vim.desktop"].
Proof. repeat split. Qed.
(** ** Words without field codes *)

(** What the generator does with a word without a percent sign: it asks
    for the values of the first argument, and yields the word. *)
Lemma parse_field_codes_plain_word (ext : externals) (w name : string)
  (args : list string) (icon path : option string) :
  Str.mem "%" w = false ->
  parse_field_codes ext w name args icon path false
  = (fu <- first_argument ext args ;; Return [w]).
Proof.
  intros H. destruct (first_argument ext args) as [fu|e] eqn:E.
  - exact (parse_field_codes_plain ext w name args icon path fu H E).
  - unfold parse_field_codes.
    rewrite (not_code_word w "i" H), (not_code_word w "F" H),
      (not_code_word w "U" H), (not_code_word w "f" H),
      (not_code_word w "u" H).
    cbn [orb andb]. now rewrite E.
Qed.

Lemma build_cmd_plain (ext : externals) (name : string)
  (icon path : option string) (words aa : list string) :
  forallb (fun w => negb (Str.mem "%" w)) words = true ->
  build_cmd ext name icon path words aa
  = match words with
    | [] => Return []
    | _ :: _ => fu <- first_argument ext aa ;; Return words
    end.
Proof.
  intros Hw. destruct words as [|w words]; [reflexivity|].
  destruct (first_argument ext aa) as [fu|e] eqn:E; cbn [bind].
  - unfold build_cmd.
    rewrite (map_result_plain ext name icon path (w :: words) aa fu Hw E).
    cbn [bind]. now rewrite concat_singletons.
  - unfold build_cmd. cbn [map_result].
    cbn [forallb] in Hw. apply andb_true_iff in Hw. destruct Hw as [Hw _].
    apply negb_true_iff in Hw.
    rewrite (parse_field_codes_plain_word ext w name aa icon path Hw), E.
    reflexivity.
Qed.

Lemma prefix_percent_plain (c : ascii) (s : string) :
  Str.mem "%" s = false ->
  Str.contains (String "%" (String c "")) s = false.
Proof.
  induction s as [|d s IH]; [reflexivity|].
  rewrite mem_cons. intros H. apply orb_false_iff in H. destruct H as [Hd Hs].
  cbn [Str.contains String.prefix].
  destruct (ascii_dec "%" d) as [<-|_]; [discriminate Hd|].
  now rewrite (IH Hs).
Qed.

Lemma replace_fuel_plain (n : nat) (s : string) :
  Str.mem "%" s = false -> Str.replace_fuel n "%%" "" s = s.
Proof.
  revert s. induction n as [|n IH]; intros s; [reflexivity|].
  destruct s as [|d s]; [reflexivity|].
  rewrite mem_cons. intros H. apply orb_false_iff in H. destruct H as [Hd Hs].
  cbn [Str.replace_fuel String.prefix].
  destruct (ascii_dec "%" d) as [<-|_]; [discriminate Hd|].
  now rewrite (IH s Hs).
Qed.

Lemma exec_codes_plain (exe : string) :
  Str.mem "%" exe = false -> exec_codes exe = [].
Proof.
  intros H. unfold exec_codes, Str.replace. cbn [Str.is_empty].
  rewrite (replace_fuel_plain _ exe H).
  cbn [list_ascii_of_string filter].
  now rewrite !(prefix_percent_plain _ exe H).
Qed.

(** The characters of the words of [shlex.split] are characters of the
    string; the backslash apart, which the state after a backslash in a
    double quotation gives back. *)
Lemma shlex_run_chars (c : ascii) (s : string) (st : Shlex.state)
  (token : string) (ws : list string) :
  Ascii.eqb c Str.backslash = false ->
  Str.mem c s = false -> Str.mem c token = false ->
  Shlex.run st token s = Return ws ->
  forallb (fun w => negb (Str.mem c w)) ws = true.
Proof.
  intros Hc. revert st token ws.
  induction s as [|d s IH]; intros st token ws Hs Ht.
  - destruct st; cbn [Shlex.run]; intros H; try discriminate;
      injection H as <-; cbn [forallb]; [reflexivity|now rewrite Ht].
  - rewrite mem_cons in Hs. apply orb_false_iff in Hs. destruct Hs as [Hd Hs].
    assert (Hpush : forall t e, Str.mem c t = false -> Ascii.eqb c e = false ->
                                Str.mem c (Shlex.push t e) = false).
    { intros t e Htk He. unfold Shlex.push.
      now rewrite mem_app, Htk, mem_cons, He. }
    assert (Hone : Str.mem c (String d "") = false)
      by (now rewrite mem_cons, Hd).
    destruct st as [| |q|dq]; cbn [Shlex.run].
    + destruct (Shlex.is_whitespace d); [now apply IH|].
      destruct (Ascii.eqb d Str.backslash); [now apply IH|].
      destruct (Shlex.is_quote d); now apply IH.
    + destruct (Shlex.is_whitespace d).
      * destruct (Shlex.run Shlex.Between "" s) as [ws'|e] eqn:E;
          cbn [bind]; [|discriminate].
        intros H. injection H as <-. cbn [forallb]. rewrite Ht. cbn [negb andb].
        now apply (IH Shlex.Between "" ws' Hs eq_refl E).
      * destruct (Shlex.is_quote d); [now apply IH|].
        destruct (Ascii.eqb d Str.backslash); [now apply IH|].
        apply IH; auto.
    + destruct (Ascii.eqb d q); [now apply IH|].
      destruct (Ascii.eqb d Str.backslash && Ascii.eqb q Str.dquote);
        [now apply IH|].
      apply IH; auto.
    + destruct dq; [|apply IH; auto].
      destruct (negb (Ascii.eqb d Str.backslash)
                && negb (Ascii.eqb d Str.dquote)); apply IH; auto.
Qed.

(** X18: a template without a percent sign gets none of the arguments,
    yet the first argument is passed to [ensure_path] and [ensure_url].
    When the quoting of the template is balanced: without arguments, or
    with a first argument that both functions accept, the interpolation
    yields one command, the words of the template, whatever the
    arguments are and however many there are; with a first argument that
    one of the two rejects, and a template that has a word, the
    exception of that function is raised. *)
Theorem exec_without_codes_ignores_args (ext : externals) (exe : string)
  (args : list string) (name : string) (icon path : option string)
  (words : list string) :
  Str.mem "%" exe = false -> Shlex.split exe = Return words ->
  (args = []
   \/ (exists a rest p u,
         args = a :: rest /\ ensure_path ext a = Return p
         /\ ensure_url ext a = Return u) ->
   exec_field_to_cmds_without_term ext exe args name icon path
   = Return [words])
  /\ (forall a rest e,
        args = a :: rest -> words <> [] ->
        ensure_path ext a = Raise e
        \/ (exists p, ensure_path ext a = Return p
                      /\ ensure_url ext a = Raise e) ->
        exec_field_to_cmds_without_term ext exe args name icon path
        = Raise e).
Proof.
  intros Hp Hs.
  pose proof (shlex_run_chars "%" exe Shlex.Between "" words eq_refl Hp
                eq_refl Hs) as Hw.
  assert (Hexec : exec_field_to_cmds_without_term ext exe args name icon path
                  = (cmd <- build_cmd ext name icon path words args ;;
                     Return [cmd])).
  { unfold exec_field_to_cmds_without_term.
    rewrite (exec_codes_plain exe Hp), Hs.
    cbn [List.length Nat.ltb Nat.leb bind].
    destruct args as [|a args]; reflexivity. }
  rewrite Hexec, (build_cmd_plain ext name icon path words args Hw).
  split.
  - intros Hacc. destruct words as [|w words]; [reflexivity|].
    destruct Hacc as [->|(a & rest & p & u & -> & Hpa & Hu)];
      [reflexivity|].
    cbn [first_argument]. now rewrite Hpa, Hu.
  - intros a rest e -> Hne Hrej.
    destruct words as [|w words]; [congruence|].
    cbn [first_argument].
    destruct Hrej as [->|(p & -> & ->)]; reflexivity.
Qed.

Lemma exec_without_codes_ignores_args_witness :
  exec_field_to_cmds_without_term strict_urls "feh -F -Z" ["/a.png"; "/b.png"]
    "Feh" None None
  = Return [["feh"; "-F"; "-Z"]]
  /\ exec_field_to_cmds_without_term strict_urls "feh -F -Z"
       ["http://[x"; "/b.png"] "Feh" None None
     = Raise (ValueError "Invalid IPv6 URL").
Proof.
  assert (Hne : ["feh"; "-F"; "-Z"] <> @nil string) by discriminate.
  split.
  - apply (proj1 (exec_without_codes_ignores_args strict_urls "feh -F -Z"
                    ["/a.png"; "/b.png"] "Feh" None None ["feh"; "-F"; "-Z"]
                    eq_refl eq_refl)).
    right. exists "/a.png", ["/b.png"], (Some "/a.png"), "file:///a.png".
    repeat split.
  - apply (proj2 (exec_without_codes_ignores_args strict_urls "feh -F -Z"
                    ["http://[x"; "/b.png"] "Feh" None None
                    ["feh"; "-F"; "-Z"] eq_refl eq_refl)
             "http://[x" ["/b.png"] (ValueError "Invalid IPv6 URL")
             eq_refl Hne).
    left. reflexivity.
Defined.
(** ** Quoting a command for the shell *)

Lemma replace_fuel_squote (n : nat) (s : string) :
  String.length s <= n ->
  Str.replace_fuel n Shlex.SQ
    (Shlex.SQ ++ Shlex.DQ ++ Shlex.SQ ++ Shlex.DQ ++ Shlex.SQ) s
  = quote_body s.
Proof.
  revert s. induction n as [|n IH]; intros s Hn.
  - destruct s; [reflexivity|simpl in Hn; lia].
  - destruct s as [|c s]; [reflexivity|].
    simpl in Hn.
    cbn [Str.replace_fuel String.prefix Shlex.SQ quote_body].
    destruct (ascii_dec Str.squote c) as [<-|Hc].
    + change (Str.drop (String.length Shlex.SQ) (String Str.squote s))
        with s.
      replace (prefix "" s) with true by (now destruct s).
      rewrite IH by lia. change (Ascii.eqb Str.squote Str.squote) with true.
      cbn iota. now rewrite !append_assoc.
    + destruct (Ascii.eqb_spec c Str.squote) as [->|_]; [congruence|].
      rewrite IH by lia. reflexivity.
Qed.

Lemma replace_squote (s : string) :
  Str.replace Shlex.SQ
    (Shlex.SQ ++ Shlex.DQ ++ Shlex.SQ ++ Shlex.DQ ++ Shlex.SQ) s
  = quote_body s.
Proof.
  unfold Str.replace. cbn [Str.is_empty Shlex.SQ].
  apply replace_fuel_squote. lia.
Qed.

Lemma push_app (tok : string) (c : ascii) (r : string) :
  (Shlex.push tok c ++ r = tok ++ String c r)%string.
Proof.
  unfold Shlex.push. induction tok as [|d tok IH]; [reflexivity|].
  cbn [String.append]. now rewrite IH.
Qed.

(** Between single quotation marks the lexer reads back what [shlex.quote]
    has put there. *)
Lemma run_quote_body (s tok rest : string) :
  Shlex.run (Shlex.InQuote Str.squote) tok
    (quote_body s ++ Shlex.SQ ++ rest)
  = Shlex.run Shlex.InWord (tok ++ s) rest.
Proof.
  revert tok. induction s as [|c s IH]; intros tok.
  - cbn [quote_body String.append Shlex.SQ Shlex.run].
    rewrite Ascii.eqb_refl. now rewrite append_nil_r.
  - cbn [quote_body].
    destruct (Ascii.eqb_spec c Str.squote) as [->|Hc].
    + cbn [String.append Shlex.SQ Shlex.DQ Shlex.run].
      change (Ascii.eqb Str.squote Str.squote) with true. cbn iota.
      change (Shlex.is_whitespace Str.dquote) with false.
      change (Shlex.is_quote Str.dquote) with true. cbn iota.
      change (Ascii.eqb Str.squote Str.dquote) with false.
      change (Ascii.eqb Str.squote Str.backslash) with false.
      cbn [andb]. cbn iota.
      change (Ascii.eqb Str.dquote Str.dquote) with true. cbn iota.
      change (Shlex.is_whitespace Str.squote) with false.
      change (Shlex.is_quote Str.squote) with true. cbn iota.
      change (String Str.squote rest) with (Shlex.SQ ++ rest)%string.
      rewrite IH, push_app. reflexivity.
    + cbn [String.append Shlex.run].
      destruct (Ascii.eqb_spec c Str.squote) as [|_]; [contradiction|].
      change (Ascii.eqb Str.squote Str.dquote) with false.
      rewrite andb_false_r.
      rewrite IH, push_app. reflexivity.
Qed.

Lemma safe_is_plain (c : ascii) :
  Shlex.is_safe c = true ->
  Shlex.is_whitespace c = false /\ Shlex.is_quote c = false
  /\ Ascii.eqb c Str.backslash = false.
Proof.
  destruct c as [[] [] [] [] [] [] [] []]; vm_compute; intros H;
    try discriminate H; repeat split.
Qed.

Lemma run_safe (s tok rest : string) :
  Shlex.all_safe s = true ->
  Shlex.run Shlex.InWord tok (s ++ rest)
  = Shlex.run Shlex.InWord (tok ++ s) rest.
Proof.
  revert tok. induction s as [|c s IH]; intros tok Hs.
  - cbn [String.append]. now rewrite append_nil_r.
  - cbn [Shlex.all_safe] in Hs. apply andb_true_iff in Hs.
    destruct Hs as [Hc Hs].
    destruct (safe_is_plain c Hc) as (Hw & Hq & Hb).
    cbn [String.append Shlex.run]. rewrite Hw, Hq, Hb.
    rewrite (IH _ Hs), push_app. reflexivity.
Qed.

(** A quoted word at the start of a word is read back as the word. *)
Lemma run_quote (w rest : string) :
  Shlex.run Shlex.Between "" (Shlex.quote w ++ rest)
  = Shlex.run Shlex.InWord w rest.
Proof.
  unfold Shlex.quote. destruct w as [|c w].
  - cbn [Str.is_empty Shlex.SQ String.append Shlex.run].
    change (Shlex.is_whitespace Str.squote) with false.
    change (Ascii.eqb Str.squote Str.backslash) with false.
    change (Shlex.is_quote Str.squote) with true.
    change (Ascii.eqb Str.squote Str.squote) with true. reflexivity.
  - cbn [Str.is_empty].
    destruct (Shlex.all_safe (String c w)) eqn:Hs.
    + cbn [Shlex.all_safe] in Hs. apply andb_true_iff in Hs.
      destruct Hs as [Hc Hs].
      destruct (safe_is_plain c Hc) as (Hw & Hq & Hb).
      cbn [String.append Shlex.run]. rewrite Hw, Hq, Hb.
      now rewrite (run_safe w _ rest Hs).
    + rewrite replace_squote. rewrite !append_assoc.
      cbn [Shlex.SQ String.append Shlex.run].
      change (Shlex.is_whitespace Str.squote) with false.
      change (Ascii.eqb Str.squote Str.backslash) with false.
      change (Shlex.is_quote Str.squote) with true. cbn iota.
      change (String Str.squote rest) with (Shlex.SQ ++ rest)%string.
      now rewrite (run_quote_body (String c w) "" rest).
Qed.

(** X19: the line that [quote_cmd] writes for a command is read back by
    the shell rules as that command: [shlex.split] of the line returns the
    words of the command, whatever characters they hold. *)
Theorem quote_cmd_round_trip (cmd : list string) :
  Shlex.split (quote_cmd cmd) = Return cmd.
Proof.
  unfold Shlex.split, quote_cmd, Str.join.
  induction cmd as [|w cmd IH]; [reflexivity|].
  destruct cmd as [|w' cmd].
  - cbn [map String.concat].
    rewrite <- (append_nil_r (Shlex.quote w)), run_quote. reflexivity.
  - change (String.concat " " (map Shlex.quote (w :: w' :: cmd)))
      with (Shlex.quote w ++ " "
            ++ String.concat " " (map Shlex.quote (w' :: cmd)))%string.
    rewrite run_quote.
    cbn [String.append Shlex.run].
    change (Shlex.is_whitespace " ") with true. cbn iota.
    rewrite IH. reflexivity.
Qed.

(** ** The placeholder of the terminal command *)

Lemma interpolate_word_one (q a b iword : string) :
  Str.mem "%" a = false -> Str.mem "%" b = false ->
  interpolate_word q iword false (a ++ TERM_COMMAND_PLACEHOLDER ++ b)
  = (iword ++ a ++ q ++ b)%string.
Proof.
  intros Ha Hb. revert iword Ha. induction a as [|c a IH]; intros iword Ha.
  - cbn [String.append TERM_COMMAND_PLACEHOLDER interpolate_word].
    cbn [Ascii.eqb Bool.eqb]. cbn iota.
    rewrite (interpolate_word_plain q b _ Hb). now rewrite append_assoc.
  - rewrite mem_cons in Ha. apply orb_false_iff in Ha. destruct Ha as [Hc Ha].
    cbn [String.append interpolate_word].
    rewrite Ascii.eqb_sym, Hc. rewrite (IH _ Ha). now rewrite push_app.
Qed.

(** The words around one word of the terminal command come out as they
    are when they have no percent sign. *)
Lemma interpolate_term_cmd_at (term_cmd : string)
  (app_cmd pre post : list string) (w : string) :
  Shlex.split term_cmd = Return (pre ++ w :: post) ->
  forallb (fun x => negb (Str.mem "%" x)) pre = true ->
  forallb (fun x => negb (Str.mem "%" x)) post = true ->
  interpolate_term_cmd term_cmd app_cmd
  = Return (pre ++ interpolate_term_word app_cmd w ++ post).
Proof.
  intros Hsplit Hpre Hpost.
  unfold interpolate_term_cmd. rewrite Hsplit. cbn [bind].
  rewrite flat_map_app. cbn [flat_map].
  now rewrite (interpolate_term_words_plain app_cmd pre Hpre),
    (interpolate_term_words_plain app_cmd post Hpost).
Qed.

(** X20: what a terminal command does with its placeholder.  When the
    words of the terminal command are [pre], one word [w] and [post], and
    no word of [pre] and [post] has a percent sign: if [w] is the
    placeholder, the words of the application command take its place; if
    [w] is the placeholder between single quotation marks, the application
    command quoted by [quote_cmd] takes its place as one word; if [w] is
    any other word with one placeholder in it, between [a] and [b], the
    word yielded is [a], the quoted application command and [b]. *)
Theorem term_cmd_placeholder (term_cmd : string)
  (app_cmd pre post : list string) (w : string) :
  Shlex.split term_cmd = Return (pre ++ w :: post) ->
  forallb (fun x => negb (Str.mem "%" x)) pre = true ->
  forallb (fun x => negb (Str.mem "%" x)) post = true ->
  (w = "%s" ->
   interpolate_term_cmd term_cmd app_cmd = Return (pre ++ app_cmd ++ post))
  /\ (w = "'%s'" ->
      interpolate_term_cmd term_cmd app_cmd
      = Return (pre ++ quote_cmd app_cmd :: post))
  /\ (forall a b : string,
        w = (a ++ "%s" ++ b)%string ->
        Str.mem "%" a = false -> Str.mem "%" b = false ->
        w <> "%s" -> w <> "'%s'" ->
        interpolate_term_cmd term_cmd app_cmd
        = Return (pre ++ (a ++ quote_cmd app_cmd ++ b)%string :: post)).
Proof.
  intros Hsplit Hpre Hpost.
  rewrite (interpolate_term_cmd_at term_cmd app_cmd pre post w
             Hsplit Hpre Hpost).
  split; [|split].
  - intros ->. reflexivity.
  - intros ->. reflexivity.
  - intros a b Hw Ha Hb H1 H2. unfold interpolate_term_word.
    destruct (String.eqb_spec w TERM_COMMAND_PLACEHOLDER) as [E|_];
      [contradiction|].
    destruct (String.eqb_spec w
                (Shlex.SQ ++ TERM_COMMAND_PLACEHOLDER ++ Shlex.SQ)) as [E|_];
      [contradiction|].
    rewrite Hw.
    change "%s" with TERM_COMMAND_PLACEHOLDER.
    rewrite (interpolate_word_one (quote_cmd app_cmd) a b "" Ha Hb).
    reflexivity.
Qed.

Lemma term_cmd_placeholder_witness :
  interpolate_term_cmd "xterm -e sh -c exec\ %s" ["vim"; "my notes"]
  = Return ["xterm"; "-e"; "sh"; "-c"; "exec vim 'my notes'"].
Proof.
  assert (H1 : "exec %s" <> "%s") by discriminate.
  assert (H2 : "exec %s" <> "'%s'") by discriminate.
  exact (proj2 (proj2 (term_cmd_placeholder "xterm -e sh -c exec\ %s"
                         ["vim"; "my notes"] ["xterm"; "-e"; "sh"; "-c"] []
                         "exec %s" eq_refl eq_refl eq_refl))
           "exec " "" eq_refl eq_refl eq_refl H1 H2).
Defined.

(** ** A literal percent sign *)

Lemma escape_percent_not_code (w : string) (x : ascii) :
  Ascii.eqb x "%" = false ->
  String.eqb (escape_percent w) (String "%" (String x "")) = false.
Proof.
  intros Hx. apply String.eqb_neq. intros E.
  destruct w as [|c w]; [discriminate E|].
  cbn [escape_percent] in E.
  destruct (Ascii.eqb_spec c "%") as [->|Hc].
  - injection E as E1 _. rewrite <- E1 in Hx. discriminate Hx.
  - injection E as E1 _. contradiction.
Qed.

Lemma parse_unexpandable_escaped (codes : ascii -> option string)
  (w : string) :
  codes "%"%char = Some "%" ->
  parse_unexpandable_field_codes codes false (escape_percent w)
  = map (fun c : ascii => String c EmptyString) (list_ascii_of_string w).
Proof.
  intros Hp. induction w as [|c w IH]; [reflexivity|].
  cbn [escape_percent list_ascii_of_string map].
  destruct (Ascii.eqb_spec c "%") as [->|Hc].
  - cbn [parse_unexpandable_field_codes Ascii.eqb Bool.eqb]. cbn iota.
    now rewrite Hp, IH.
  - cbn [parse_unexpandable_field_codes].
    destruct (Ascii.eqb_spec c "%") as [|_]; [contradiction|].
    now rewrite IH.
Qed.

(** X21: a doubled percent sign stands for one percent sign and nothing
    else.  For every word, the word with each of its percent signs doubled
    is interpolated to the word itself, whatever the name, the icon and
    the path are: no field code of the word is expanded.  The first
    argument is passed to [ensure_path] and [ensure_url] all the same:
    the word comes out when there is no argument or when both accept the
    first one, and the exception of the one that rejects it is raised
    otherwise. *)
Theorem doubled_percent_is_literal (ext : externals) (w name : string)
  (args : list string) (icon path : option string) (omit_empty : bool) :
  (args = []
   \/ (exists a rest p u,
         args = a :: rest /\ ensure_path ext a = Return p
         /\ ensure_url ext a = Return u) ->
   parse_field_codes ext (escape_percent w) name args icon path omit_empty
   = Return [w])
  /\ (forall a rest e,
        args = a :: rest ->
        ensure_path ext a = Raise e
        \/ (exists p, ensure_path ext a = Return p
                      /\ ensure_url ext a = Raise e) ->
        parse_field_codes ext (escape_percent w) name args icon path
          omit_empty
        = Raise e).
Proof.
  assert (Hk : mem_str (escape_percent w) ["%k"; "%f"; "%u"] = false).
  { unfold mem_str. cbn [existsb].
    now rewrite (escape_percent_not_code w "k" eq_refl),
      (escape_percent_not_code w "f" eq_refl),
      (escape_percent_not_code w "u" eq_refl). }
  assert (H : parse_field_codes ext (escape_percent w) name args icon path
                omit_empty
              = (fu <- first_argument ext args ;; Return [w])).
  { unfold parse_field_codes.
    rewrite (escape_percent_not_code w "i" eq_refl),
      (escape_percent_not_code w "F" eq_refl),
      (escape_percent_not_code w "U" eq_refl),
      (escape_percent_not_code w "f" eq_refl),
      (escape_percent_not_code w "u" eq_refl).
    cbn [orb andb]. rewrite Hk. cbn [negb].
    destruct (first_argument ext args) as [fu|e]; cbn [bind]; [|reflexivity].
    rewrite (parse_unexpandable_escaped _ w eq_refl), join_chars.
    now rewrite !orb_true_r. }
  rewrite H. split.
  - intros [->|(a & rest & p & u & -> & Hp & Hu)]; [reflexivity|].
    cbn [first_argument]. now rewrite Hp, Hu.
  - intros a rest e -> Hrej. cbn [first_argument].
    destruct Hrej as [->|(p & -> & ->)]; reflexivity.
Qed.

Lemma doubled_percent_is_literal_witness :
  parse_field_codes strict_urls (escape_percent "100%f") "App" ["/a"] None
    None false
  = Return ["100%f"]
  /\ parse_field_codes strict_urls (escape_percent "100%f") "App"
       ["http://[x"] None None false
     = Raise (ValueError "Invalid IPv6 URL").
Proof.
  split.
  - apply (proj1 (doubled_percent_is_literal strict_urls "100%f" "App"
                    ["/a"] None None false)).
    right. exists "/a", [], (Some "/a"), "file:///a". repeat split.
  - apply (proj2 (doubled_percent_is_literal strict_urls "100%f" "App"
                    ["http://[x"] None None false)
             "http://[x" [] (ValueError "Invalid IPv6 URL") eq_refl).
    left. reflexivity.
Defined.
(** ** Modifying the associations of the user *)

Lemma unique_from_snoc (seen l : list string) (d : string) :
  unique_from String.eqb seen (l ++ [d])
  = unique_from String.eqb seen l
    ++ (if mem_str d seen || mem_str d l then [] else [d]).
Proof.
  revert seen. induction l as [|y l IH]; intros seen.
  - cbn [app unique_from mem_str existsb]. rewrite orb_false_r.
    unfold mem_str. now destruct (existsb (String.eqb d) seen).
  - cbn [app unique_from].
    destruct (existsb (String.eqb y) seen) eqn:Ey.
    + rewrite IH. f_equal. unfold mem_str. cbn [existsb].
      destruct (String.eqb_spec d y) as [->|_]; [|reflexivity].
      now rewrite Ey.
    + rewrite IH. cbn [app]. f_equal. f_equal. unfold mem_str.
      cbn [existsb].
      destruct (String.eqb d y), (existsb (String.eqb d) seen); reflexivity.
Qed.

Lemma mem_str_rev (x : string) (l : list string) :
  mem_str x (rev l) = mem_str x l.
Proof.
  destruct (mem_str x l) eqn:E.
  - apply mem_str_In. apply in_rev. rewrite rev_involutive.
    now apply mem_str_In.
  - destruct (mem_str x (rev l)) eqn:E'; [|reflexivity].
    apply mem_str_In in E'. apply in_rev in E'. apply mem_str_In in E'.
    congruence.
Qed.

Lemma filter_const_true (l : list string) : filter (fun _ => true) l = l.
Proof. induction l as [|x l IH]; [reflexivity|]. cbn [filter]. now rewrite IH. Qed.

Lemma mem_str_cons (x d : string) (rest : list string) :
  mem_str x (d :: rest) = String.eqb x d || mem_str x rest.
Proof. reflexivity. Qed.

Lemma promoted_nil (old : list string) : promoted [] old = old.
Proof. unfold promoted. cbn. apply filter_const_true. Qed.

Lemma promoted_step (d : string) (rest old : list string) :
  promoted rest (d :: filter (fun x => negb (String.eqb x d)) old)
  = promoted (d :: rest) old.
Proof.
  unfold promoted, unique_items. cbn [rev].
  rewrite unique_from_snoc. cbn [mem_str existsb orb].
  change (existsb (String.eqb d) (rev rest)) with (mem_str d (rev rest)).
  rewrite mem_str_rev, <- app_assoc. f_equal. cbn [filter].
  assert (Hf : filter (fun x => negb (mem_str x rest))
                 (filter (fun x => negb (String.eqb x d)) old)
               = filter (fun x => negb (mem_str x (d :: rest))) old).
  { induction old as [|x old IH]; [reflexivity|]. cbn [filter].
    rewrite (mem_str_cons x d rest).
    destruct (String.eqb x d); cbn [negb orb filter]; [exact IH|].
    destruct (mem_str x rest); cbn [negb]; now rewrite IH. }
  rewrite Hf. now destruct (mem_str d rest).
Qed.

Lemma promoted_idempotent (ds old : list string) :
  promoted ds (promoted ds old) = promoted ds old.
Proof.
  unfold promoted at 1 3. f_equal. unfold promoted.
  rewrite filter_app.
  assert (Hu : filter (fun x => negb (mem_str x ds))
                 (unique_items String.eqb (rev ds)) = []).
  { assert (Hin : forall x, In x (unique_items String.eqb (rev ds))
                            -> mem_str x ds = true).
    { intros x Hx. apply mem_str_In. apply in_rev.
      apply (unique_from_in String.eqb_spec) in Hx.
      tauto. }
    induction (unique_items String.eqb (rev ds)) as [|x l IH];
      [reflexivity|].
    cbn [filter]. rewrite (Hin x (or_introl eq_refl)). cbn [negb].
    apply IH. intros y Hy. apply Hin. now right. }
  rewrite Hu. cbn [app].
  induction old as [|x old IH]; [reflexivity|]. cbn [filter].
  destruct (mem_str x ds) eqn:E; cbn [negb filter]; [exact IH|].
  rewrite E. cbn [negb]. now rewrite IH.
Qed.

Lemma iterate_add_association (t : table) (s m d : string) :
  Str.truthy s = true -> Str.truthy m = true -> Str.truthy d = true ->
  lookup (add_association t (Some s) m d) (Some s) m
  = Some (d :: filter (fun x => negb (String.eqb x d))
                 (iterate_associations t s m)).
Proof.
  intros Hs Hm Hd. unfold iterate_associations.
  now apply lookup_add_association.
Qed.

(** Adding the values [ds] to one key, one after the other. *)
Lemma add_all_iterate (s m : string) (ds : list string) (t : table) :
  Str.truthy s = true -> Str.truthy m = true ->
  forallb Str.truthy ds = true ->
  iterate_associations
    (fold_left (fun t d => add_association t (Some s) m d) ds t) s m
  = promoted ds (iterate_associations t s m).
Proof.
  intros Hs Hm. revert t. induction ds as [|d ds IH]; intros t Hds.
  - cbn [fold_left]. now rewrite promoted_nil.
  - cbn [forallb] in Hds. apply andb_true_iff in Hds. destruct Hds as [Hd Hds].
    cbn [fold_left]. rewrite (IH _ Hds).
    unfold iterate_associations at 1.
    rewrite (iterate_add_association t s m d Hs Hm Hd).
    apply promoted_step.
Qed.

Lemma add_all_some (s m : string) (ds : list string) (t : table) :
  Str.truthy s = true -> Str.truthy m = true ->
  forallb Str.truthy ds = true ->
  ds <> [] \/ lookup t (Some s) m <> None ->
  lookup (fold_left (fun t d => add_association t (Some s) m d) ds t)
    (Some s) m <> None.
Proof.
  intros Hs Hm. revert t. induction ds as [|d ds IH]; intros t Hds Hne.
  - cbn [fold_left]. destruct Hne as [Hne|Hne]; [congruence|exact Hne].
  - cbn [forallb] in Hds. apply andb_true_iff in Hds. destruct Hds as [Hd Hds].
    cbn [fold_left]. apply (IH _ Hds). right.
    now rewrite (iterate_add_association t s m d Hs Hm Hd).
Qed.

Lemma add_all_lookup (s m : string) (ds : list string) (t : table) :
  Str.truthy s = true -> Str.truthy m = true ->
  forallb Str.truthy ds = true -> ds <> [] ->
  lookup (fold_left (fun t d => add_association t (Some s) m d) ds t)
    (Some s) m
  = Some (promoted ds (iterate_associations t s m)).
Proof.
  intros Hs Hm Hds Hne.
  pose proof (add_all_iterate s m ds t Hs Hm Hds) as Hi.
  pose proof (add_all_some s m ds t Hs Hm Hds (or_introl Hne)) as Hsome.
  unfold iterate_associations at 1 in Hi.
  destruct (lookup _ (Some s) m) as [l|]; [now rewrite Hi|congruence].
Qed.

Lemma add_all_other (s m : string) (ds : list string) (t : table)
  (section' : option string) (key' : string) :
  section' <> Some s \/ key' <> m ->
  lookup (fold_left (fun t d => add_association t (Some s) m d) ds t)
    section' key'
  = lookup t section' key'.
Proof.
  intros Hne. revert t. induction ds as [|d ds IH]; intros t; [reflexivity|].
  cbn [fold_left]. rewrite IH. now apply lookup_add_association_other.
Qed.

Lemma fold_product3 {T : Type} (f : T -> string -> string -> string -> T)
  (ss ms ds : list string) (t : T) :
  fold_left (fun t (smd : string * string * string) =>
               let '(s, m, d) := smd in f t s m d)
    (product3 ss ms ds) t
  = fold_left (fun t (sm : string * string) =>
                 let '(s, m) := sm in fold_left (fun t d => f t s m d) ds t)
      (product2 ss ms) t.
Proof.
  unfold product3, product2. revert t.
  induction ss as [|s ss IHs]; intros t; [reflexivity|].
  cbn [flat_map]. rewrite !fold_left_app, <- IHs. f_equal.
  clear IHs. revert t. induction ms as [|m ms IHm]; intros t; [reflexivity|].
  cbn [flat_map map]. rewrite fold_left_app. cbn [fold_left].
  rewrite <- IHm. f_equal.
  clear IHm. revert t. induction ds as [|d ds IHd]; intros t; [reflexivity|].
  cbn [map fold_left]. apply IHd.
Qed.

Lemma pair_dec (x y : string * string) : {x = y} + {x <> y}.
Proof. decide equality; apply string_dec. Qed.

Lemma add_pairs_other (ds : list string) (ps : list (string * string))
  (t : table) (section' : option string) (key' : string) :
  (forall s m, In (s, m) ps -> section' <> Some s \/ key' <> m) ->
  lookup (fold_left (fun t (sm : string * string) =>
                       let '(s, m) := sm in
                       fold_left (fun t d => add_association t (Some s) m d)
                         ds t) ps t) section' key'
  = lookup t section' key'.
Proof.
  revert t. induction ps as [|[s m] ps IH]; intros t Hne; [reflexivity|].
  cbn [fold_left]. rewrite IH.
  - apply add_all_other. apply Hne. now left.
  - intros s' m' H. apply Hne. now right.
Qed.

Lemma add_pairs_lookup (s m : string) (ds : list string)
  (ps : list (string * string)) (t : table) :
  Str.truthy s = true -> Str.truthy m = true ->
  forallb Str.truthy ds = true -> ds <> [] ->
  In (s, m) ps ->
  lookup (fold_left (fun t (sm : string * string) =>
                       let '(s, m) := sm in
                       fold_left (fun t d => add_association t (Some s) m d)
                         ds t) ps t) (Some s) m
  = Some (promoted ds (iterate_associations t s m)).
Proof.
  intros Hs Hm Hds Hne. revert t.
  induction ps as [|[s' m'] ps IH]; intros t Hin; [destruct Hin|].
  cbn [fold_left].
  destruct (pair_dec (s', m') (s, m)) as [E|E].
  - injection E as -> ->.
    destruct (in_dec pair_dec (s, m) ps) as [Hin'|Hout].
    + rewrite (IH _ Hin'), (add_all_iterate s m ds t Hs Hm Hds).
      now rewrite promoted_idempotent.
    + rewrite add_pairs_other.
      * now apply add_all_lookup.
      * intros s0 m0 H0.
        destruct (string_dec s0 s) as [->|Hs0]; [|left; congruence].
        right. intros <-. contradiction.
  - destruct Hin as [Hin|Hin]; [congruence|].
    rewrite (IH _ Hin). unfold iterate_associations.
    rewrite add_all_other; [reflexivity|].
    destruct (string_dec s s') as [<-|Hs']; [|left; congruence].
    right. intros <-. now apply E.
Qed.

Lemma in_product2 (s m : string) (ss ms : list string) :
  In (s, m) (product2 ss ms) <-> In s ss /\ In m ms.
Proof.
  unfold product2. rewrite in_flat_map. split.
  - intros (x & Hx & H). apply in_map_iff in H. destruct H as (y & E & Hy).
    injection E as -> ->. now split.
  - intros [Hs Hm]. exists s. split; [exact Hs|].
    apply in_map_iff. now exists m.
Qed.

Lemma adder_sections (op : string) (sections : list string) :
  Dict.get String.eqb ASSOCIATION_ADDERS op = Some sections ->
  forall s, In s sections -> Str.truthy s = true.
Proof.
  unfold ASSOCIATION_ADDERS. cbn [Dict.get].
  destruct (String.eqb op "add");
    [|destruct (String.eqb op "remove");
      [|destruct (String.eqb op "prefer"); [|discriminate]]];
    intros H; injection H as <-; intros s [<-|[]]; reflexivity.
Qed.

(** X22: what the operations [add], [remove] and [prefer] leave under a
    MIME-type.  The loop goes through the desktop names in the order in
    which they are given when there is a matcher, and in the order of
    the set of the names when there is none.  When there are names, all
    of them non-empty, the table is saved, and for every matched
    MIME-type the list under it in the section of the operation becomes:
    the names in the reverse of the order of the loop, each once, and
    then the former values that are not among the names, in their former
    order.  So with a matcher the name given last comes first.  What is
    under another section or under a MIME-type that was not matched is
    as before. *)
Theorem adders_promote_desktops (set_iter : list string -> list string)
  (op : string) (sections : list string) (matcher : bool)
  (mimetypes desktops : list string) (assocs : table) :
  Dict.get String.eqb ASSOCIATION_ADDERS op = Some sections ->
  iterated_desktops set_iter matcher desktops <> [] ->
  forallb Str.truthy (iterated_desktops set_iter matcher desktops) = true ->
  iterated_desktops set_iter true desktops = desktops
  /\ exists t,
       modify_associations set_iter op matcher mimetypes desktops assocs
       = Return t
       /\ (forall s m,
             In s sections -> In m mimetypes -> Str.truthy m = true ->
             lookup t (Some s) m
             = Some (unique_items String.eqb
                       (rev (iterated_desktops set_iter matcher desktops))
                     ++ filter
                          (fun x =>
                             negb (mem_str x
                                     (iterated_desktops set_iter matcher
                                        desktops)))
                          (iterate_associations assocs s m)))
       /\ (forall section key,
             (forall s, In s sections -> section <> Some s)
             \/ ~ In key mimetypes ->
             lookup t section key = lookup assocs section key).
Proof.
  intros Hop Hne Hds. split; [reflexivity|].
  unfold modify_associations. rewrite Hop.
  set (ds := iterated_desktops set_iter matcher desktops) in *.
  assert (Hn : nonempty ds = true) by (destruct ds; [congruence|reflexivity]).
  rewrite Hn. eexists. split; [reflexivity|].
  rewrite (fold_product3 (fun t s m d => add_association t (Some s) m d)).
  split.
  - intros s m Hs Hm Htm.
    apply (add_pairs_lookup s m ds _ assocs
             (adder_sections op sections Hop s Hs) Htm Hds Hne).
    now apply in_product2.
  - intros section key Hout. apply add_pairs_other.
    intros s m H. apply in_product2 in H. destruct H as [Hs Hm].
    destruct Hout as [Hout|Hout].
    + left. now apply Hout.
    + right. intros ->. contradiction.
Qed.

Lemma adders_promote_desktops_witness :
  exists t,
    modify_associations (fun l => rev l) "prefer" true ["text/plain"]
      ["nano.desktop"; "emacs.desktop"] sample_defaults = Return t
    /\ lookup t (Some DEFAULT_APPLICATIONS_SECTION) "text/plain"
       = Some ["emacs.desktop"; "nano.desktop"; "vim.desktop"].
Proof.
  assert (Hne : iterated_desktops (fun l => rev l) true
                  ["nano.desktop"; "emacs.desktop"] <> [])
    by discriminate.
  destruct (adders_promote_desktops (fun l => rev l) "prefer"
              [DEFAULT_APPLICATIONS_SECTION] true ["text/plain"]
              ["nano.desktop"; "emacs.desktop"] sample_defaults
              eq_refl Hne eq_refl) as (_ & t & Ht & Hin & _).
  exists t. split; [exact Ht|].
  rewrite (Hin DEFAULT_APPLICATIONS_SECTION "text/plain"
             (or_introl eq_refl) (or_introl eq_refl) eq_refl).
  reflexivity.
Defined.

Lemma nodup_keys_del (e : entries) (key : string) :
  NoDup (Dict.keys e) -> NoDup (Dict.keys (Dict.del String.eqb e key)).
Proof.
  unfold Dict.keys. induction e as [|[k v] e IH]; intros Hnd; [constructor|].
  cbn [map fst] in Hnd. inversion Hnd as [|? ? Hk He]; subst.
  cbn [Dict.del]. destruct (String.eqb key k); [exact He|].
  cbn [map fst]. constructor; [|now apply IH].
  intros Hin. apply Hk. clear -Hin.
  induction e as [|[k' v'] e IH]; [destruct Hin|].
  cbn [Dict.del] in Hin. destruct (String.eqb key k').
  - right. exact Hin.
  - cbn [map fst] in *. destruct Hin as [E|Hin]; [now left|right; now apply IH].
Qed.

Lemma dict_wf_set_section (t : table) (section : option string)
  (e e' : entries) :
  dict_wf t -> get_section t section = Some e -> NoDup (Dict.keys e') ->
  dict_wf (Dict.set opt_eqb t section e').
Proof.
  intros [Hk Hf] He He'. split.
  - unfold get_section in He.
    now rewrite (dict_keys_set_present opt_eqb_spec t section e' e He).
  - clear Hk He. induction t as [|[s0 e0] t IH].
    + cbn [Dict.set]. constructor; [exact He'|constructor].
    + inversion Hf as [|? ? H0 Ht]; subst. cbn [Dict.set].
      destruct (opt_eqb section s0); constructor; auto.
Qed.

Lemma remove_association_wf (t : table) (section : option string)
  (key : string) (value : option string) :
  dict_wf t -> dict_wf (remove_association t section key value).
Proof.
  intros Hwf. unfold remove_association.
  destruct (nonempty t && truthy_opt section && Str.truthy key);
    [|exact Hwf].
  destruct (get_section t section) as [e|] eqn:Es; [|exact Hwf].
  pose proof (dict_wf_section t section e Hwf Es) as He.
  assert (Hdel : dict_wf (Dict.set opt_eqb t section
                            (Dict.del String.eqb e key)))
    by (apply (dict_wf_set_section t section e _ Hwf Es);
        now apply nodup_keys_del).
  destruct (get_key e key) as [old|] eqn:Ek; [|exact Hwf].
  destruct value as [v|]; [|exact Hdel].
  destruct (Str.truthy v); [|exact Hdel].
  destruct (list_remove v old) as [[|y l]|]; [exact Hdel| |exact Hwf].
  apply (dict_wf_set_section t section e _ Hwf Es).
  unfold get_key in Ek.
  now rewrite (dict_keys_set_present String.eqb_spec e key (y :: l) old Ek).
Qed.

Lemma remove_pairs_wf (ps : list (string * string)) (t : table) :
  dict_wf t ->
  dict_wf (fold_left (fun t (sm : string * string) =>
                        let '(s, m) := sm in
                        remove_association t (Some s) m None) ps t).
Proof.
  revert t. induction ps as [|[s m] ps IH]; intros t Hwf; [exact Hwf|].
  cbn [fold_left]. apply IH. now apply remove_association_wf.
Qed.

Lemma remove_pairs_other (ps : list (string * string)) (t : table)
  (section' : option string) (key' : string) :
  (forall s m, In (s, m) ps -> section' <> Some s \/ key' <> m) ->
  lookup (fold_left (fun t (sm : string * string) =>
                       let '(s, m) := sm in
                       remove_association t (Some s) m None) ps t)
    section' key'
  = lookup t section' key'.
Proof.
  revert t. induction ps as [|[s m] ps IH]; intros t Hne; [reflexivity|].
  cbn [fold_left]. rewrite IH.
  - apply lookup_remove_association_other. apply Hne. now left.
  - intros s' m' H. apply Hne. now right.
Qed.

Lemma remove_none_keeps_none (t : table) (s m : string)
  (section : option string) (key : string) :
  dict_wf t -> lookup t section key = None ->
  lookup (remove_association t (Some s) m None) section key = None.
Proof.
  intros Hwf Hn.
  destruct (opt_eqb_spec section (Some s)) as [->|Hs].
  - destruct (String.eqb_spec key m) as [->|Hk].
    + unfold remove_association.
      destruct (nonempty t && truthy_opt (Some s) && Str.truthy m) eqn:Ht;
        [|exact Hn].
      unfold lookup in Hn.
      destruct (get_section t (Some s)) as [e|] eqn:Es.
      * rewrite Hn. unfold lookup. now rewrite Es.
      * unfold lookup. now rewrite Es.
    + rewrite lookup_remove_association_other by now right. exact Hn.
  - rewrite lookup_remove_association_other by now left. exact Hn.
Qed.

Lemma remove_pairs_keeps_none (ps : list (string * string)) (t : table)
  (section : option string) (key : string) :
  dict_wf t -> lookup t section key = None ->
  lookup (fold_left (fun t (sm : string * string) =>
                       let '(s, m) := sm in
                       remove_association t (Some s) m None) ps t)
    section key = None.
Proof.
  revert t. induction ps as [|[s m] ps IH]; intros t Hwf Hn; [exact Hn|].
  cbn [fold_left]. apply IH.
  - now apply remove_association_wf.
  - now apply remove_none_keeps_none.
Qed.

Lemma remove_pairs_none (s m : string) (ps : list (string * string))
  (t : table) :
  dict_wf t -> Str.truthy s = true -> Str.truthy m = true ->
  In (s, m) ps ->
  lookup (fold_left (fun t (sm : string * string) =>
                       let '(s, m) := sm in
                       remove_association t (Some s) m None) ps t)
    (Some s) m = None.
Proof.
  intros Hwf Hs Hm. revert t Hwf.
  induction ps as [|[s' m'] ps IH]; intros t Hwf Hin; [destruct Hin|].
  cbn [fold_left].
  destruct (pair_dec (s', m') (s, m)) as [E|E].
  - injection E as -> ->.
    apply remove_pairs_keeps_none; [now apply remove_association_wf|].
    rewrite (lookup_remove_association t (Some s) m None Hwf Hs Hm).
    now destruct (lookup t (Some s) m).
  - destruct Hin as [Hin|Hin]; [congruence|].
    apply IH; [now apply remove_association_wf|exact Hin].
Qed.

Lemma remover_sections (op : string) (sections : list string) :
  Dict.get String.eqb ASSOCIATION_REMOVERS op = Some sections ->
  Dict.get String.eqb ASSOCIATION_ADDERS op = None
  /\ forall s, In s sections -> Str.truthy s = true.
Proof.
  unfold ASSOCIATION_REMOVERS, ASSOCIATION_ADDERS. cbn [Dict.get].
  destruct (String.eqb_spec op "unadd") as [->|_];
    [|destruct (String.eqb_spec op "unremove") as [->|_];
      [|destruct (String.eqb_spec op "unprefer") as [->|_];
        [|destruct (String.eqb_spec op "clear") as [->|_];
          [|discriminate]]]];
    intros H; injection H as <-; (split; [reflexivity|]);
    intros s Hs; cbn [In] in Hs;
    repeat (destruct Hs as [<-|Hs]; [reflexivity|]); destruct Hs.
Qed.

(** X23: what the operations [unadd], [unremove], [unprefer] and [clear]
    do when no desktop name is given.  With a matcher the table is
    saved, and every matched MIME-type is taken out of every section of
    the operation; for [clear] these are the added associations, the
    removed associations and the default applications.  What is under
    another section or under a MIME-type that was not matched is as
    before.  Without a matcher nothing is saved: the MIME-types were
    never assigned, and reading them raises. *)
Theorem removers_clear_mimetypes (set_iter : list string -> list string)
  (op : string) (sections : list string)
  (mimetypes : list string) (assocs : table) :
  Dict.get String.eqb ASSOCIATION_REMOVERS op = Some sections ->
  dict_wf assocs ->
  (exists t,
     modify_associations set_iter op true mimetypes [] assocs = Return t
     /\ (forall s m,
           In s sections -> In m mimetypes -> Str.truthy m = true ->
           lookup t (Some s) m = None)
     /\ (forall section key,
           (forall s, In s sections -> section <> Some s)
           \/ ~ In key mimetypes ->
           lookup t section key = lookup assocs section key))
  /\ modify_associations set_iter op false mimetypes [] assocs
     = Raise (UnboundLocalError "mimetypes").
Proof.
  intros Hop Hwf. destruct (remover_sections op sections Hop) as [Hadd Hts].
  unfold modify_associations. rewrite Hadd, Hop.
  cbn [iterated_desktops nonempty orb].
  split; [|reflexivity].
  eexists. split; [reflexivity|]. split.
  - intros s m Hs Hm Htm.
    apply (remove_pairs_none s m _ assocs Hwf (Hts s Hs) Htm).
    now apply in_product2.
  - intros section key Hout. apply remove_pairs_other.
    intros s m H. apply in_product2 in H. destruct H as [Hs Hm].
    destruct Hout as [Hout|Hout].
    + left. now apply Hout.
    + right. intros ->. contradiction.
Qed.

Lemma removers_clear_mimetypes_witness :
  exists t,
    modify_associations (fun l => l) "clear" true ["text/plain"] []
      sample_defaults = Return t
    /\ lookup t (Some ADDED_ASSOCIATIONS_SECTION) "text/plain" = None
    /\ lookup t (Some DEFAULT_APPLICATIONS_SECTION) "text/plain" = None
    /\ lookup t (Some DEFAULT_APPLICATIONS_SECTION) "image/png"
       = lookup sample_defaults (Some DEFAULT_APPLICATIONS_SECTION)
           "image/png".
Proof.
  destruct (removers_clear_mimetypes (fun l => l) "clear"
              [ADDED_ASSOCIATIONS_SECTION; REMOVED_ASSOCIATIONS_SECTION;
               DEFAULT_APPLICATIONS_SECTION]
              ["text/plain"] sample_defaults eq_refl sample_defaults_wf)
    as [(t & Ht & Hin & Hout) _].
  exists t. split; [exact Ht|]. split; [|split].
  - apply Hin; [now left|now left|reflexivity].
  - apply Hin; [right; right; now left|now left|reflexivity].
  - apply Hout. right. intros [E|[]]. discriminate E.
Defined.
(** ** The paths of the association files *)

(** X24: the file that the user's changes are written to is one that the
    resolver reads.  For every setting of the base directories and of the
    current desktop: the path that [user_mimeapps_path] gives is the first
    of the paths that [mimeapps_list_paths] yields for the same choice of
    [current_desktop] when the user's directories are included, so it has
    the highest precedence; and whatever that choice is, the path is among
    the paths yielded with [current_desktop] set, as the resolver asks for
    them. *)
Theorem user_mimeapps_path_is_read (bd : Xdg.base_directory)
  (current_desktop system include_user_app_dir : bool) :
  hd_error (Xdg.mimeapps_list_paths bd current_desktop true system
              include_user_app_dir)
  = Some (Xdg.user_mimeapps_path bd current_desktop)
  /\ In (Xdg.user_mimeapps_path bd current_desktop)
        (Xdg.mimeapps_list_paths bd true true system include_user_app_dir).
Proof.
  unfold Xdg.mimeapps_list_paths, Xdg.user_mimeapps_path,
    Xdg.mimeapps_directories.
  cbn [app flat_map map].
  destruct (Xdg.desktop_mimeapps_filenames bd) as [|n dmals].
  - rewrite !andb_false_r. cbn [app hd_error].
    split; [now destruct current_desktop|].
    left. now destruct current_desktop.
  - cbn [nonempty andb flat_map map app]. rewrite andb_true_r.
    destruct current_desktop; cbn [app hd_error flat_map map].
    + split; [reflexivity|now left].
    + split; [reflexivity|]. right.
      apply in_or_app. left. apply in_or_app. right. now left.
Qed.

(** ** Custom associations *)

Lemma custom_cmds_all {R : Type} (search : R -> string -> bool) (a : string)
  (mimeo_assocs : list (R * string)) (found_one : bool) :
  custom_cmds_of search false a mimeo_assocs found_one
  = (map (fun cmd => Some (a, cmd)) (matching_cmds search mimeo_assocs a),
     found_one || nonempty (matching_cmds search mimeo_assocs a)).
Proof.
  unfold matching_cmds. revert found_one.
  induction mimeo_assocs as [|[regex cmd] rest IH]; intros found_one.
  - cbn. now rewrite orb_false_r.
  - cbn [custom_cmds_of filter fst].
    destruct (search regex a).
    + rewrite IH. cbn [map snd nonempty]. now rewrite orb_true_r.
    + apply IH.
Qed.

Lemma custom_cmds_first {R : Type} (search : R -> string -> bool) (a : string)
  (mimeo_assocs : list (R * string)) (found_one : bool) :
  custom_cmds_of search true a mimeo_assocs found_one
  = (match matching_cmds search mimeo_assocs a with
     | cmd :: _ => [Some (a, cmd)]
     | [] => []
     end, found_one).
Proof.
  unfold matching_cmds.
  induction mimeo_assocs as [|[regex cmd] rest IH]; [reflexivity|].
  cbn [custom_cmds_of filter fst].
  destruct (search regex a); [reflexivity|apply IH].
Qed.

(** X25: what [args_to_custom_cmds] yields for each argument, the
    arguments being taken in their order.  Without [first_only]: a pair of
    the argument with the command of every association whose pattern is
    found in it, in the order of the associations, and [None] instead when
    there is none and [at_least_one] is set.  With [first_only]: the pair
    with the first such command only; and when [at_least_one] is set,
    [None] follows for every argument, also for one that has a command,
    because the loop is left before the flag is set. *)
Theorem args_to_custom_cmds_spec {R : Type} (search : R -> string -> bool)
  (mimeo_assocs : list (R * string)) (args : list string)
  (at_least_one : bool) :
  args_to_custom_cmds search mimeo_assocs args at_least_one false
  = flat_map
      (fun a =>
         match matching_cmds search mimeo_assocs a with
         | [] => if at_least_one then [None] else []
         | cmds => map (fun cmd => Some (a, cmd)) cmds
         end) args
  /\ args_to_custom_cmds search mimeo_assocs args at_least_one true
     = flat_map
         (fun a =>
            match matching_cmds search mimeo_assocs a with
            | cmd :: _ => [Some (a, cmd)]
            | [] => []
            end ++ (if at_least_one then [None] else [])) args.
Proof.
  unfold args_to_custom_cmds. split.
  - induction args as [|a args IH]; [reflexivity|].
    cbn [flat_map]. rewrite IH. f_equal.
    rewrite custom_cmds_all. cbn [orb].
    destruct (matching_cmds search mimeo_assocs a) as [|cmd cmds];
      cbn [nonempty negb andb map]; [reflexivity|].
    now rewrite app_nil_r.
  - induction args as [|a args IH]; [reflexivity|].
    cbn [flat_map]. rewrite IH. f_equal.
    now rewrite custom_cmds_first.
Qed.

(** ** Commands in a terminal *)

Lemma wrap_cmds_none (is_term : bool) (term_cmd : option string)
  (cmds : list (list string)) :
  is_term = false \/ truthy_opt term_cmd = false ->
  wrap_cmds is_term term_cmd cmds = Return cmds.
Proof.
  intros H. induction cmds as [|cmd cmds IH]; [reflexivity|].
  cbn [wrap_cmds]. rewrite IH.
  destruct term_cmd as [t|]; [|reflexivity].
  destruct H as [->|H]; [reflexivity|].
  cbn [truthy_opt] in H. rewrite H. now rewrite andb_false_r.
Qed.

(** X26: the terminal command is left out unless the entry asks for a
    terminal and a terminal command is set.  When the entry does not ask
    for a terminal, or the terminal command is [None] or empty,
    [exec_field_to_cmds] yields what [exec_field_to_cmds_without_term]
    yields, and raises what it raises. *)
Theorem exec_field_to_cmds_no_term (ext : externals) (exe : string)
  (args : list string) (name : string) (icon path : option string)
  (is_term : bool) (term_cmd : option string) :
  is_term = false \/ truthy_opt term_cmd = false ->
  exec_field_to_cmds ext exe args name icon path is_term term_cmd
  = exec_field_to_cmds_without_term ext exe args name icon path.
Proof.
  intros H. unfold exec_field_to_cmds.
  destruct (exec_field_to_cmds_without_term ext exe args name icon path)
    as [cmds|e]; cbn [bind]; [|reflexivity].
  now apply wrap_cmds_none.
Qed.

Lemma exec_field_to_cmds_no_term_witness :
  exec_field_to_cmds local_paths "feh %F" ["/a.png"] "Feh" None None
    false (Some "xterm -e")
  = exec_field_to_cmds_without_term local_paths "feh %F" ["/a.png"] "Feh"
      None None.
Proof.
  apply exec_field_to_cmds_no_term. left. reflexivity.
Defined.

Lemma wrap_cmds_placeholder (t : string) (pre post : list string)
  (cmds : list (list string)) :
  Str.truthy t = true ->
  Shlex.split t = Return (pre ++ TERM_COMMAND_PLACEHOLDER :: post) ->
  forallb (fun x => negb (Str.mem "%" x)) pre = true ->
  forallb (fun x => negb (Str.mem "%" x)) post = true ->
  wrap_cmds true (Some t) cmds
  = Return (map (fun app_cmd => pre ++ app_cmd ++ post) cmds).
Proof.
  intros Ht Hsplit Hpre Hpost.
  induction cmds as [|cmd cmds IH]; [reflexivity|].
  cbn [wrap_cmds andb]. rewrite Ht, IH.
  rewrite (interpolate_term_cmd_at t cmd pre post TERM_COMMAND_PLACEHOLDER
             Hsplit Hpre Hpost).
  reflexivity.
Qed.

(** X27: an entry that asks for a terminal gets every one of its commands
    wrapped.  When the words of the terminal command are [pre], the
    placeholder and [post], without a percent sign in [pre] and [post],
    and the template of the entry is interpolated to the commands [cmds],
    then [exec_field_to_cmds] yields as many commands, in the same order,
    each of them [pre], then the words of the command of the entry, then
    [post]. *)
Theorem exec_field_to_cmds_in_term (ext : externals) (exe : string)
  (args : list string) (name : string) (icon path : option string)
  (t : string) (pre post : list string) (cmds : list (list string)) :
  Shlex.split t = Return (pre ++ "%s" :: post) ->
  forallb (fun x => negb (Str.mem "%" x)) pre = true ->
  forallb (fun x => negb (Str.mem "%" x)) post = true ->
  exec_field_to_cmds_without_term ext exe args name icon path = Return cmds ->
  exec_field_to_cmds ext exe args name icon path true (Some t)
  = Return (map (fun app_cmd => pre ++ app_cmd ++ post) cmds).
Proof.
  intros Hsplit Hpre Hpost Hcmds. unfold exec_field_to_cmds.
  rewrite Hcmds. cbn [bind].
  apply wrap_cmds_placeholder; auto.
  destruct t; [|reflexivity].
  destruct pre; discriminate Hsplit.
Qed.

Lemma exec_field_to_cmds_in_term_witness :
  exec_field_to_cmds local_paths "vim %f" ["/a.txt"; "/b.txt"] "Vim" None None
    true (Some "xterm -e %s")
  = Return [["xterm"; "-e"; "vim"; "/a.txt"]; ["xterm"; "-e"; "vim"; "/b.txt"]].
Proof.
  exact (exec_field_to_cmds_in_term local_paths "vim %f" ["/a.txt"; "/b.txt"]
           "Vim" None None "xterm -e %s" ["xterm"; "-e"] []
           [["vim"; "/a.txt"]; ["vim"; "/b.txt"]]
           eq_refl eq_refl eq_refl eq_refl).
Defined.

(** ** Reading back what is written after [Exec=] *)

Lemma run_plain_word (w tok rest : string) :
  plain_word w = true ->
  Shlex.run Shlex.InWord tok (w ++ rest)
  = Shlex.run Shlex.InWord (tok ++ w) rest.
Proof.
  revert tok. induction w as [|c w IH]; intros tok Hw.
  - cbn [String.append]. now rewrite append_nil_r.
  - cbn [plain_word] in Hw. apply andb_true_iff in Hw.
    destruct Hw as [Hc Hw]. unfold plain_char in Hc.
    apply negb_true_iff in Hc. apply orb_false_iff in Hc.
    destruct Hc as [Hc Hb]. apply orb_false_iff in Hc.
    destruct Hc as [Hws Hq].
    cbn [String.append Shlex.run]. rewrite Hws, Hq, Hb.
    rewrite (IH _ Hw), push_app. reflexivity.
Qed.

Lemma run_start_plain (w rest : string) :
  w <> "" -> plain_word w = true ->
  Shlex.run Shlex.Between "" (w ++ rest) = Shlex.run Shlex.InWord w rest.
Proof.
  destruct w as [|c w]; [congruence|]. intros _ Hw.
  cbn [plain_word] in Hw. apply andb_true_iff in Hw.
  destruct Hw as [Hc Hw]. unfold plain_char in Hc.
  apply negb_true_iff in Hc. apply orb_false_iff in Hc.
  destruct Hc as [Hc Hb]. apply orb_false_iff in Hc.
  destruct Hc as [Hws Hq].
  cbn [String.append Shlex.run]. rewrite Hws, Hq, Hb.
  now rewrite (run_plain_word w _ rest Hw).
Qed.

Lemma split_join_plain (cmd : list string) :
  Forall (fun w => w <> "" /\ plain_word w = true) cmd ->
  Shlex.split (Str.join " " cmd) = Return cmd.
Proof.
  unfold Shlex.split, Str.join.
  induction cmd as [|w cmd IH]; intros H; [reflexivity|].
  inversion H as [|? ? [Hne Hw] Hcmd]; subst.
  destruct cmd as [|w' cmd].
  - cbn [String.concat].
    rewrite <- (append_nil_r w) at 1.
    now rewrite (run_start_plain w "" Hne Hw).
  - change (String.concat " " (w :: w' :: cmd))
      with (w ++ " " ++ String.concat " " (w' :: cmd))%string.
    rewrite (run_start_plain w _ Hne Hw).
    cbn [String.append Shlex.run].
    change (Shlex.is_whitespace " ") with true. cbn iota.
    now rewrite (IH Hcmd).
Qed.

Lemma not_reserved_plain_char (d : ascii) :
  existsb (fun c => Ascii.eqb c d) (list_ascii_of_string EXEC_RESERVED)
  = false ->
  Ascii.eqb Str.cr d = false -> plain_char d = true.
Proof.
  destruct d as [[] [] [] [] [] [] [] []]; vm_compute; intros H1 H2;
    try reflexivity; discriminate.
Qed.

Lemma existsb_orb {A : Type} (f g : A -> bool) (l : list A) :
  existsb (fun x => f x || g x) l = existsb f l || existsb g l.
Proof.
  induction l as [|x l IH]; [reflexivity|]. cbn [existsb]. rewrite IH.
  destruct (f x), (g x), (existsb f l), (existsb g l); reflexivity.
Qed.

Lemma not_reserved_plain_word (w : string) :
  has_reserved w = false -> Str.mem Str.cr w = false -> plain_word w = true.
Proof.
  unfold has_reserved. induction w as [|d w IH]; intros Hr Hcr; [reflexivity|].
  rewrite mem_cons in Hcr. apply orb_false_iff in Hcr.
  destruct Hcr as [Hd Hcr].
  assert (E : existsb (fun c => Str.mem c (String d w))
                (list_ascii_of_string EXEC_RESERVED)
              = existsb (fun c => Ascii.eqb c d)
                  (list_ascii_of_string EXEC_RESERVED)
                || existsb (fun c => Str.mem c w)
                     (list_ascii_of_string EXEC_RESERVED))
    by apply (existsb_orb (fun c => Ascii.eqb c d) (fun c => Str.mem c w)).
  rewrite E in Hr. apply orb_false_iff in Hr. destruct Hr as [Hr1 Hr2].
  cbn [plain_word]. rewrite (not_reserved_plain_char d Hr1 Hd).
  now apply IH.
Qed.

(** X28: what is written after [Exec=] is read back as the command.  For
    a command whose words are not empty and have no reserved character
    and no carriage return, the value that [create_desktop_entry] formats
    is split by [shlex.split], as [exec_field_to_cmds_without_term] splits
    it, into the words of the command. *)
Theorem exec_value_read_back (cmd : list string) :
  Forall (fun w => w <> "" /\ has_reserved w = false
                   /\ Str.mem Str.cr w = false) cmd ->
  exists exe, exec_value cmd = Return exe /\ Shlex.split exe = Return cmd.
Proof.
  intros H. exists (Str.join " " cmd). split.
  - apply exec_value_plain. apply forallb_forall. intros w Hw.
    rewrite Forall_forall in H. destruct (H w Hw) as (_ & Hr & _).
    now rewrite Hr.
  - apply split_join_plain. apply Forall_forall. intros w Hw.
    rewrite Forall_forall in H. destruct (H w Hw) as (Hne & Hr & Hcr).
    split; [exact Hne|now apply not_reserved_plain_word].
Qed.

Lemma exec_value_read_back_witness :
  exists exe, exec_value ["vim"; "-p"; "%F"] = Return exe
              /\ Shlex.split exe = Return ["vim"; "-p"; "%F"].
Proof.
  apply exec_value_read_back.
  repeat (constructor; [split; [discriminate|split; reflexivity]|]).
  constructor.
Defined.

(** ** From a preference to the resolver *)



